(** * A bounded single-producer single-consumer ring queue

    Shallow embedding of [lockfree-queue/src/SPSC.hpp], with the policies and
    the [Assert] helper of [common.hpp], the [TestAllocator] of
    [test/test_allocator.hpp] and the [SimpleAllocator] of the README.

    The queue is a class template over the element type and the wait policy;
    here it is a [Section] over [DataType] and [Waiting], and each member
    function is a function on the record of the data members.

    - An [int] is a [Z] in the 32-bit signed range, and every [int] operation
      of the source is written with its two's-complement wrap-around
      ([Int.wrap32]).  For the atomic [fetch_add] and [fetch_sub] that is the
      language's definition; for plain [int] arithmetic an overflow is
      undefined behaviour in C++ and the wrapped value is what the machine
      computes.  On a well-formed queue all intermediate values of
      [Emplace] and [Pop] are in range.  The results about the batch
      operations carry the bounds they need.  In [Emplace_Multiple] the sum
      [popIndex + mCapacity] can leave the range where a result only asks
      for [popIndex + mCapacity - pushIndex] to be in range: such a result
      rests on the wrapped sum, from which the subtraction that follows
      gives that difference again.  The statements about states where a
      wrapped value changes the outcome say so.
    - The atomics are read and written in program order, one member function
      at a time: the memory orders of the source have no counterpart here.
      A [wait] that would sleep ends the call with the outcome [Waits].
    - [Assert] either continues or aborts the program ([Abort]); an exception
      of the allocator leaves the call as [Throw]. *)

From Stdlib Require Import ZArith String Lia.
From stdpp Require Import base option list.

Local Open Scope Z_scope.

(** ** 32-bit signed integers *)

Module Int.

Definition INT_MAX : Z := 2147483647.
Definition INT_MIN : Z := -2147483648.

(** The value an [int] holds when the mathematical result is [z]. *)
Definition wrap32 (z : Z) : Z := (z + 2147483648) mod 4294967296 - 2147483648.

Definition in_int (z : Z) : Prop := INT_MIN <= z <= INT_MAX.

Definition add (a b : Z) : Z := wrap32 (a + b).
Definition sub (a b : Z) : Z := wrap32 (a - b).
Definition mul (a b : Z) : Z := wrap32 (a * b).
(** [/] and [%] of C++ truncate towards zero. *)
Definition div (a b : Z) : Z := wrap32 (Z.quot a b).
Definition rem (a b : Z) : Z := Z.rem a b.
(** [static_cast<int>] of a [size_t]. *)
Definition of_size_t (n : Z) : Z := wrap32 n.

End Int.

(** ** [common.hpp]: policies and [Assert] *)

Inductive ThreadsPolicy := SPSC | SPMC | MPSC | MPMC.

Inductive WaitPolicy := NoWaits | PushAwait | PopAwait | BothAwait.

Definition Await_Pushes (aWaiting : WaitPolicy) : bool :=
  match aWaiting with PushAwait | BothAwait => true | _ => false end.

Definition Await_Pops (aWaiting : WaitPolicy) : bool :=
  match aWaiting with PopAwait | BothAwait => true | _ => false end.

(** How a call ends: it returns, [Assert] prints its message and calls
    [std::abort], or an exception leaves the call with the state as it was
    when it was thrown. *)
Inductive Outcome (S : Type) : Type :=
  | Ok (s : S)
  | Abort (message : string)
  | Throw (what : string) (s : S).
Arguments Ok {S} s.
Arguments Abort {S} message.
Arguments Throw {S} what s.

(** How a call of a waiting function ends in this model: it has returned, or
    it sleeps in [wait] (see the waiting functions of the queue). *)
Inductive Await (S R : Type) : Type :=
  | Finished (s : S) (r : R)
  | Waits (s : S).
Arguments Finished {S R} s r.
Arguments Waits {S R} s.

Definition Assert {S} (condition : bool) (message : string)
    (k : Outcome S) : Outcome S :=
  if condition then k else Abort message.

(** ** The allocator interface and [TestAllocator] *)

(** Addresses of buffers; [None] is [nullptr]. *)
Definition ptr : Type := positive.

Inductive AllocResult :=
  | Returned (p : option ptr)
  | Raised (what : string).

Class Allocator (A : Type) := {
  alloc_Allocate : A -> Z -> Z -> A * AllocResult;
  alloc_Free : A -> option ptr -> A
}.

Module TestAllocator.

(** [allocated_ptrs_] is the member of the class; [aligned_alloc_results] is
    what the successive calls of [std::aligned_alloc] will answer (the C
    library is outside the program; when the list is used up it answers
    null).

    [Allocate] rounds the size up with a division by the alignment.  The
    rounded size only goes to [std::aligned_alloc], whose answer is given
    here, so it has no part in the result; but with an alignment of zero the
    division in the source is a division by zero and the program ends there.
    [Allocate] below is the function for a positive alignment, which is what
    the queue passes (at least [sAlign]); the statements about it carry that
    hypothesis. *)
Record t := mk {
  allocated_ptrs_ : list ptr;
  aligned_alloc_results : list (option ptr)
}.

Definition Allocate (a : t) (size alignment : Z) : t * AllocResult :=
  let aligned_size := Z.quot (size + alignment - 1) alignment * alignment in
  match aligned_alloc_results a with
  | Some p :: rest =>
      (mk (allocated_ptrs_ a ++ [p]) rest, Returned (Some p))
  | None :: rest => (mk (allocated_ptrs_ a) rest, Raised "std::bad_alloc")
  | [] => (a, Raised "std::bad_alloc")
  end.

(** [std::find] and [erase]: the first occurrence is removed. *)
Fixpoint erase_first (p : ptr) (l : list ptr) : list ptr :=
  match l with
  | [] => []
  | x :: l' => if Pos.eqb x p then l' else x :: erase_first p l'
  end.

Definition Free (a : t) (p : option ptr) : t :=
  match p with
  | Some p' => mk (erase_first p' (allocated_ptrs_ a)) (aligned_alloc_results a)
  | None => a
  end.

Definition allocated_count (a : t) : nat := length (allocated_ptrs_ a).

End TestAllocator.

#[export] Instance TestAllocator_Allocator : Allocator TestAllocator.t := {
  alloc_Allocate := TestAllocator.Allocate;
  alloc_Free := TestAllocator.Free
}.

(** The [SimpleAllocator] of the usage example in the queue's README: it
    hands the answer of [std::aligned_alloc] to the caller as it is, null
    included, and [Free] calls [std::free] ([freed] records those calls).
    It rounds the size as [TestAllocator] does, and [Allocate] is likewise
    the function for a positive alignment. *)
Module SimpleAllocator.

Record t := mk {
  aligned_alloc_results : list (option ptr);
  freed : list (option ptr)
}.

Definition Allocate (a : t) (size alignment : Z) : t * AllocResult :=
  let aligned_size := Z.quot (size + alignment - 1) alignment * alignment in
  match aligned_alloc_results a with
  | r :: rest => (mk rest (freed a), Returned r)
  | [] => (a, Returned None)
  end.

Definition Free (a : t) (p : option ptr) : t :=
  mk (aligned_alloc_results a) (freed a ++ [p]).

End SimpleAllocator.

#[export] Instance SimpleAllocator_Allocator : Allocator SimpleAllocator.t := {
  alloc_Allocate := SimpleAllocator.Allocate;
  alloc_Free := SimpleAllocator.Free
}.

(** ** [SPSC.hpp]: the queue *)

Section Queue.

Context {DataType : Type}.
(** The [Waiting] template parameter, and [sizeof(DataType)] and
    [alignof(DataType)]. *)
Variable Waiting : WaitPolicy.
Variables sizeof_DataType alignof_DataType : Z.

Definition sPushAwait : bool := Await_Pushes Waiting.
Definition sPopAwait : bool := Await_Pops Waiting.
(** [0x80000000] converted to [int]. *)
Definition sSizeMask : Z := Int.wrap32 2147483648.
(** [hardware_destructive_interference_size], with the fallback value of
    [common.hpp]. *)
Definition sAlign : Z := 64.

(** The data members.  [mStorage] is the pointer ([None] is [nullptr]);
    [mStorage_mem] is the memory it points to, seen as slots of [DataType]:
    [None] is a slot of raw bytes, [Some x] a slot holding the object [x]. *)
Record Queue := mkQueue {
  mPushIndex : Z;
  mPopIndex : Z;
  mSize : Z;
  mStorage : option ptr;
  mStorage_mem : list (option DataType);
  mCapacity : Z;
  mIndexEnd : Z
}.

(** [Queue() = default] with the member initialisers. *)
Definition Queue_default : Queue :=
  mkQueue 0 0 0 None [] 0 0.

Definition set_mPushIndex (v : Z) (q : Queue) : Queue :=
  mkQueue v (mPopIndex q) (mSize q) (mStorage q) (mStorage_mem q)
    (mCapacity q) (mIndexEnd q).
Definition set_mPopIndex (v : Z) (q : Queue) : Queue :=
  mkQueue (mPushIndex q) v (mSize q) (mStorage q) (mStorage_mem q)
    (mCapacity q) (mIndexEnd q).
Definition set_mSize (v : Z) (q : Queue) : Queue :=
  mkQueue (mPushIndex q) (mPopIndex q) v (mStorage q) (mStorage_mem q)
    (mCapacity q) (mIndexEnd q).
Definition set_mStorage (p : option ptr) (m : list (option DataType))
    (q : Queue) : Queue :=
  mkQueue (mPushIndex q) (mPopIndex q) (mSize q) p m
    (mCapacity q) (mIndexEnd q).
Definition set_mem (m : list (option DataType)) (q : Queue) : Queue :=
  set_mStorage (mStorage q) m q.
Definition set_mCapacity (v : Z) (q : Queue) : Queue :=
  mkQueue (mPushIndex q) (mPopIndex q) (mSize q) (mStorage q) (mStorage_mem q)
    v (mIndexEnd q).
Definition set_mIndexEnd (v : Z) (q : Queue) : Queue :=
  mkQueue (mPushIndex q) (mPopIndex q) (mSize q) (mStorage q) (mStorage_mem q)
    (mCapacity q) v.

(** *** Slots of the storage

    Slot [i] is at [mStorage + i * sizeof(DataType)].  An access outside the
    buffer is undefined in the source; here a write outside changes nothing
    and a read outside finds no object. *)
Definition slot_write (m : list (option DataType)) (i : Z)
    (x : option DataType) : list (option DataType) :=
  if i <? 0 then m else <[Z.to_nat i := x]> m.

Definition slot_read (m : list (option DataType)) (i : Z) : option DataType :=
  if i <? 0 then None
  else match m !! Z.to_nat i with Some (Some x) => Some x | _ => None end.

(** [std::uninitialized_move_n(src, n, dst)]: objects are constructed in the
    slots from [dst] on, while the count is positive.  This is the effect of
    a call that reads inside the span and writes inside the buffer.  A call
    that asks for more elements than the span has, or for slots past the end
    of the buffer, is undefined in the source; here it stops with the span and
    its writes outside the buffer are dropped, so what it returns for such a
    call says nothing about the program.  [Emplace_Multiple_defined] below
    tells for which calls of [Emplace_Multiple] every move stays inside. *)
Fixpoint uninitialized_move_n (src : list DataType) (n : nat)
    (m : list (option DataType)) (dst : Z) {struct n}
    : list (option DataType) :=
  match n, src with
  | S n', x :: src' =>
      uninitialized_move_n src' n' (slot_write m dst (Some x)) (dst + 1)
  | _, _ => m
  end.

(** The objects of [n] slots from [first] on, in order (the range
    [move_iterator(p), move_iterator(p + n)]). *)
Fixpoint move_range (m : list (option DataType)) (first : Z) (n : nat)
    : list DataType :=
  match n with
  | O => []
  | S n' =>
      match slot_read m first with
      | Some x => x :: move_range m (first + 1) n'
      | None => move_range m (first + 1) n'
      end
  end.

(** [std::destroy_n(p, n)]: the slots are raw bytes again. *)
Fixpoint destroy_n (m : list (option DataType)) (first : Z) (n : nat)
    : list (option DataType) :=
  match n with
  | O => m
  | S n' => destroy_n (slot_write m first None) (first + 1) n'
  end.

(** *** Memory management *)

Definition Is_Allocated (q : Queue) : bool :=
  match mStorage q with Some _ => true | None => false end.

(** [size()] and [empty()]. *)
Definition size (q : Queue) : Z :=
  let cSize := mSize q in
  Z.land cSize (Z.lnot sSizeMask).

Definition empty (q : Queue) : bool := size q =? 0.

(** The messages are those of the source without their final newline; the
    value that the three-argument [Assert] appends is not modelled. *)
Definition Allocate {A} `{Allocator A} (q : Queue) (aAllocator : A)
    (aCapacity : Z) : Outcome (Queue * A) :=
  Assert (negb (Is_Allocated q)) "Can't allocate while still owning memory!" (
  Assert (0 <? aCapacity) "Invalid capacity {}!" (
    let cNumBytes := aCapacity * sizeof_DataType in
    let sAlignment := Z.max sAlign alignof_DataType in
    match alloc_Allocate aAllocator cNumBytes sAlignment with
    | (a', Raised what) => Throw what (q, a')
    | (a', Returned p) =>
        let q1 := set_mStorage p (replicate (Z.to_nat aCapacity) None) q in
        Assert (Is_Allocated q1) "Memory allocation failed!" (
          let q2 := set_mCapacity aCapacity q1 in
          let sMaxValue := Int.INT_MAX in
          let cMaxNumWrapArounds := Int.div sMaxValue (mCapacity q2) in
          Assert (2 <=? cMaxNumWrapArounds) "Not enough wrap-arounds!" (
            Ok (set_mIndexEnd (Int.mul (mCapacity q2) cMaxNumWrapArounds) q2,
                a')))
    end)).

Definition Free {A} `{Allocator A} (q : Queue) (aAllocator : A)
    : Outcome (Queue * A) :=
  Assert (Is_Allocated q) "No memory to free!" (
  Assert (empty q) "Can't free until empty!" (
    let a' := alloc_Free aAllocator (mStorage q) in
    Ok (set_mCapacity 0 (set_mStorage None [] q), a'))).

(** *** Helper methods *)

Definition Bump_Index (q : Queue) (aIndex : Z) : Z :=
  let cIncremented := Int.add aIndex 1 in
  if cIncremented <? mIndexEnd q then cIncremented else 0.

Definition Increase_Index (q : Queue) (aIndex aIncrease : Z) : Z :=
  let cNewIndex := Int.add aIndex aIncrease in
  Int.sub cNewIndex (if cNewIndex >=? mIndexEnd q then mIndexEnd q else 0).

(** [fetch_add] and [fetch_sub] on the atomic [mSize] (atomic arithmetic
    wraps around).  [notify_all] changes no member; whether it is called is
    given by the two [_notifies] functions. *)
Definition Increase_Size (aNumPushed : Z) (q : Queue) : Queue :=
  set_mSize (Int.add (mSize q) aNumPushed) q.

Definition Increase_Size_notifies (q : Queue) : bool :=
  let cPriorSize := mSize q in
  sPopAwait && (cPriorSize =? 0).

Definition Decrease_Size (aNumPopped : Z) (q : Queue) : Queue :=
  set_mSize (Int.sub (mSize q) aNumPopped) q.

Definition Decrease_Size_notifies (q : Queue) : bool :=
  let cPriorSize := mSize q in
  sPushAwait && (Z.land cPriorSize (Z.lnot sSizeMask) =? mCapacity q).

(** *** Single-element push and pop *)

(** [Emplace(args...)]: [v] is the object that [DataType(args...)] builds. *)
Definition Emplace (q : Queue) (v : DataType) : Queue * bool :=
  let cUnwrappedPushIndex := mPushIndex q in
  let cUnwrappedPopIndex := mPopIndex q in
  let cIndexDelta := Int.sub cUnwrappedPushIndex cUnwrappedPopIndex in
  if (cIndexDelta =? mCapacity q)
     || (cIndexDelta =? Int.sub (mCapacity q) (mIndexEnd q))
  then (q, false)
  else
    let cPushIndex := Int.rem cUnwrappedPushIndex (mCapacity q) in
    let q1 := set_mem (slot_write (mStorage_mem q) cPushIndex (Some v)) q in
    let cNewPushIndex := Bump_Index q1 cUnwrappedPushIndex in
    let q2 := set_mPushIndex cNewPushIndex q1 in
    (Increase_Size 1 q2, true).

(** [Pop(aPopped)]: the reference parameter is an argument and a result.  A
    slot of raw bytes (which the queue never reads when its invariant holds)
    leaves [aPopped] as it was. *)
Definition Pop (q : Queue) (aPopped : DataType) : Queue * DataType * bool :=
  let cUnwrappedPushIndex := mPushIndex q in
  let cUnwrappedPopIndex := mPopIndex q in
  if cUnwrappedPopIndex =? cUnwrappedPushIndex then (q, aPopped, false)
  else
    let cPopIndex := Int.rem cUnwrappedPopIndex (mCapacity q) in
    let aPopped' :=
      match slot_read (mStorage_mem q) cPopIndex with
      | Some x => x
      | None => aPopped
      end in
    let q1 := set_mem (slot_write (mStorage_mem q) cPopIndex None) q in
    let cNewPopIndex := Bump_Index q1 cUnwrappedPopIndex in
    let q2 := set_mPopIndex cNewPopIndex q1 in
    (Decrease_Size 1 q2, aPopped', true).

(** *** Batch push and pop *)

(** A [std::span] is the list of the elements it views; [data() + k] is
    [drop k] and [size()] is the length. *)
Definition Emplace_Multiple (q : Queue) (aSpan : list DataType)
    : Queue * list DataType :=
  let cUnwrappedPushIndex := mPushIndex q in
  let cUnwrappedPopIndex := mPopIndex q in
  let cMaxPushIndex := Int.add cUnwrappedPopIndex (mCapacity q) in
  let cMaxSlotsAvailable0 := Int.sub cMaxPushIndex cUnwrappedPushIndex in
  let cMaxSlotsAvailable :=
    Int.sub cMaxSlotsAvailable0
      (if cMaxSlotsAvailable0 >=? mIndexEnd q then mIndexEnd q else 0) in
  let cSpanSize := Int.of_size_t (Z.of_nat (length aSpan)) in
  let cNumToPush := Z.min cSpanSize cMaxSlotsAvailable in
  if cNumToPush =? 0 then (q, aSpan)
  else
    let cPushIndex := Int.rem cUnwrappedPushIndex (mCapacity q) in
    let cDistanceBeyondEnd :=
      Int.sub (Int.add cPushIndex cNumToPush) (mCapacity q) in
    let cSpanData := aSpan in
    let m' :=
      if cDistanceBeyondEnd <=? 0 then
        uninitialized_move_n cSpanData (Z.to_nat cNumToPush)
          (mStorage_mem q) cPushIndex
      else
        let cInitialLength := Int.sub cNumToPush cDistanceBeyondEnd in
        let m1 :=
          uninitialized_move_n cSpanData (Z.to_nat cInitialLength)
            (mStorage_mem q) cPushIndex in
        let cToPush := drop (Z.to_nat cInitialLength) cSpanData in
        uninitialized_move_n cToPush (Z.to_nat cDistanceBeyondEnd) m1 0 in
    let q1 := set_mem m' q in
    let cNewPushIndex := Increase_Index q1 cUnwrappedPushIndex cNumToPush in
    let q2 := set_mPushIndex cNewPushIndex q1 in
    let q3 := Increase_Size cNumToPush q2 in
    let cRemainingBegin := drop (Z.to_nat cNumToPush) cSpanData in
    (q3, take (Z.to_nat (Int.sub cSpanSize cNumToPush)) cRemainingBegin).

(** The output container of [Pop_Multiple] (a [std::vector] in the tests):
    its elements and its [capacity()].  [insert] at the end keeps the capacity
    when the new elements fit and otherwise grows it (to the new size at
    least; the growth policy is the library's). *)
Record Container := mkContainer {
  items : list DataType;
  capacity : Z
}.

Definition Container_size (c : Container) : Z := Z.of_nat (length (items c)).

Definition Container_insert_end (c : Container) (xs : list DataType)
    : Container :=
  mkContainer (items c ++ xs)
    (Z.max (capacity c) (Container_size c + Z.of_nat (length xs))).

(** The lambda [cPopAndDestroy] of [Pop_Multiple]. *)
Definition cPopAndDestroy (mc : list (option DataType) * Container)
    (aPopData : Z) (aNumToPop : Z) : list (option DataType) * Container :=
  let '(m, aPopped) := mc in
  let aPopped' :=
    Container_insert_end aPopped (move_range m aPopData (Z.to_nat aNumToPop)) in
  (destroy_n m aPopData (Z.to_nat aNumToPop), aPopped').

Definition Pop_Multiple (q : Queue) (aPopped : Container)
    : Queue * Container :=
  let cUnwrappedPushIndex := mPushIndex q in
  let cUnwrappedPopIndex := mPopIndex q in
  let cMaxSlotsAvailable0 := Int.sub cUnwrappedPushIndex cUnwrappedPopIndex in
  let cMaxSlotsAvailable :=
    Int.add cMaxSlotsAvailable0
      (if cMaxSlotsAvailable0 <? 0 then mIndexEnd q else 0) in
  let cOutputSpaceAvailable :=
    Int.of_size_t (capacity aPopped - Container_size aPopped) in
  let cNumToPop := Z.min cOutputSpaceAvailable cMaxSlotsAvailable in
  if cNumToPop =? 0 then (q, aPopped)
  else
    let cPopIndex := Int.rem cUnwrappedPopIndex (mCapacity q) in
    let cDistanceBeyondEnd :=
      Int.sub (Int.add cPopIndex cNumToPop) (mCapacity q) in
    let '(m', aPopped') :=
      if cDistanceBeyondEnd <=? 0 then
        cPopAndDestroy (mStorage_mem q, aPopped) cPopIndex cNumToPop
      else
        let cInitialLength := Int.sub cNumToPop cDistanceBeyondEnd in
        let mc1 :=
          cPopAndDestroy (mStorage_mem q, aPopped) cPopIndex cInitialLength in
        cPopAndDestroy mc1 0 cDistanceBeyondEnd in
    let q1 := set_mem m' q in
    let cNewPopIndex := Increase_Index q1 cUnwrappedPopIndex cNumToPop in
    let q2 := set_mPopIndex cNewPopIndex q1 in
    (Decrease_Size cNumToPop q2, aPopped').

(** *** Waiting

    [mSize.value.wait(old)] returns at once when the counter differs from
    [old]; when it equals [old] the thread sleeps until another thread has
    changed the counter and notified.  A call that reaches such a sleep ends
    here as [Waits]; what the call does once woken is its [_wake] function,
    applied to the state the other thread has left.  The [while (true)] loops
    are bounded by a fuel argument ([None]: the fuel ran out). *)

(** Functions with [requires(sPushAwait)] or [requires(sPopAwait)] take the
    evidence that the policy has them. *)
Fixpoint Emplace_Await (requires : sPushAwait = true) (fuel : nat)
    (q : Queue) (v : DataType) : option (Await Queue unit) :=
  match fuel with
  | O => None
  | S fuel' =>
      match Emplace q v with
      | (q', true) => Some (Finished q' tt)
      | (q', false) =>
          if mSize q' =? mCapacity q' then Some (Waits q')
          else Emplace_Await requires fuel' q' v
      end
  end.

Fixpoint Emplace_Multiple_Await (requires : sPushAwait = true) (fuel : nat)
    (q : Queue) (aSpan : list DataType)
    : option (Await (Queue * list DataType) unit) :=
  match fuel with
  | O => None
  | S fuel' =>
      let '(q', aSpan') := Emplace_Multiple q aSpan in
      match aSpan' with
      | [] => Some (Finished (q', aSpan') tt)
      | _ :: _ =>
          if mSize q' =? mCapacity q' then Some (Waits (q', aSpan'))
          else Emplace_Multiple_Await requires fuel' q' aSpan'
      end
  end.

Fixpoint Pop_Await (requires : sPopAwait = true) (fuel : nat)
    (q : Queue) (aPopped : DataType)
    : option (Await (Queue * DataType) bool) :=
  match fuel with
  | O => None
  | S fuel' =>
      match Pop q aPopped with
      | (q', aPopped', true) => Some (Finished (q', aPopped') true)
      | (q', aPopped', false) =>
          if mSize q' =? 0 then Some (Waits (q', aPopped'))
          else if mSize q' =? sSizeMask
          then Some (Finished (q', aPopped') false)
          else Pop_Await requires fuel' q' aPopped'
      end
  end.

(** [Pop_Await] from the return of its [wait] on. *)
Definition Pop_Await_wake (requires : sPopAwait = true) (fuel : nat)
    (q : Queue) (aPopped : DataType)
    : option (Await (Queue * DataType) bool) :=
  if mSize q =? sSizeMask then Some (Finished (q, aPopped) false)
  else Pop_Await requires fuel q aPopped.

Fixpoint Pop_Multiple_Await (requires : sPopAwait = true) (fuel : nat)
    (q : Queue) (aPopped : Container)
    : option (Await (Queue * Container) unit) :=
  match fuel with
  | O => None
  | S fuel' =>
      let '(q', aPopped') := Pop_Multiple q aPopped in
      match items aPopped' with
      | _ :: _ => Some (Finished (q', aPopped') tt)
      | [] =>
          if mSize q' =? 0 then Some (Waits (q', aPopped'))
          else if mSize q' =? sSizeMask
          then Some (Finished (q', aPopped') tt)
          else Pop_Multiple_Await requires fuel' q' aPopped'
      end
  end.

(** *** Wait control *)

Definition End_PopWaiting (requires : sPopAwait = true) (q : Queue) : Queue :=
  set_mSize (Z.lor (mSize q) sSizeMask) q.

(** [End_PopWaiting] notifies only if the counter was zero. *)
Definition End_PopWaiting_notifies (q : Queue) : bool :=
  let cPriorSize := mSize q in
  cPriorSize =? 0.

Definition Reset_PopWaiting (requires : sPopAwait = true) (q : Queue)
    : Queue :=
  set_mSize (Z.land (mSize q) (Z.lnot sSizeMask)) q.

End Queue.

(** ** Invariants and the abstract queue *)

Section Specification.

Context {DataType : Type}.
Implicit Types (q : @Queue DataType) (l : list DataType).

(** The number of live elements that the two indices stand for. *)
Definition live_count q : Z :=
  (mPushIndex q - mPopIndex q) mod mIndexEnd q.

(** The terminal flag is the high bit of the size counter. *)
Definition terminal_flag q : bool := Z.testbit (mSize q) 31.

(** What a successful [Allocate] establishes and the operations keep. *)
Record Allocated q : Prop := mkAllocated {
  al_storage : Is_Allocated q = true;
  al_capacity : 1 <= mCapacity q;
  al_wraps : 2 <= Z.quot Int.INT_MAX (mCapacity q);
  al_indexEnd : mIndexEnd q = mCapacity q * Z.quot Int.INT_MAX (mCapacity q);
  al_mem : length (mStorage_mem q) = Z.to_nat (mCapacity q);
  al_size : Int.in_int (mSize q)
}.

(** The invariants on the indices and the size counter. *)
Record IndexInv q : Prop := mkIndexInv {
  inv_push : 0 <= mPushIndex q < mIndexEnd q;
  inv_pop : 0 <= mPopIndex q < mIndexEnd q;
  inv_size : size q = live_count q;
  inv_count : 0 <= live_count q <= mCapacity q
}.

(** The storage of a ring of [cap] slots holding the elements [l] from the
    pop index on: slot [j] holds element number [(j - pop) mod cap] of [l] if
    there is one, and raw bytes otherwise. *)
Definition ring_image l (pop cap : Z) : list (option DataType) :=
  map (fun j : nat => l !! Z.to_nat ((Z.of_nat j - pop) mod cap))
      (seq 0 (Z.to_nat cap)).

(** [Rep q l]: the allocated queue [q] holds exactly the elements [l], oldest
    first. *)
Record Rep q l : Prop := mkRep {
  rep_alloc : Allocated q;
  rep_inv : IndexInv q;
  rep_len : Z.of_nat (length l) = live_count q;
  rep_mem : mStorage_mem q = ring_image l (mPopIndex q) (mCapacity q)
}.

(** The two-point check of [Emplace]. *)
Definition full_check q : bool :=
  let delta := mPushIndex q - mPopIndex q in
  (delta =? mCapacity q) || (delta =? mCapacity q - mIndexEnd q).

(** The state after a successful [Emplace]. *)
Definition Emplace_post q (v : DataType) : @Queue DataType :=
  mkQueue (Bump_Index q (mPushIndex q)) (mPopIndex q) (mSize q + 1)
    (mStorage q)
    (<[Z.to_nat (mPushIndex q mod mCapacity q) := Some v]> (mStorage_mem q))
    (mCapacity q) (mIndexEnd q).

(** The state after a successful [Pop]. *)
Definition Pop_post q : @Queue DataType :=
  mkQueue (mPushIndex q) (Bump_Index q (mPopIndex q)) (mSize q - 1)
    (mStorage q)
    (<[Z.to_nat (mPopIndex q mod mCapacity q) := None]> (mStorage_mem q))
    (mCapacity q) (mIndexEnd q).

(** The state after [Pop_Multiple] has taken [k] elements of the ring [l]. *)
Definition Pop_Multiple_post q l (k : Z) : @Queue DataType :=
  mkQueue (mPushIndex q) (Increase_Index q (mPopIndex q) k) (mSize q - k)
    (mStorage q)
    (ring_image (drop (Z.to_nat k) l) (mPopIndex q + k) (mCapacity q))
    (mCapacity q) (mIndexEnd q).

(** The state after [Emplace_Multiple] has added the elements [xs] to the
    ring [l]. *)
Definition Emplace_Multiple_post q l (xs : list DataType) : @Queue DataType :=
  mkQueue (Increase_Index q (mPushIndex q) (Z.of_nat (length xs)))
    (mPopIndex q) (mSize q + Z.of_nat (length xs))
    (mStorage q)
    (ring_image (l ++ xs) (mPopIndex q) (mCapacity q))
    (mCapacity q) (mIndexEnd q).

(** *** Sequences of single-element operations *)

Inductive Op := OpPush (v : DataType) | OpPop.

Inductive Obs := ObsPush (ok : bool) | ObsPop (r : option DataType).

(** The producer and the consumer calling [Emplace] and [Pop] one call at a
    time; [aPopped] is the consumer's variable. *)
Fixpoint run q (aPopped : DataType) (ops : list Op)
    : @Queue DataType * list Obs :=
  match ops with
  | [] => (q, [])
  | OpPush v :: ops' =>
      let '(q', ok) := Emplace q v in
      let '(q'', obs) := run q' aPopped ops' in
      (q'', ObsPush ok :: obs)
  | OpPop :: ops' =>
      let '(q', aPopped', ok) := Pop q aPopped in
      let '(q'', obs) := run q' aPopped' ops' in
      (q'', ObsPop (if ok then Some aPopped' else None) :: obs)
  end.

(** The bounded FIFO queue of the specification: a push fails iff [cap]
    elements are held, a pop fails iff none is, and a pop takes the oldest
    element. *)
Definition fifo_step (cap : Z) l (op : Op) : list DataType * Obs :=
  match op with
  | OpPush v =>
      if Z.of_nat (length l) <? cap then (l ++ [v], ObsPush true)
      else (l, ObsPush false)
  | OpPop =>
      match l with
      | [] => (l, ObsPop None)
      | x :: l' => (l', ObsPop (Some x))
      end
  end.

Fixpoint fifo_run (cap : Z) l (ops : list Op) : list DataType * list Obs :=
  match ops with
  | [] => (l, [])
  | op :: ops' =>
      let '(l', o) := fifo_step cap l op in
      let '(l'', obs) := fifo_run cap l' ops' in
      (l'', o :: obs)
  end.

(** One push/pop cycle per value: the producer pushes it, then the consumer
    pops. *)
Definition cycles (vs : list DataType) : list Op :=
  flat_map (fun v => [OpPush v; OpPop]) vs.

Definition cycles_obs (vs : list DataType) : list Obs :=
  flat_map (fun v => [ObsPush true; ObsPop (Some v)]) vs.

(** *** Consecutive [Pop_Await] calls

    Each call has fuel for two turns of its loop.  The run stops at the first
    call that does not return [true]. *)
Fixpoint Pop_Await_calls (Waiting : WaitPolicy)
    (requires : sPopAwait Waiting = true) (n : nat) q (aPopped : DataType)
    : list DataType * option (Await (@Queue DataType * DataType) bool) :=
  match n with
  | O => ([], None)
  | S n' =>
      match Pop_Await Waiting requires 2 q aPopped with
      | Some (Finished (q', x) true) =>
          let '(xs, last) := Pop_Await_calls Waiting requires n' q' x in
          (x :: xs, last)
      | other => ([], other)
      end
  end.

(** *** Reachable states: what the public member functions produce from a
    newly constructed queue *)
Inductive Reachable (Waiting : WaitPolicy) : @Queue DataType -> Prop :=
  | Reach_default : Reachable Waiting Queue_default
  | Reach_Allocate q (sz al : Z) A (HA : Allocator A) (a a' : A) cap q' :
      Reachable Waiting q ->
      Allocate sz al q a cap = Ok (q', a') ->
      Reachable Waiting q'
  | Reach_Free q A (HA : Allocator A) (a a' : A) q' :
      Reachable Waiting q ->
      Free q a = Ok (q', a') ->
      Reachable Waiting q'
  | Reach_Emplace q v :
      Reachable Waiting q -> Is_Allocated q = true ->
      Reachable Waiting (Emplace q v).1
  | Reach_Pop q x :
      Reachable Waiting q -> Is_Allocated q = true ->
      Reachable Waiting (Pop q x).1.1
  | Reach_Emplace_Multiple q aSpan :
      Reachable Waiting q -> Is_Allocated q = true ->
      Reachable Waiting (Emplace_Multiple q aSpan).1
  | Reach_Pop_Multiple q c :
      Reachable Waiting q -> Is_Allocated q = true ->
      Reachable Waiting (Pop_Multiple q c).1
  | Reach_End_PopWaiting q (requires : sPopAwait Waiting = true) :
      Reachable Waiting q -> Is_Allocated q = true ->
      Reachable Waiting (End_PopWaiting Waiting requires q)
  | Reach_Reset_PopWaiting q (requires : sPopAwait Waiting = true) :
      Reachable Waiting q -> Is_Allocated q = true ->
      Reachable Waiting (Reset_PopWaiting Waiting requires q).

End Specification.

(** ** Concrete states used in the examples

    A queue of [int] with capacity 3, so that [mIndexEnd] is
    [3 * (INT_MAX / 3) = 2147483646]. *)
Module Examples.

(** What [Allocate] with capacity 3 makes of a new queue. *)
Definition fresh3 : @Queue Z :=
  mkQueue 0 0 0 (Some 1%positive) [None; None; None] 3 2147483646.

(** The queue after [n] cycles of one [Emplace] and one [Pop]. *)
Definition cycled3 (n : Z) : @Queue Z :=
  mkQueue n n 0 (Some 1%positive) [None; None; None] 3 2147483646.

(** After 2147483645 such cycles both indices are one below [mIndexEnd]. *)
Definition near_wrap_empty : @Queue Z := cycled3 2147483645.

(** One more [Emplace] wraps the push index to zero. *)
Definition near_wrap_one : @Queue Z :=
  mkQueue 0 2147483645 1 (Some 1%positive) [None; None; Some 9] 3 2147483646.

(** Three calls of [Emplace] instead, with 1, 2 and 3: the ring is full. *)
Definition near_wrap_full : @Queue Z :=
  mkQueue 2 2147483645 3 (Some 1%positive) [Some 2; Some 3; Some 1]
    3 2147483646.

(** A queue holding the single element 5. *)
Definition one_live : @Queue Z :=
  mkQueue 1 0 1 (Some 1%positive) [Some 5; None; None] 3 2147483646.

(** An empty vector for which [reserve(4294967296)] has been called. *)
Definition huge_container : @Container Z := mkContainer [] 4294967296.

(** A [SimpleAllocator] whose first [aligned_alloc] fails, and one with two
    buffers to give. *)
Definition failing_allocator : SimpleAllocator.t :=
  SimpleAllocator.mk [None] [].

Definition two_buffers : SimpleAllocator.t :=
  SimpleAllocator.mk [Some 1%positive; Some 2%positive] [].


End Examples.

(** ** Notifications of the operations

    [Emplace] calls [Increase_Size] only on the path that pushes, and [Pop]
    calls [Decrease_Size] only on the path that pops; the index store before
    the call does not touch the counter, so the prior value that
    [fetch_add] and [fetch_sub] return is the counter of the state the
    operation started in. *)

Section Notifications.

Context {DataType : Type}.
Variable Waiting : WaitPolicy.

Definition Emplace_notifies (q : @Queue DataType) (v : DataType) : bool :=
  (Emplace q v).2 && Increase_Size_notifies Waiting q.

Definition Pop_notifies (q : @Queue DataType) (aPopped : DataType) : bool :=
  (Pop q aPopped).2 && Decrease_Size_notifies Waiting q.

End Notifications.

(** ** Sequences of single-element and batch operations *)

Section BatchRuns.

Context {DataType : Type}.
Implicit Types (q : @Queue DataType) (l : list DataType).

Inductive BatchOp :=
  | BPush (v : DataType)
  | BPop
  | BPushMany (aSpan : list DataType)
  | BPopMany (aPopped : @Container DataType).

Inductive BatchObs :=
  | BObsPush (ok : bool)
  | BObsPop (r : option DataType)
  | BObsPushMany (rest : list DataType)
  | BObsPopMany (aPopped : @Container DataType).

(** The calls of the code, one at a time. *)
Definition batch_step q (aPopped : DataType) (op : BatchOp)
    : @Queue DataType * DataType * BatchObs :=
  match op with
  | BPush v => let '(q', ok) := Emplace q v in (q', aPopped, BObsPush ok)
  | BPop =>
      let '(q', aPopped', ok) := Pop q aPopped in
      (q', aPopped', BObsPop (if ok then Some aPopped' else None))
  | BPushMany aSpan =>
      let '(q', rest) := Emplace_Multiple q aSpan in
      (q', aPopped, BObsPushMany rest)
  | BPopMany c =>
      let '(q', c') := Pop_Multiple q c in (q', aPopped, BObsPopMany c')
  end.

Fixpoint run_batch q (aPopped : DataType) (ops : list BatchOp)
    : @Queue DataType * list BatchObs :=
  match ops with
  | [] => (q, [])
  | op :: ops' =>
      let '(q', aPopped', o) := batch_step q aPopped op in
      let '(q'', obs) := run_batch q' aPopped' ops' in
      (q'', o :: obs)
  end.

(** The same calls on a FIFO list bounded by [cap]: a batch push takes as
    many elements of the span as there are free places and gives back the
    rest; a batch pop moves as many of the oldest elements as the container
    has spare capacity. *)
Definition fifo_batch_step (cap : Z) l (op : BatchOp)
    : list DataType * BatchObs :=
  match op with
  | BPush v =>
      if Z.of_nat (length l) <? cap then (l ++ [v], BObsPush true)
      else (l, BObsPush false)
  | BPop =>
      match l with
      | [] => (l, BObsPop None)
      | x :: l' => (l', BObsPop (Some x))
      end
  | BPushMany aSpan =>
      let k := Z.to_nat (Z.min (Z.of_nat (length aSpan))
                           (cap - Z.of_nat (length l))) in
      (l ++ take k aSpan, BObsPushMany (drop k aSpan))
  | BPopMany c =>
      let k := Z.to_nat (Z.min (capacity c - Container_size c)
                           (Z.of_nat (length l))) in
      (drop k l, BObsPopMany (mkContainer (items c ++ take k l) (capacity c)))
  end.

Fixpoint fifo_batch_run (cap : Z) l (ops : list BatchOp)
    : list DataType * list BatchObs :=
  match ops with
  | [] => (l, [])
  | op :: ops' =>
      let '(l', o) := fifo_batch_step cap l op in
      let '(l'', obs) := fifo_batch_run cap l' ops' in
      (l'', o :: obs)
  end.

(** An upper bound of the number of elements that the operations push. *)
Definition pushes_of (op : BatchOp) : Z :=
  match op with
  | BPush _ => 1
  | BPushMany aSpan => Z.of_nat (length aSpan)
  | _ => 0
  end.

Fixpoint total_pushes (ops : list BatchOp) : Z :=
  match ops with
  | [] => 0
  | op :: ops' => pushes_of op + total_pushes ops'
  end.

(** The containers handed to [Pop_Multiple] have a spare capacity that an
    [int] holds. *)
Definition container_fits (op : BatchOp) : Prop :=
  match op with
  | BPopMany c => 0 <= capacity c - Container_size c <= Int.INT_MAX
  | _ => True
  end.

(** The values that the pushes of a single-element run accepted, and the
    values that its pops returned, in the order of the calls. *)
Fixpoint pushed_values (ops : list (@Op DataType)) (obs : list (@Obs DataType))
    : list DataType :=
  match ops, obs with
  | OpPush v :: ops', ObsPush true :: obs' => v :: pushed_values ops' obs'
  | _ :: ops', _ :: obs' => pushed_values ops' obs'
  | _, _ => []
  end.

Definition popped_values (obs : list (@Obs DataType)) : list DataType :=
  omap (fun o => match o with ObsPop r => r | _ => None end) obs.

End BatchRuns.


(** ** The moves of [Emplace_Multiple]

    [Emplace_Multiple] calls [std::uninitialized_move_n(first, count, d_first)]
    once, or twice when the elements go around the end of the buffer.  A call
    is recorded with the offset of [first] in the span, its count, and the
    slot of [d_first].  With a count that is not positive the call does
    nothing; otherwise it reads [count] elements from [first] on and
    constructs them in [count] slots from [d_first] on, and it is undefined
    behaviour when these leave the span or the buffer.  [Emplace_Multiple]
    above is these calls run one after the other
    ([Emplace_Multiple_by_moves]); its result is the program's when
    [Emplace_Multiple_defined] holds. *)

Section Moves.

Context {DataType : Type}.
Implicit Types (q : @Queue DataType).

Record MoveCall := mkMoveCall {
  move_first : Z;
  move_count : Z;
  move_d_first : Z
}.

(** [cNumToPush], as [Emplace_Multiple] computes it. *)
Definition Emplace_Multiple_cNumToPush q (aSpan : list DataType) : Z :=
  let cUnwrappedPushIndex := mPushIndex q in
  let cUnwrappedPopIndex := mPopIndex q in
  let cMaxPushIndex := Int.add cUnwrappedPopIndex (mCapacity q) in
  let cMaxSlotsAvailable0 := Int.sub cMaxPushIndex cUnwrappedPushIndex in
  let cMaxSlotsAvailable :=
    Int.sub cMaxSlotsAvailable0
      (if cMaxSlotsAvailable0 >=? mIndexEnd q then mIndexEnd q else 0) in
  let cSpanSize := Int.of_size_t (Z.of_nat (length aSpan)) in
  Z.min cSpanSize cMaxSlotsAvailable.

(** The calls of [std::uninitialized_move_n], in the order of the source. *)
Definition Emplace_Multiple_moves q (aSpan : list DataType) : list MoveCall :=
  let cNumToPush := Emplace_Multiple_cNumToPush q aSpan in
  if cNumToPush =? 0 then []
  else
    let cPushIndex := Int.rem (mPushIndex q) (mCapacity q) in
    let cDistanceBeyondEnd :=
      Int.sub (Int.add cPushIndex cNumToPush) (mCapacity q) in
    if cDistanceBeyondEnd <=? 0 then [mkMoveCall 0 cNumToPush cPushIndex]
    else
      let cInitialLength := Int.sub cNumToPush cDistanceBeyondEnd in
      [mkMoveCall 0 cInitialLength cPushIndex;
       mkMoveCall cInitialLength cDistanceBeyondEnd 0].

(** The effect of a call on the storage, with [uninitialized_move_n]. *)
Definition move_run (aSpan : list DataType) (m : list (option DataType))
    (c : MoveCall) : list (option DataType) :=
  uninitialized_move_n (drop (Z.to_nat (move_first c)) aSpan)
    (Z.to_nat (move_count c)) m (move_d_first c).

(** A call on a span of [span_size] elements and a buffer of [slots] slots
    is defined. *)
Definition move_defined (span_size slots : Z) (c : MoveCall) : bool :=
  (move_count c <=? 0)
  || ((0 <=? move_first c) && (move_first c + move_count c <=? span_size)
      && (0 <=? move_d_first c) && (move_d_first c + move_count c <=? slots)).

Definition Emplace_Multiple_defined q (aSpan : list DataType) : bool :=
  forallb
    (move_defined (Z.of_nat (length aSpan))
       (Z.of_nat (length (mStorage_mem q))))
    (Emplace_Multiple_moves q aSpan).

End Moves.

(** ** A queue allocated again after its indices have grown *)

Module Reallocation.

Import Examples.

(** The queue of capacity 3 after 2147483645 cycles of one [Emplace] and
    one [Pop], freed; with an allocator that has one more buffer to give. *)
Definition freed_near_wrap : @Queue Z * SimpleAllocator.t :=
  match Free near_wrap_empty (SimpleAllocator.mk [Some 2%positive] []) with
  | Ok s => s
  | _ => (Queue_default, SimpleAllocator.mk [] [])
  end.

End Reallocation.
(** * Proofs *)

(** ** Facts on 32-bit integers *)

Module IntFacts.
Import Int.

Lemma wrap32_id z : in_int z -> wrap32 z = z.
Proof.
  unfold in_int, INT_MIN, INT_MAX, wrap32. intros H.
  rewrite Z.mod_small by lia. lia.
Qed.

Lemma wrap32_range z : in_int (wrap32 z).
Proof.
  unfold in_int, INT_MIN, INT_MAX, wrap32.
  pose proof (Z.mod_pos_bound (z + 2147483648) 4294967296). lia.
Qed.

Lemma add_id a b : in_int (a + b) -> add a b = a + b.
Proof. apply wrap32_id. Qed.

Lemma sub_id a b : in_int (a - b) -> sub a b = a - b.
Proof. apply wrap32_id. Qed.

Lemma mul_id a b : in_int (a * b) -> mul a b = a * b.
Proof. apply wrap32_id. Qed.

Lemma div_id a b : in_int (Z.quot a b) -> div a b = Z.quot a b.
Proof. apply wrap32_id. Qed.

Lemma rem_nonneg a b : 0 <= a -> 0 < b -> rem a b = a mod b.
Proof. intros. unfold rem. apply Z.rem_mod_nonneg; lia. Qed.

(** The mask is [INT_MIN] and its complement is [INT_MAX], thirty-one ones. *)
Lemma sSizeMask_eq : sSizeMask = INT_MIN.
Proof. reflexivity. Qed.

Lemma lnot_sSizeMask : Z.lnot sSizeMask = Z.ones 31.
Proof. reflexivity. Qed.

(** Masking the high bit of an [int]. *)
Lemma land_low31 z : Z.land z (Z.lnot sSizeMask) = z mod 2147483648.
Proof. rewrite lnot_sSizeMask, Z.land_ones by lia. reflexivity. Qed.

Lemma testbit31 z : in_int z -> Z.testbit z 31 = (z <? 0).
Proof.
  unfold in_int, INT_MIN, INT_MAX. intros H.
  destruct (Z.ltb_spec z 0) as [Hn | Hp].
  - rewrite Z.testbit_eqb by lia.
    assert (z / 2 ^ 31 = -1) as ->; [|reflexivity].
    symmetry. apply Z.div_unique with (z + 2147483648); lia.
  - rewrite Z.testbit_eqb by lia. rewrite Z.div_small by lia. reflexivity.
Qed.

End IntFacts.

(** ** The queue and its representation *)

Import IntFacts.

Ltac int_range := unfold Int.in_int, Int.INT_MIN, Int.INT_MAX in *; lia.

Ltac zbool :=
  repeat match goal with
  | |- context [Z.ltb ?a ?b] => destruct (Z.ltb_spec a b)
  | |- context [Z.leb ?a ?b] => destruct (Z.leb_spec a b)
  end; cbn [andb orb].

Section QueueFacts.
Context {DataType : Type}.
Implicit Types (q : @Queue DataType) (l : list DataType).

Lemma mod_pm x E n :
  0 <= n < E -> x = n \/ x = n - E \/ x = n + E -> x mod E = n.
Proof.
  intros Hn [-> | [-> | ->]].
  - apply Z.mod_small; lia.
  - replace (n - E) with (n + (-1) * E) by lia.
    rewrite Z_mod_plus_full. apply Z.mod_small; lia.
  - replace (n + E) with (n + 1 * E) by lia.
    rewrite Z_mod_plus_full. apply Z.mod_small; lia.
Qed.

Lemma mod_cases x E :
  0 < E -> - E < x < E -> x mod E = if x <? 0 then x + E else x.
Proof.
  intros HE Hx. destruct (Z.ltb_spec x 0); apply mod_pm; lia.
Qed.

Lemma Allocated_bounds q :
  Allocated q ->
  1 <= mCapacity q <= 1073741823 /\
  2 * mCapacity q <= mIndexEnd q <= Int.INT_MAX /\
  Int.INT_MAX - mIndexEnd q < mCapacity q.
Proof.
  intros [_ HC HK HE _ _]. unfold Int.INT_MAX in *.
  rewrite Z.quot_div_nonneg in * by lia.
  pose proof (Z.mul_div_le 2147483647 (mCapacity q) ltac:(lia)) as Hle.
  pose proof (Z.mul_succ_div_gt 2147483647 (mCapacity q) ltac:(lia)) as Hgt.
  rewrite HE. nia.
Qed.

Lemma indexEnd_mod q : Allocated q -> mIndexEnd q mod mCapacity q = 0.
Proof.
  intros H. rewrite (al_indexEnd _ H). rewrite Z.mul_comm.
  apply Z_mod_mult.
Qed.


(** The arithmetic content of [Rep]. *)
Lemma Rep_arith q l :
  Rep q l ->
  let n := Z.of_nat (length l) in
  0 <= n <= mCapacity q /\
  0 <= mPushIndex q < mIndexEnd q /\
  0 <= mPopIndex q < mIndexEnd q /\
  (mPushIndex q - mPopIndex q = n \/
   mPushIndex q - mPopIndex q = n - mIndexEnd q) /\
  (mSize q = n \/ mSize q = n - 2147483648).
Proof.
  intros [HA [HP HQ HS HN] HL HM] n.
  pose proof (Allocated_bounds q HA) as (HC & HE & _).
  unfold Int.INT_MAX in *. fold n in HL.
  rewrite <- HL in HN, HS.
  unfold live_count in HL.
  rewrite mod_cases in HL by lia.
  repeat split; try lia.
  - destruct (Z.ltb_spec (mPushIndex q - mPopIndex q) 0); lia.
  - unfold size in HS. rewrite land_low31 in HS.
    pose proof (al_size _ HA) as Hs. unfold Int.in_int, Int.INT_MIN, Int.INT_MAX in Hs.
    destruct (Z.ltb_spec (mSize q) 0).
    + right. rewrite <- HS.
      assert (mSize q mod 2147483648 = mSize q + 2147483648) as ->; [|lia].
      apply mod_pm; lia.
    + left. rewrite <- HS. symmetry. apply Z.mod_small; lia.
Qed.

Lemma ring_image_length l Q C : length (ring_image l Q C) = Z.to_nat C.
Proof. unfold ring_image. rewrite length_map, length_seq. reflexivity. Qed.

Lemma ring_image_lookup l Q C (j : nat) :
  Z.of_nat j < C ->
  ring_image l Q C !! j = Some (l !! Z.to_nat ((Z.of_nat j - Q) mod C)).
Proof.
  intros Hj. unfold ring_image. rewrite list_lookup_fmap.
  rewrite lookup_seq_lt by lia. reflexivity.
Qed.

Lemma ring_image_lookup_ge l Q C (j : nat) :
  C <= Z.of_nat j -> ring_image l Q C !! j = None.
Proof.
  intros Hj. apply lookup_ge_None. rewrite ring_image_length. lia.
Qed.


Lemma slot_write_nonneg (m : list (option DataType)) i x :
  0 <= i -> slot_write m i x = <[Z.to_nat i := x]> m.
Proof. intros. unfold slot_write. destruct (Z.ltb_spec i 0); [lia | done]. Qed.

Lemma slot_read_nonneg (m : list (option DataType)) i :
  0 <= i -> slot_read m i =
            match m !! Z.to_nat i with Some (Some x) => Some x | _ => None end.
Proof. intros. unfold slot_read. destruct (Z.ltb_spec i 0); [lia | done]. Qed.

Lemma Bump_Index_eq q i :
  0 <= i < mIndexEnd q -> mIndexEnd q <= Int.INT_MAX ->
  Bump_Index q i = if i + 1 <? mIndexEnd q then i + 1 else 0.
Proof.
  intros Hi HE. unfold Bump_Index. rewrite add_id; [done|].
  unfold Int.in_int, Int.INT_MIN, Int.INT_MAX in *. lia.
Qed.

Lemma Emplace_not_full q l v :
  Rep q l -> Z.of_nat (length l) < mCapacity q ->
  Emplace q v = (Emplace_post q v, true).
Proof.
  intros HR Hn.
  pose proof (Rep_arith q l HR) as (Hn0 & HP & HQ & Hd & Hs).
  pose proof (Allocated_bounds q (rep_alloc _ _ HR)) as (HC & HE & _).
  unfold Int.INT_MAX in *.
  unfold Emplace.
  rewrite !sub_id by (unfold Int.in_int, Int.INT_MIN, Int.INT_MAX; lia).
  destruct (Z.eqb_spec (mPushIndex q - mPopIndex q) (mCapacity q)); [lia|].
  destruct (Z.eqb_spec (mPushIndex q - mPopIndex q)
              (mCapacity q - mIndexEnd q)); [lia|].
  cbn [orb]. f_equal.
  rewrite rem_nonneg by lia.
  rewrite slot_write_nonneg by (apply Z.mod_pos_bound; lia).
  unfold Increase_Size, Emplace_post; cbn.
  rewrite add_id by (unfold Int.in_int, Int.INT_MIN, Int.INT_MAX; lia).
  reflexivity.
Qed.


Lemma Emplace_post_Rep q l v :
  Rep q l -> Z.of_nat (length l) < mCapacity q ->
  Rep (Emplace_post q v) (l ++ [v]).
Proof.
  intros HR Hn.
  pose proof (Rep_arith q l HR) as (Hn0 & HP & HQ & Hd & Hs).
  pose proof (Allocated_bounds q (rep_alloc _ _ HR)) as (HC & HE & _).
  pose proof (indexEnd_mod q (rep_alloc _ _ HR)) as HEC.
  destruct HR as [HA HI HL HM].
  unfold Int.INT_MAX in *.
  assert (HB : Bump_Index q (mPushIndex q) =
               if mPushIndex q + 1 <? mIndexEnd q then mPushIndex q + 1 else 0).
  { apply Bump_Index_eq; unfold Int.INT_MAX; lia. }
  assert (Hlive : live_count (Emplace_post q v) = Z.of_nat (length l) + 1).
  { unfold live_count, Emplace_post; cbn. rewrite HB.
    apply mod_pm; [lia|].
    destruct (Z.ltb_spec (mPushIndex q + 1) (mIndexEnd q)); lia. }
  split.
  - destruct HA. split; cbn; try done.
    + rewrite length_insert. done.
    + unfold Int.in_int, Int.INT_MIN, Int.INT_MAX in *. lia.
  - split; cbn.
    + rewrite HB. destruct (Z.ltb_spec (mPushIndex q + 1) (mIndexEnd q)); lia.
    + lia.
    + rewrite Hlive. unfold size; cbn. rewrite land_low31.
      apply mod_pm; lia.
    + rewrite Hlive. lia.
  - rewrite Hlive, length_app. cbn. lia.
  - cbn. rewrite HM. apply list_eq. intros j.
    destruct (Z.ltb_spec (Z.of_nat j) (mCapacity q)) as [Hj | Hj].
    2:{ rewrite ring_image_lookup_ge by done.
        apply lookup_ge_None. rewrite length_insert, ring_image_length. lia. }
    rewrite ring_image_lookup by done.
    pose proof (Z.mod_pos_bound (mPushIndex q) (mCapacity q) ltac:(lia)) as Hb.
    pose proof (Z.mod_pos_bound (Z.of_nat j - mPopIndex q) (mCapacity q)
                  ltac:(lia)) as Hk.
    assert (Hslot : mPushIndex q mod mCapacity q
                    = (mPopIndex q + Z.of_nat (length l)) mod mCapacity q).
    { destruct Hd as [Hd | Hd].
      - f_equal. lia.
      - replace (mPushIndex q)
          with (mPopIndex q + Z.of_nat (length l) - mIndexEnd q) by lia.
        rewrite Zminus_mod, HEC, Z.sub_0_r, Z.mod_mod by lia. done. }
    destruct (decide (j = Z.to_nat (mPushIndex q mod mCapacity q))) as [-> | Hne].
    + rewrite list_lookup_insert_eq by (rewrite ring_image_length; lia).
      f_equal. rewrite Z2Nat.id by lia. rewrite Hslot.
      rewrite Zminus_mod_idemp_l.
      replace (mPopIndex q + Z.of_nat (length l) - mPopIndex q)
        with (Z.of_nat (length l)) by lia.
      rewrite Z.mod_small by lia. rewrite Nat2Z.id.
      symmetry. apply list_lookup_middle. done.
    + rewrite list_lookup_insert_ne by done.
      rewrite ring_image_lookup by done. f_equal.
      assert (Hkn : (Z.of_nat j - mPopIndex q) mod mCapacity q
                    <> Z.of_nat (length l)).
      { intros Heq. apply Hne.
        rewrite Hslot. rewrite <- Heq. rewrite Zplus_mod_idemp_r.
        replace (mPopIndex q + (Z.of_nat j - mPopIndex q)) with (Z.of_nat j) by lia.
        rewrite Z.mod_small by lia. lia. }
      destruct (Z.ltb_spec ((Z.of_nat j - mPopIndex q) mod mCapacity q)
                  (Z.of_nat (length l))).
      * rewrite lookup_app_l by lia. done.
      * rewrite !lookup_ge_None_2; [done | |]; rewrite ?length_app; cbn; lia.
Qed.


Lemma Emplace_full q l v :
  Rep q l -> Z.of_nat (length l) = mCapacity q -> Emplace q v = (q, false).
Proof.
  intros HR Hn.
  pose proof (Rep_arith q l HR) as (Hn0 & HP & HQ & Hd & Hs).
  pose proof (Allocated_bounds q (rep_alloc _ _ HR)) as (HC & HE & _).
  unfold Int.INT_MAX in *.
  unfold Emplace.
  rewrite !sub_id by (unfold Int.in_int, Int.INT_MIN, Int.INT_MAX; lia).
  destruct Hd as [Hd | Hd].
  - rewrite (proj2 (Z.eqb_eq _ _)) by lia. done.
  - rewrite (proj2 (Z.eqb_eq _ (mCapacity q - mIndexEnd q))) by lia.
    rewrite orb_true_r. done.
Qed.

Lemma Pop_empty q (a : DataType) : Rep q [] -> Pop q a = (q, a, false).
Proof.
  intros HR.
  pose proof (Rep_arith q [] HR) as (Hn0 & HP & HQ & Hd & Hs).
  pose proof (Allocated_bounds q (rep_alloc _ _ HR)) as (HC & HE & _).
  cbn in Hd. unfold Pop.
  rewrite (proj2 (Z.eqb_eq _ _)) by lia. done.
Qed.

Lemma Pop_nonempty q x l (a : DataType) :
  Rep q (x :: l) -> Pop q a = (Pop_post q, x, true).
Proof.
  intros HR.
  pose proof (Rep_arith q _ HR) as (Hn0 & HP & HQ & Hd & Hs).
  pose proof (Allocated_bounds q (rep_alloc _ _ HR)) as (HC & HE & _).
  unfold Int.INT_MAX in *. cbn [length] in *.
  unfold Pop.
  destruct (Z.eqb_spec (mPopIndex q) (mPushIndex q)); [lia|].
  rewrite rem_nonneg by lia.
  pose proof (Z.mod_pos_bound (mPopIndex q) (mCapacity q) ltac:(lia)) as Hb.
  rewrite slot_write_nonneg, slot_read_nonneg by lia.
  rewrite (rep_mem _ _ HR), ring_image_lookup by lia.
  rewrite Z2Nat.id by lia. rewrite Zminus_mod_idemp_l, Z.sub_diag.
  rewrite Z.mod_0_l by lia. cbn [lookup list_lookup Z.to_nat].
  unfold Decrease_Size, Pop_post; cbn.
  rewrite sub_id by (unfold Int.in_int, Int.INT_MIN, Int.INT_MAX; lia).
  rewrite <- (rep_mem _ _ HR). reflexivity.
Qed.

Lemma Pop_post_Rep q x l : Rep q (x :: l) -> Rep (Pop_post q) l.
Proof.
  intros HR.
  pose proof (Rep_arith q _ HR) as (Hn0 & HP & HQ & Hd & Hs).
  pose proof (Allocated_bounds q (rep_alloc _ _ HR)) as (HC & HE & _).
  pose proof (indexEnd_mod q (rep_alloc _ _ HR)) as HEC.
  destruct HR as [HA HI HL HM].
  unfold Int.INT_MAX in *. cbn [length] in *.
  assert (HB : Bump_Index q (mPopIndex q) =
               if mPopIndex q + 1 <? mIndexEnd q then mPopIndex q + 1 else 0).
  { apply Bump_Index_eq; unfold Int.INT_MAX; lia. }
  assert (Hlive : live_count (Pop_post q) = Z.of_nat (length l)).
  { unfold live_count, Pop_post; cbn. rewrite HB.
    apply mod_pm; [lia|].
    destruct (Z.ltb_spec (mPopIndex q + 1) (mIndexEnd q)); lia. }
  assert (Hslot : Bump_Index q (mPopIndex q) mod mCapacity q
                  = (mPopIndex q + 1) mod mCapacity q).
  { rewrite HB. destruct (Z.ltb_spec (mPopIndex q + 1) (mIndexEnd q)); [done|].
    replace (mPopIndex q + 1) with (mIndexEnd q) by lia. rewrite HEC. done. }
  split.
  - destruct HA. split; cbn; try done.
    + rewrite length_insert. done.
    + unfold Int.in_int, Int.INT_MIN, Int.INT_MAX in *. lia.
  - split; cbn.
    + lia.
    + rewrite HB. destruct (Z.ltb_spec (mPopIndex q + 1) (mIndexEnd q)); lia.
    + rewrite Hlive. unfold size; cbn. rewrite land_low31.
      apply mod_pm; lia.
    + rewrite Hlive. lia.
  - rewrite Hlive. done.
  - cbn. rewrite HM. apply list_eq. intros j.
    destruct (Z.ltb_spec (Z.of_nat j) (mCapacity q)) as [Hj | Hj].
    2:{ rewrite ring_image_lookup_ge by done.
        apply lookup_ge_None. rewrite length_insert, ring_image_length. lia. }
    rewrite ring_image_lookup by done.
    pose proof (Z.mod_pos_bound (mPopIndex q) (mCapacity q) ltac:(lia)) as Hb.
    pose proof (Z.mod_pos_bound (Z.of_nat j - mPopIndex q) (mCapacity q)
                  ltac:(lia)) as Hk.
    (* the index of slot [j] seen from the new pop index *)
    assert (Hshift : (Z.of_nat j - Bump_Index q (mPopIndex q)) mod mCapacity q
                     = ((Z.of_nat j - mPopIndex q) mod mCapacity q - 1)
                         mod mCapacity q).
    { rewrite Zminus_mod_idemp_l. rewrite Zminus_mod, Hslot, <- Zminus_mod.
      f_equal. lia. }
    rewrite Hshift.
    destruct (decide (j = Z.to_nat (mPopIndex q mod mCapacity q))) as [-> | Hne].
    + rewrite list_lookup_insert_eq by (rewrite ring_image_length; lia).
      f_equal. rewrite Z2Nat.id by lia.
      assert ((mPopIndex q mod mCapacity q - mPopIndex q) mod mCapacity q = 0)
        as -> by (rewrite Zminus_mod_idemp_l, Z.sub_diag, Z.mod_0_l; lia).
      symmetry. apply lookup_ge_None.
      assert ((0 - 1) mod mCapacity q = mCapacity q - 1) as ->
        by (apply mod_pm; lia).
      lia.
    + rewrite list_lookup_insert_ne by done.
      rewrite ring_image_lookup by done. f_equal.
      assert (Hk0 : (Z.of_nat j - mPopIndex q) mod mCapacity q <> 0).
      { intros Heq. apply Hne.
        assert (Z.of_nat j = mPopIndex q mod mCapacity q); [|lia].
        rewrite <- (Z.mod_small (Z.of_nat j) (mCapacity q)) by lia.
        replace (Z.of_nat j) with (mPopIndex q + (Z.of_nat j - mPopIndex q))
          at 1 by lia.
        rewrite <- Zplus_mod_idemp_r, Heq, Z.add_0_r. done. }
      rewrite (Z.mod_small (_ - 1)) by lia.
      replace (Z.to_nat ((Z.of_nat j - mPopIndex q) mod mCapacity q))
        with (S (Z.to_nat ((Z.of_nat j - mPopIndex q) mod mCapacity q - 1)))
        by lia.
      done.
Qed.

End QueueFacts.

(** ** Runs of slots *)

Section MemoryFacts.
Context {DataType : Type}.
Implicit Types (q : @Queue DataType) (l : list DataType)
  (m : list (option DataType)).

Lemma slot_write_length m i x : length (slot_write m i x) = length m.
Proof.
  unfold slot_write. destruct (i <? 0); [done|]. apply length_insert.
Qed.

Lemma destroy_n_length n : forall m first,
  length (destroy_n m first n) = length m.
Proof.
  induction n as [|n IH]; intros m first; cbn; [done|].
  rewrite IH. apply slot_write_length.
Qed.

Lemma destroy_n_lookup_out n : forall m first (j : nat),
  0 <= first -> ~ (first <= Z.of_nat j < first + Z.of_nat n) ->
  destroy_n m first n !! j = m !! j.
Proof.
  induction n as [|n IH]; intros m first j H0 Hj; cbn [destroy_n]; [done|].
  rewrite IH by lia. rewrite slot_write_nonneg by done.
  apply list_lookup_insert_ne. lia.
Qed.

Lemma destroy_n_lookup_in n : forall m first (j : nat),
  0 <= first -> first <= Z.of_nat j < first + Z.of_nat n ->
  (j < length m)%nat ->
  destroy_n m first n !! j = Some None.
Proof.
  induction n as [|n IH]; intros m first j H0 Hj Hlen; cbn [destroy_n]; [lia|].
  destruct (decide (Z.of_nat j = first)) as [Heq | Hne].
  - rewrite destroy_n_lookup_out by lia.
    rewrite slot_write_nonneg by done.
    replace (Z.to_nat first) with j by lia.
    by apply list_lookup_insert_eq.
  - apply IH; [lia | lia |]. by rewrite slot_write_length.
Qed.

Lemma uninitialized_move_n_length n : forall (src : list DataType) m dst,
  length (uninitialized_move_n src n m dst) = length m.
Proof.
  induction n as [|n IH]; intros src m dst; cbn; [done|].
  destruct src as [|x src]; [done|]. rewrite IH. apply slot_write_length.
Qed.

Lemma uninitialized_move_n_lookup_out n : forall (src : list DataType) m dst (j : nat),
  0 <= dst ->
  ~ (dst <= Z.of_nat j < dst + Z.of_nat (n `min` length src)) ->
  uninitialized_move_n src n m dst !! j = m !! j.
Proof.
  induction n as [|n IH]; intros src m dst j H0 Hj; cbn; [done|].
  destruct src as [|x src]; [done|]. cbn [length] in Hj.
  rewrite IH by lia. rewrite slot_write_nonneg by done.
  apply list_lookup_insert_ne. lia.
Qed.

Lemma uninitialized_move_n_lookup_in n : forall (src : list DataType) m dst (j : nat),
  0 <= dst ->
  dst <= Z.of_nat j < dst + Z.of_nat (n `min` length src) ->
  (j < length m)%nat ->
  uninitialized_move_n src n m dst !! j
  = Some (src !! Z.to_nat (Z.of_nat j - dst)).
Proof.
  induction n as [|n IH]; intros src m dst j H0 Hj Hlen; cbn; [lia|].
  destruct src as [|x src]; [cbn in Hj; lia|]. cbn [length] in Hj.
  destruct (decide (Z.of_nat j = dst)) as [Heq | Hne].
  - rewrite uninitialized_move_n_lookup_out by lia.
    rewrite slot_write_nonneg by done.
    replace (Z.to_nat dst) with j by lia.
    rewrite list_lookup_insert_eq by done.
    replace (Z.to_nat (Z.of_nat j - dst)) with 0%nat by lia. done.
  - rewrite IH; [| lia | lia | by rewrite slot_write_length].
    f_equal.
    replace (Z.to_nat (Z.of_nat j - dst))
      with (S (Z.to_nat (Z.of_nat j - (dst + 1)))) by lia.
    done.
Qed.

Lemma move_range_spec n : forall m first (xs : list DataType),
  length xs = n ->
  (forall i : nat, (i < n)%nat -> slot_read m (first + Z.of_nat i) = xs !! i) ->
  move_range m first n = xs.
Proof.
  induction n as [|n IH]; intros m first xs Hlen Hread; cbn.
  - by destruct xs.
  - destruct xs as [|x xs]; [done|]. cbn in Hlen.
    pose proof (Hread 0%nat ltac:(lia)) as H0. cbn in H0.
    rewrite Z.add_0_r in H0. rewrite H0. f_equal.
    apply IH; [lia|]. intros i Hi.
    etrans; [|apply (Hread (S i)); lia]. f_equal. lia.
Qed.

Lemma slot_read_ring l Q C (j : Z) :
  0 <= j < C ->
  slot_read (ring_image l Q C) j = l !! Z.to_nat ((j - Q) mod C).
Proof.
  intros Hj. rewrite slot_read_nonneg by lia.
  rewrite ring_image_lookup by lia. rewrite Z2Nat.id by lia.
  by destruct (l !! _).
Qed.

(** The position in the ring of slot [j], counted from the pop index. *)
Lemma ring_pos j Q C :
  0 < C -> 0 <= j < C ->
  (j - Q) mod C = if j <? Q mod C then j - Q mod C + C else j - Q mod C.
Proof.
  intros HC Hj. pose proof (Z.mod_pos_bound Q C HC).
  rewrite Zminus_mod, (Z.mod_small j) by lia.
  destruct (Z.ltb_spec j (Q mod C)); apply mod_pm; lia.
Qed.

Lemma ring_image_ext l l' Q Q' C :
  0 < C ->
  (forall j, 0 <= j < C ->
     l !! Z.to_nat ((j - Q) mod C) = l' !! Z.to_nat ((j - Q') mod C)) ->
  ring_image l Q C = ring_image l' Q' C.
Proof.
  intros HC H. apply list_eq. intros j.
  destruct (Z.ltb_spec (Z.of_nat j) C).
  - rewrite !ring_image_lookup by done. f_equal. apply H. lia.
  - rewrite !ring_image_lookup_ge by done. done.
Qed.


(** The ring after its [k] oldest elements have been destroyed. *)
Lemma ring_after_destroy l Q C (k : nat) m' :
  1 <= C -> Z.of_nat (length l) <= C -> Z.of_nat k <= C ->
  length m' = Z.to_nat C ->
  (forall j : nat, Z.of_nat j < C ->
     m' !! j = if (Z.of_nat j - Q) mod C <? Z.of_nat k then Some None
               else ring_image l Q C !! j) ->
  m' = ring_image (drop k l) (Q + Z.of_nat k) C.
Proof.
  intros HC Hl Hk Hlen H. apply list_eq. intros j.
  destruct (Z.ltb_spec (Z.of_nat j) C) as [Hj | Hj].
  2:{ rewrite ring_image_lookup_ge by done. apply lookup_ge_None. lia. }
  rewrite H, !ring_image_lookup by done.
  pose proof (Z.mod_pos_bound (Z.of_nat j - Q) C ltac:(lia)) as Hb.
  assert ((Z.of_nat j - (Q + Z.of_nat k)) mod C
          = ((Z.of_nat j - Q) mod C - Z.of_nat k) mod C) as ->.
  { rewrite Zminus_mod_idemp_l. f_equal. lia. }
  rewrite lookup_drop.
  destruct (Z.ltb_spec ((Z.of_nat j - Q) mod C) (Z.of_nat k)).
  - f_equal. symmetry. apply lookup_ge_None.
    assert (((Z.of_nat j - Q) mod C - Z.of_nat k) mod C
            = (Z.of_nat j - Q) mod C - Z.of_nat k + C) as ->
      by (apply mod_pm; lia).
    lia.
  - f_equal. f_equal.
    rewrite (Z.mod_small ((Z.of_nat j - Q) mod C - Z.of_nat k)) by lia. lia.
Qed.

(** The ring after the elements [xs] have been constructed behind the
    youngest element. *)
Lemma ring_after_move l (xs : list DataType) Q C m' :
  1 <= C -> Z.of_nat (length l) + Z.of_nat (length xs) <= C ->
  length m' = Z.to_nat C ->
  (forall j : nat, Z.of_nat j < C ->
     let k := (Z.of_nat j - Q) mod C in
     m' !! j = if (Z.of_nat (length l) <=? k)
                  && (k <? Z.of_nat (length l) + Z.of_nat (length xs))
               then Some (xs !! Z.to_nat (k - Z.of_nat (length l)))
               else ring_image l Q C !! j) ->
  m' = ring_image (l ++ xs) Q C.
Proof.
  intros HC Hl Hlen H. apply list_eq. intros j.
  destruct (Z.ltb_spec (Z.of_nat j) C) as [Hj | Hj].
  2:{ rewrite ring_image_lookup_ge by done. apply lookup_ge_None. lia. }
  rewrite H, !ring_image_lookup by done. cbv zeta.
  pose proof (Z.mod_pos_bound (Z.of_nat j - Q) C ltac:(lia)) as Hb.
  destruct (Z.leb_spec (Z.of_nat (length l)) ((Z.of_nat j - Q) mod C));
    destruct (Z.ltb_spec ((Z.of_nat j - Q) mod C)
                (Z.of_nat (length l) + Z.of_nat (length xs)));
    cbn [andb]; f_equal.
  - rewrite lookup_app_r by lia. f_equal. lia.
  - rewrite !lookup_ge_None_2; [done | |]; rewrite ?length_app; lia.
  - rewrite lookup_app_l by lia. done.
  - lia.
Qed.


Lemma destroy_n_lookup n m first (j : nat) :
  0 <= first -> (j < length m)%nat ->
  destroy_n m first n !! j
  = if (first <=? Z.of_nat j) && (Z.of_nat j <? first + Z.of_nat n)
    then Some None else m !! j.
Proof.
  intros H0 Hj.
  destruct (Z.leb_spec first (Z.of_nat j));
    destruct (Z.ltb_spec (Z.of_nat j) (first + Z.of_nat n)); cbn [andb].
  - apply destroy_n_lookup_in; [done | lia | done].
  - apply destroy_n_lookup_out; [done | lia].
  - apply destroy_n_lookup_out; [done | lia].
  - apply destroy_n_lookup_out; [done | lia].
Qed.

Lemma uninitialized_move_n_lookup n (src : list DataType) m dst (j : nat) :
  0 <= dst -> (j < length m)%nat -> (n <= length src)%nat ->
  uninitialized_move_n src n m dst !! j
  = if (dst <=? Z.of_nat j) && (Z.of_nat j <? dst + Z.of_nat n)
    then Some (src !! Z.to_nat (Z.of_nat j - dst)) else m !! j.
Proof.
  intros H0 Hj Hn.
  destruct (Z.leb_spec dst (Z.of_nat j));
    destruct (Z.ltb_spec (Z.of_nat j) (dst + Z.of_nat n)); cbn [andb].
  - apply uninitialized_move_n_lookup_in; [done | lia | done].
  - apply uninitialized_move_n_lookup_out; [done | lia].
  - apply uninitialized_move_n_lookup_out; [done | lia].
  - apply uninitialized_move_n_lookup_out; [done | lia].
Qed.

(** The objects read by a run of [n] slots that starts at the element
    number [off] of the ring. *)
Lemma move_range_ring l Q C (first : Z) (off n : nat) m :
  1 <= C -> 0 <= first -> first + Z.of_nat n <= C ->
  (off + n <= length l)%nat ->
  (forall j : nat, first <= Z.of_nat j < first + Z.of_nat n ->
     m !! j = ring_image l Q C !! j) ->
  (forall j : nat, first <= Z.of_nat j < first + Z.of_nat n ->
     (Z.of_nat j - Q) mod C = Z.of_nat off + (Z.of_nat j - first)) ->
  move_range m first n = take n (drop off l).
Proof.
  intros HC H0 Hn Hoff Hm Hpos. apply move_range_spec.
  - rewrite length_take, length_drop. lia.
  - intros i Hi. rewrite slot_read_nonneg by lia.
    rewrite (Hm (Z.to_nat (first + Z.of_nat i))) by lia.
    rewrite ring_image_lookup by lia.
    rewrite (Hpos (Z.to_nat (first + Z.of_nat i))) by lia.
    rewrite lookup_take_lt by lia. rewrite lookup_drop.
    replace (Z.to_nat (Z.of_nat off + (Z.of_nat (Z.to_nat (first + Z.of_nat i)) - first)))
      with (off + i)%nat by lia.
    by destruct (l !! _).
Qed.

Lemma pop_runs l Q C (mz : Z) (c : @Container DataType) :
  1 <= C -> Z.of_nat (length l) <= C -> 0 < mz <= Z.of_nat (length l) ->
  mz <= capacity c - Container_size c ->
  let Q0 := Q mod C in
  let d := Q0 + mz - C in
  (if d <=? 0 then cPopAndDestroy (ring_image l Q C, c) Q0 mz
   else cPopAndDestroy (cPopAndDestroy (ring_image l Q C, c) Q0 (mz - d)) 0 d)
  = (ring_image (drop (Z.to_nat mz) l) (Q + mz) C,
     mkContainer (items c ++ take (Z.to_nat mz) l) (capacity c)).
Proof.
  intros HC Hl Hm Hc Q0 d.
  pose proof (Z.mod_pos_bound Q C ltac:(lia)) as HQ0. fold Q0 in HQ0.
  assert (Hpos : forall j : nat, Z.of_nat j < C ->
            (Z.of_nat j < Q0 /\ (Z.of_nat j - Q) mod C = Z.of_nat j - Q0 + C) \/
            (Q0 <= Z.of_nat j /\ (Z.of_nat j - Q) mod C = Z.of_nat j - Q0)).
  { intros j Hj. rewrite ring_pos by lia. fold Q0.
    destruct (Z.ltb_spec (Z.of_nat j) Q0); [left | right]; done. }
  replace (Q + mz) with (Q + Z.of_nat (Z.to_nat mz)) by lia.
  destruct (Z.leb_spec d 0) as [Hd | Hd]; unfold cPopAndDestroy.
  - f_equal.
    + apply ring_after_destroy; [lia | lia | lia | |].
      * rewrite destroy_n_length, ring_image_length. done.
      * intros j Hj. rewrite destroy_n_lookup by (rewrite ?ring_image_length; lia).
        destruct (Hpos j Hj) as [[? ->] | [? ->]]; zbool; (done || lia).
    + unfold Container_insert_end. f_equal.
      * f_equal. 
        rewrite (move_range_ring l Q C Q0 0 (Z.to_nat mz)); try lia; try done.
        intros j Hj. destruct (Hpos j ltac:(lia)) as [[? ->] | [? ->]]; lia.
      * unfold Container_size in *.
        pose proof (length_take_le l (Z.to_nat mz)) as HT.
        assert (length (move_range (ring_image l Q C) Q0 (Z.to_nat mz))
                = Z.to_nat mz) as ->; [|lia].
        rewrite (move_range_ring l Q C Q0 0 (Z.to_nat mz)); try lia; try done.
        -- rewrite length_take, length_drop. lia.
        -- intros j Hj. destruct (Hpos j ltac:(lia)) as [[? ->] | [? ->]]; lia.
  - assert (Hrun1 : move_range (ring_image l Q C) Q0 (Z.to_nat (mz - d))
                    = take (Z.to_nat (mz - d)) l).
    { rewrite (move_range_ring l Q C Q0 0 (Z.to_nat (mz - d)));
        try lia; try done.
      intros j Hj. destruct (Hpos j ltac:(lia)) as [[? ->] | [? ->]]; lia. }
    assert (Hrun2 : move_range (destroy_n (ring_image l Q C) Q0 (Z.to_nat (mz - d)))
                      0 (Z.to_nat d)
                    = take (Z.to_nat d) (drop (Z.to_nat (mz - d)) l)).
    { apply (move_range_ring l Q C 0 (Z.to_nat (mz - d)) (Z.to_nat d));
        try lia.
      - intros j Hj. apply destroy_n_lookup_out; lia.
      - intros j Hj. destruct (Hpos j ltac:(lia)) as [[? ->] | [? ->]]; lia. }
    f_equal.
    + apply ring_after_destroy; [lia | lia | lia | |].
      * rewrite !destroy_n_length, ring_image_length. done.
      * intros j Hj.
        rewrite !destroy_n_lookup
          by (rewrite ?destroy_n_length, ?ring_image_length; lia).
        destruct (Hpos j Hj) as [[? ->] | [? ->]]; zbool; (done || lia).
    + rewrite Hrun1, Hrun2. unfold Container_insert_end, Container_size in *.
      cbn [items capacity]. f_equal.
      * rewrite <- app_assoc, take_take_drop. f_equal. f_equal. lia.
      * rewrite !length_app, !length_take, !length_drop. lia.
Qed.


Lemma push_runs l (aSpan : list DataType) Q C (mz : Z) :
  1 <= C -> 0 < mz <= Z.of_nat (length aSpan) ->
  Z.of_nat (length l) + mz <= C ->
  let P0 := (Q + Z.of_nat (length l)) mod C in
  let d := P0 + mz - C in
  (if d <=? 0 then
     uninitialized_move_n aSpan (Z.to_nat mz) (ring_image l Q C) P0
   else
     uninitialized_move_n (drop (Z.to_nat (mz - d)) aSpan) (Z.to_nat d)
       (uninitialized_move_n aSpan (Z.to_nat (mz - d)) (ring_image l Q C) P0)
       0)
  = ring_image (l ++ take (Z.to_nat mz) aSpan) Q C.
Proof.
  intros HC Hm Hl P0 d.
  pose proof (Z.mod_pos_bound (Q + Z.of_nat (length l)) C ltac:(lia)) as HP0.
  fold P0 in HP0.
  assert (Hpos : forall j : nat, Z.of_nat j < C ->
            exists kk,
              (Z.of_nat j < P0 /\ kk = Z.of_nat j - P0 + C \/
               P0 <= Z.of_nat j /\ kk = Z.of_nat j - P0) /\
              ((Z.of_nat j - Q) mod C = kk + Z.of_nat (length l) \/
               (Z.of_nat j - Q) mod C = kk + Z.of_nat (length l) - C) /\
              0 <= (Z.of_nat j - Q) mod C < C).
  { intros j Hj. exists ((Z.of_nat j - (Q + Z.of_nat (length l))) mod C).
    pose proof (Z.mod_pos_bound (Z.of_nat j - (Q + Z.of_nat (length l))) C
                  ltac:(lia)) as Hkk.
    split; [|split].
    - rewrite ring_pos by lia. fold P0.
      destruct (Z.ltb_spec (Z.of_nat j) P0); [left | right]; done.
    - replace (Z.of_nat j - Q)
        with ((Z.of_nat j - (Q + Z.of_nat (length l))) + Z.of_nat (length l))
        by lia.
      rewrite <- Zplus_mod_idemp_l.
      set (kk := (Z.of_nat j - (Q + Z.of_nat (length l))) mod C) in *.
      destruct (Z.ltb_spec (kk + Z.of_nat (length l)) C).
      + left. apply Z.mod_small. lia.
      + right. apply mod_pm; lia.
    - apply Z.mod_pos_bound. lia. }
  assert (Hlen : length (take (Z.to_nat mz) aSpan) = Z.to_nat mz).
  { rewrite length_take. lia. }
  apply ring_after_move; [lia | lia | |].
  - destruct (d <=? 0);
      rewrite ?uninitialized_move_n_length, ring_image_length; done.
  - intros j Hj. cbv zeta. rewrite Hlen.
    destruct (Hpos j Hj) as (kk & Hkk & Hk & Hb).
    destruct (Z.leb_spec d 0) as [Hd | Hd].
    + rewrite uninitialized_move_n_lookup
        by (rewrite ?ring_image_length; lia).
      zbool; try done; try lia.
      f_equal. rewrite lookup_take_lt by lia. f_equal. lia.
    + rewrite !uninitialized_move_n_lookup
        by (rewrite ?uninitialized_move_n_length, ?ring_image_length,
              ?length_drop; lia).
      zbool; try done; try lia.
      * f_equal. rewrite lookup_take_lt by lia. rewrite lookup_drop.
        f_equal. lia.
      * f_equal. rewrite lookup_take_lt by lia. f_equal. lia.
Qed.

End MemoryFacts.

(** ** Batch operations *)

Section BatchFacts.
Context {DataType : Type}.
Implicit Types (q : @Queue DataType) (l : list DataType)
  (m : list (option DataType)).

Lemma wrap32_sub_l a b : Int.wrap32 (Int.wrap32 a - b) = Int.wrap32 (a - b).
Proof.
  unfold Int.wrap32. f_equal.
  replace ((a + 2147483648) mod 4294967296 - 2147483648 - b + 2147483648)
    with ((a + 2147483648) mod 4294967296 - b) by lia.
  rewrite Zminus_mod_idemp_l. f_equal. lia.
Qed.

Lemma Increase_Index_eq q i k :
  Int.in_int (i + k) ->
  Increase_Index q i k
  = Int.wrap32 (i + k - (if i + k >=? mIndexEnd q then mIndexEnd q else 0)).
Proof.
  intros H. unfold Increase_Index. rewrite add_id by done. done.
Qed.

Lemma Pop_Multiple_eval q l (c : @Container DataType) :
  Rep q l ->
  0 <= capacity c - Container_size c <= Int.INT_MAX ->
  let k := Z.min (capacity c - Container_size c) (Z.of_nat (length l)) in
  Pop_Multiple q c
  = (Pop_Multiple_post q l k,
     mkContainer (items c ++ take (Z.to_nat k) l) (capacity c)).
Proof.
  intros HR Hs k.
  pose proof (Rep_arith q l HR) as (Hn0 & HP & HQ & Hd & Hsz).
  pose proof (Allocated_bounds q (rep_alloc _ _ HR)) as (HC & HE & _).
  unfold Int.INT_MAX in *.
  unfold Pop_Multiple. cbv zeta.
  rewrite sub_id by int_range.
  assert (Havail : Int.add (mPushIndex q - mPopIndex q)
                     (if mPushIndex q - mPopIndex q <? 0 then mIndexEnd q else 0)
                   = Z.of_nat (length l)).
  { rewrite add_id; destruct (Z.ltb_spec (mPushIndex q - mPopIndex q) 0);
      int_range. }
  rewrite Havail. unfold Int.of_size_t. rewrite wrap32_id by int_range.
  fold k.
  destruct (Z.eqb_spec k 0) as [Hk0 | Hk0].
  - rewrite Hk0. change (Z.to_nat 0) with 0%nat. rewrite take_0, app_nil_r.
    f_equal; [|by destruct c].
    unfold Pop_Multiple_post. change (Z.to_nat 0) with 0%nat. rewrite drop_0.
    rewrite Z.add_0_r, Z.sub_0_r, <- (rep_mem _ _ HR).
    rewrite Increase_Index_eq by int_range. rewrite Z.add_0_r.
    destruct (Z.geb_spec (mPopIndex q) (mIndexEnd q)); [lia|].
    rewrite Z.sub_0_r, wrap32_id by int_range. by destruct q.
  - rewrite rem_nonneg by lia.
    pose proof (Z.mod_pos_bound (mPopIndex q) (mCapacity q) ltac:(lia)) as HQ0.
    rewrite add_id by int_range. rewrite !sub_id by int_range.
    rewrite (rep_mem _ _ HR).
    rewrite (pop_runs l (mPopIndex q) (mCapacity q) k c) by lia.
    unfold Decrease_Size, Pop_Multiple_post. cbn.
    rewrite sub_id by int_range. reflexivity.
Qed.


Lemma ring_image_wrap l Q C K :
  0 < C -> ring_image l (Q - C * K) C = ring_image l Q C.
Proof.
  intros HC. apply ring_image_ext; [done|]. intros j Hj. f_equal. f_equal.
  replace (j - (Q - C * K)) with (j - Q + K * C) by lia.
  apply Z_mod_plus_full.
Qed.

Lemma Increase_Index_cases q i k :
  0 <= i < mIndexEnd q -> 0 <= k <= mIndexEnd q -> i + k <= Int.INT_MAX ->
  (i + k < mIndexEnd q /\ Increase_Index q i k = i + k) \/
  (mIndexEnd q <= i + k /\ Increase_Index q i k = i + k - mIndexEnd q).
Proof.
  intros Hi Hk Hmax. rewrite Increase_Index_eq by int_range.
  destruct (Z.geb_spec (i + k) (mIndexEnd q)); [right | left];
    (split; [lia|]); rewrite wrap32_id by int_range; lia.
Qed.

Lemma Pop_Multiple_post_Rep q l k :
  Rep q l -> 0 <= k <= Z.of_nat (length l) ->
  mPopIndex q + k <= Int.INT_MAX ->
  Rep (Pop_Multiple_post q l k) (drop (Z.to_nat k) l).
Proof.
  intros HR Hk Hmax.
  pose proof (Rep_arith q l HR) as (Hn0 & HP & HQ & Hd & Hsz).
  pose proof (Allocated_bounds q (rep_alloc _ _ HR)) as (HC & HE & _).
  destruct HR as [HA HI HL HM].
  destruct (Increase_Index_cases q (mPopIndex q) k) as [[Hlt HB] | [Hge HB]];
    [lia | lia | done | |].
  all: unfold Int.INT_MAX in *.
  all: assert (Hlive : live_count (Pop_Multiple_post q l k)
                       = Z.of_nat (length l) - k)
         by (unfold live_count, Pop_Multiple_post; cbn; rewrite HB;
             apply mod_pm; lia).
  all: split;
    [ destruct HA; split; cbn; try done;
      [ by rewrite ring_image_length | int_range ]
    | split; cbn; rewrite ?Hlive, ?HB; try lia;
      unfold size; cbn; rewrite land_low31; apply mod_pm; lia
    | rewrite Hlive, length_drop; lia
    | cbn; rewrite HB ].
  - done.
  - rewrite (al_indexEnd _ HA). symmetry. apply ring_image_wrap. lia.
Qed.

Lemma Emplace_Multiple_eval q l (aSpan : list DataType) :
  Rep q l ->
  Z.of_nat (length aSpan) <= Int.INT_MAX ->
  mPopIndex q + mCapacity q - mPushIndex q <= Int.INT_MAX ->
  let k := Z.min (Z.of_nat (length aSpan))
             (mCapacity q - Z.of_nat (length l)) in
  Emplace_Multiple q aSpan
  = (Emplace_Multiple_post q l (take (Z.to_nat k) aSpan),
     drop (Z.to_nat k) aSpan).
Proof.
  intros HR Hs Hmax k.
  pose proof (Rep_arith q l HR) as (Hn0 & HP & HQ & Hd & Hsz).
  pose proof (Allocated_bounds q (rep_alloc _ _ HR)) as (HC & HE & _).
  pose proof (indexEnd_mod q (rep_alloc _ _ HR)) as HEC.
  unfold Int.INT_MAX in *.
  assert (Hlen : Z.of_nat (length (take (Z.to_nat k) aSpan)) = k).
  { rewrite length_take. lia. }
  unfold Emplace_Multiple. cbv zeta.
  assert (H0 : Int.sub (Int.add (mPopIndex q) (mCapacity q)) (mPushIndex q)
               = mPopIndex q + mCapacity q - mPushIndex q).
  { unfold Int.sub, Int.add. rewrite wrap32_sub_l. apply wrap32_id. int_range. }
  rewrite H0.
  assert (Havail :
    Int.sub (mPopIndex q + mCapacity q - mPushIndex q)
      (if mPopIndex q + mCapacity q - mPushIndex q >=? mIndexEnd q
       then mIndexEnd q else 0)
    = mCapacity q - Z.of_nat (length l)).
  { rewrite sub_id;
      destruct (Z.geb_spec (mPopIndex q + mCapacity q - mPushIndex q)
                  (mIndexEnd q)); int_range. }
  rewrite Havail. unfold Int.of_size_t. rewrite wrap32_id by int_range.
  fold k.
  destruct (Z.eqb_spec k 0) as [Hk0 | Hk0].
  - rewrite Hk0. change (Z.to_nat 0) with 0%nat. rewrite take_0, drop_0.
    f_equal. unfold Emplace_Multiple_post. cbn [length Z.of_nat].
    rewrite app_nil_r, Z.add_0_r, <- (rep_mem _ _ HR).
    rewrite Increase_Index_eq by int_range. rewrite Z.add_0_r.
    destruct (Z.geb_spec (mPushIndex q) (mIndexEnd q)); [lia|].
    rewrite Z.sub_0_r, wrap32_id by int_range. by destruct q.
  - rewrite rem_nonneg by lia.
    assert (Hslot : mPushIndex q mod mCapacity q
                    = (mPopIndex q + Z.of_nat (length l)) mod mCapacity q).
    { destruct Hd as [Hd | Hd].
      - f_equal. lia.
      - replace (mPushIndex q)
          with (mPopIndex q + Z.of_nat (length l) - mIndexEnd q) by lia.
        rewrite Zminus_mod, HEC, Z.sub_0_r, Z.mod_mod by lia. done. }
    pose proof (Z.mod_pos_bound (mPushIndex q) (mCapacity q) ltac:(lia)) as HP0.
    rewrite add_id by int_range. rewrite !sub_id by int_range.
    rewrite (rep_mem _ _ HR). rewrite Hslot.
    rewrite (push_runs l aSpan (mPopIndex q) (mCapacity q) k) by lia.
    unfold Increase_Size, Emplace_Multiple_post. cbn. rewrite Hlen.
    rewrite add_id by int_range.
    rewrite (take_ge (drop _ _)) by (rewrite length_drop; lia). reflexivity.
Qed.

Lemma Emplace_Multiple_post_Rep q l (xs : list DataType) :
  Rep q l -> Z.of_nat (length l) + Z.of_nat (length xs) <= mCapacity q ->
  mPushIndex q + Z.of_nat (length xs) <= Int.INT_MAX ->
  Rep (Emplace_Multiple_post q l xs) (l ++ xs).
Proof.
  intros HR Hk Hmax.
  pose proof (Rep_arith q l HR) as (Hn0 & HP & HQ & Hd & Hsz).
  pose proof (Allocated_bounds q (rep_alloc _ _ HR)) as (HC & HE & _).
  destruct HR as [HA HI HL HM].
  destruct (Increase_Index_cases q (mPushIndex q) (Z.of_nat (length xs)))
    as [[Hlt HB] | [Hge HB]]; [lia | lia | done | |].
  all: unfold Int.INT_MAX in *.
  all: assert (Hlive : live_count (Emplace_Multiple_post q l xs)
                       = Z.of_nat (length l) + Z.of_nat (length xs))
         by (unfold live_count, Emplace_Multiple_post; cbn; rewrite HB;
             apply mod_pm; lia).
  all: split;
    [ destruct HA; split; cbn; try done;
      [ by rewrite ring_image_length | int_range ]
    | split; cbn; rewrite ?Hlive, ?HB; try lia;
      unfold size; cbn; rewrite land_low31; apply mod_pm; lia
    | rewrite Hlive, length_app; lia
    | done ].
Qed.

End BatchFacts.

(** ** Sequences of pushes and pops *)

Section TraceFacts.
Context {DataType : Type}.
Implicit Types (q : @Queue DataType) (l : list DataType).

(** One step of the code against one step of the bounded FIFO. *)
Lemma Emplace_refines q l v :
  Rep q l ->
  (Emplace q v).2 = match fifo_step (mCapacity q) l (OpPush v) with
                    | (_, ObsPush ok) => ok | _ => false end /\
  Rep (Emplace q v).1 (fifo_step (mCapacity q) l (OpPush v)).1 /\
  mCapacity (Emplace q v).1 = mCapacity q.
Proof.
  intros HR. pose proof (Rep_arith q l HR) as (Hn & _).
  cbn [fifo_step].
  destruct (Z.ltb_spec (Z.of_nat (length l)) (mCapacity q)) as [Hlt | Hge].
  - rewrite (Emplace_not_full q l v HR Hlt). cbn.
    split; [done|]. split; [|done]. by apply Emplace_post_Rep.
  - rewrite (Emplace_full q l v HR) by lia. done.
Qed.

Lemma Pop_refines q l (a : DataType) :
  Rep q l ->
  (let '(_, a', ok) := Pop q a in if ok then Some a' else None)
  = match fifo_step (mCapacity q) l OpPop with
    | (_, ObsPop r) => r | _ => None end /\
  Rep (Pop q a).1.1 (fifo_step (mCapacity q) l OpPop).1 /\
  mCapacity (Pop q a).1.1 = mCapacity q.
Proof.
  intros HR. destruct l as [|x l].
  - rewrite (Pop_empty q a HR). done.
  - rewrite (Pop_nonempty q x l a HR). cbn.
    split; [done|]. split; [|done]. by eapply Pop_post_Rep.
Qed.

Lemma run_refines ops : forall q l (a : DataType),
  Rep q l ->
  (run q a ops).2 = (fifo_run (mCapacity q) l ops).2 /\
  Rep (run q a ops).1 (fifo_run (mCapacity q) l ops).1.
Proof.
  induction ops as [|op ops IH]; intros q l a HR; [done|].
  destruct op as [v|].
  - destruct (Emplace_refines q l v HR) as (Hobs & HR' & HC).
    cbn [run fifo_run]. destruct (Emplace q v) as [q' ok] eqn:HE.
    cbn [fst snd] in *.
    destruct (fifo_step (mCapacity q) l (OpPush v)) as [l' o] eqn:HF.
    cbn [fst snd] in *.
    destruct (IH q' l' a HR') as [IH1 IH2]. rewrite HC in IH1, IH2.
    destruct (run q' a ops) as [q'' obs].
    destruct (fifo_run (mCapacity q) l' ops) as [l'' obs'].
    cbn [fst snd] in *. split; [|done].
    cbn in HF. destruct (Z.of_nat (length l) <? mCapacity q);
      injection HF as <- <-; subst; done.
  - destruct (Pop_refines q l a HR) as (Hobs & HR' & HC).
    cbn [run fifo_run]. destruct (Pop q a) as [[q' a'] ok] eqn:HE.
    cbn [fst snd] in *.
    destruct (fifo_step (mCapacity q) l OpPop) as [l' o] eqn:HF.
    cbn [fst snd] in *.
    destruct (IH q' l' a' HR') as [IH1 IH2]. rewrite HC in IH1, IH2.
    destruct (run q' a' ops) as [q'' obs].
    destruct (fifo_run (mCapacity q) l' ops) as [l'' obs'].
    cbn [fst snd] in *. split; [|done].
    cbn in HF, Hobs. destruct l; injection HF as <- <-; subst; rewrite Hobs; done.
Qed.

Lemma fifo_run_cycles (cap : Z) (vs : list DataType) :
  1 <= cap -> fifo_run cap [] (cycles vs) = ([], cycles_obs vs).
Proof.
  intros Hcap. induction vs as [|v vs IH]; [done|].
  unfold cycles, cycles_obs in *. cbn [flat_map app fifo_run fifo_step length].
  destruct (Z.ltb_spec (Z.of_nat 0) cap); [|lia]. cbn [app].
  rewrite IH. done.
Qed.

End TraceFacts.

(** ** Wait control and [Pop_Await] *)

Section WaitFacts.
Context {DataType : Type}.
Variable Waiting : WaitPolicy.
Hypothesis requires : sPopAwait Waiting = true.
Implicit Types (q : @Queue DataType) (l : list DataType).

(** Setting and clearing the high bit leaves the low 31 bits as they are. *)
Lemma low31_lor_mask z :
  Z.land (Z.lor z sSizeMask) (Z.lnot sSizeMask) = Z.land z (Z.lnot sSizeMask).
Proof.
  rewrite Z.land_lor_distr_l, Z.land_lnot_diag, Z.lor_0_r. reflexivity.
Qed.

Lemma low31_land_mask z :
  Z.land (Z.land z (Z.lnot sSizeMask)) (Z.lnot sSizeMask)
  = Z.land z (Z.lnot sSizeMask).
Proof. rewrite <- Z.land_assoc, Z.land_diag. reflexivity. Qed.

Lemma testbit31_lor_mask z : Z.testbit (Z.lor z sSizeMask) 31 = true.
Proof. rewrite Z.lor_spec. apply orb_true_r. Qed.

Lemma testbit31_land_mask z :
  Z.testbit (Z.land z (Z.lnot sSizeMask)) 31 = false.
Proof. rewrite Z.land_spec. apply andb_false_r. Qed.

Lemma lor_mask_value z :
  Z.lor z sSizeMask = z mod 2147483648 - 2147483648.
Proof.
  pose proof (Z.add_lor_land z sSizeMask) as H.
  assert (Z.land z sSizeMask = z - z mod 2147483648); [|rewrite sSizeMask_eq in *; unfold Int.INT_MIN in *; lia].
  change sSizeMask with (Z.lnot (Z.ones 31)).
  rewrite <- Z.ldiff_land, Z.ldiff_ones_r by lia.
  rewrite Z.shiftl_mul_pow2, Z.shiftr_div_pow2 by lia.
  change (2 ^ 31) with 2147483648.
  pose proof (Z.div_mod z 2147483648 ltac:(lia)). lia.
Qed.

Lemma size_End_PopWaiting q : size (End_PopWaiting Waiting requires q) = size q.
Proof. unfold size, End_PopWaiting; cbn. apply low31_lor_mask. Qed.

Lemma size_Reset_PopWaiting q :
  size (Reset_PopWaiting Waiting requires q) = size q.
Proof. unfold size, Reset_PopWaiting; cbn. apply low31_land_mask. Qed.

Lemma End_PopWaiting_Rep q l : Rep q l -> Rep (End_PopWaiting Waiting requires q) l.
Proof.
  intros [HA HI HL HM]. split; [| |done|done].
  - destruct HA. split; try done. cbn. rewrite lor_mask_value.
    pose proof (Z.mod_pos_bound (mSize q) 2147483648 ltac:(lia)). int_range.
  - destruct HI. split; try done. by rewrite size_End_PopWaiting.
Qed.

Lemma Reset_PopWaiting_Rep q l :
  Rep q l -> Rep (Reset_PopWaiting Waiting requires q) l.
Proof.
  intros [HA HI HL HM]. split; [| |done|done].
  - destruct HA. split; try done. cbn. rewrite land_low31.
    pose proof (Z.mod_pos_bound (mSize q) 2147483648 ltac:(lia)). int_range.
  - destruct HI. split; try done. by rewrite size_Reset_PopWaiting.
Qed.

(** The size counter of a ring that holds [l]. *)
Lemma Rep_mSize q l :
  Rep q l ->
  mSize q = if terminal_flag q then Z.of_nat (length l) - 2147483648
            else Z.of_nat (length l).
Proof.
  intros HR. pose proof (Rep_arith q l HR) as (Hn & _ & _ & _ & Hs).
  pose proof (Allocated_bounds q (rep_alloc _ _ HR)) as (HC & _).
  unfold terminal_flag. rewrite testbit31 by apply (al_size _ (rep_alloc _ _ HR)).
  destruct (Z.ltb_spec (mSize q) 0); lia.
Qed.

Lemma terminal_flag_Pop_post q x l :
  Rep q (x :: l) -> terminal_flag (Pop_post q) = terminal_flag q.
Proof.
  intros HR. pose proof (Rep_mSize q _ HR) as Hs.
  pose proof (Rep_mSize _ _ (Pop_post_Rep q x l HR)) as Hs'.
  cbn [mSize Pop_post length] in *.
  pose proof (Rep_arith q _ HR) as (Hn & _).
  pose proof (Allocated_bounds q (rep_alloc _ _ HR)) as (HC & _).
  cbn [length] in *.
  destruct (terminal_flag q), (terminal_flag (Pop_post q)); try done; lia.
Qed.

(** One call of [Pop_Await], by the contents of the ring. *)
Lemma Pop_Await_nonempty fuel q x l (a : DataType) :
  Rep q (x :: l) ->
  Pop_Await Waiting requires (S fuel) q a = Some (Finished (Pop_post q, x) true).
Proof. intros HR. cbn [Pop_Await]. by rewrite (Pop_nonempty q x l a HR). Qed.

Lemma Pop_Await_empty fuel q (a : DataType) :
  Rep q [] ->
  Pop_Await Waiting requires (S fuel) q a
  = Some (if terminal_flag q then Finished (q, a) false else Waits (q, a)).
Proof.
  intros HR. cbn [Pop_Await]. rewrite (Pop_empty q a HR).
  rewrite (Rep_mSize q [] HR). cbn [length Z.of_nat].
  destruct (terminal_flag q); done.
Qed.

Lemma Pop_Await_wake_nonempty fuel q x l (a : DataType) :
  Rep q (x :: l) ->
  Pop_Await_wake Waiting requires (S fuel) q a
  = Some (Finished (Pop_post q, x) true).
Proof.
  intros HR. unfold Pop_Await_wake.
  pose proof (Rep_arith q _ HR) as (Hn & _). cbn [length] in *.
  assert ((mSize q =? sSizeMask) = false) as ->.
  { apply Z.eqb_neq. rewrite (Rep_mSize q _ HR), sSizeMask_eq.
    unfold Int.INT_MIN. cbn [length]. destruct (terminal_flag q); lia. }
  by apply Pop_Await_nonempty with l.
Qed.

Lemma Pop_Await_wake_empty fuel q (a : DataType) :
  Rep q [] ->
  Pop_Await_wake Waiting requires (S fuel) q a
  = Some (if terminal_flag q then Finished (q, a) false else Waits (q, a)).
Proof.
  intros HR. unfold Pop_Await_wake.
  rewrite (Pop_Await_empty fuel q a HR).
  rewrite (Rep_mSize q _ HR) at 1. cbn [length Z.of_nat].
  destruct (terminal_flag q); done.
Qed.

Lemma Pop_Await_calls_S n q (a : DataType) :
  Pop_Await_calls Waiting requires (S n) q a
  = match Pop_Await Waiting requires 2 q a with
    | Some (Finished (q', x) true) =>
        let '(xs, last) := Pop_Await_calls Waiting requires n q' x in
        (x :: xs, last)
    | other => ([], other)
    end.
Proof. reflexivity. Qed.

(** Draining a closed ring. *)
Lemma Pop_Await_calls_closed l : forall q (a : DataType),
  Rep q l -> terminal_flag q = true ->
  exists q',
    Pop_Await_calls Waiting requires (S (length l)) q a
    = (l, Some (Finished (q', default a (last l)) false)) /\
    Rep q' [] /\ terminal_flag q' = true.
Proof.
  induction l as [|x l IH]; intros q a HR Hf.
  - exists q. cbn [length]. rewrite Pop_Await_calls_S.
    rewrite (Pop_Await_empty 1 q a HR), Hf. done.
  - cbn [length]. rewrite Pop_Await_calls_S.
    rewrite (Pop_Await_nonempty 1 q x l a HR).
    destruct (IH (Pop_post q) x (Pop_post_Rep q x l HR)) as (q' & Hc & HR' & Hf').
    { by rewrite (terminal_flag_Pop_post q x l HR). }
    exists q'. rewrite Hc. split; [|done].
    f_equal. f_equal. f_equal. f_equal.
    rewrite last_cons. by destruct (last l).
Qed.

End WaitFacts.

(** ** Further facts used by the claims *)

Section ClaimFacts.
Context {DataType : Type}.
Implicit Types (q : @Queue DataType) (l : list DataType).

Lemma full_check_iff q l :
  Rep q l -> full_check q = true <-> Z.of_nat (length l) = mCapacity q.
Proof.
  intros HR.
  pose proof (Rep_arith q l HR) as (Hn0 & HP & HQ & Hd & Hs).
  pose proof (Allocated_bounds q (rep_alloc _ _ HR)) as (HC & HE & _).
  unfold full_check. rewrite orb_true_iff, !Z.eqb_eq. lia.
Qed.

Lemma size_Rep q l : Rep q l -> size q = Z.of_nat (length l).
Proof. intros HR. rewrite (inv_size _ (rep_inv _ _ HR)). symmetry. apply HR. Qed.

Lemma empty_Rep q l : Rep q l -> empty q = true <-> l = [].
Proof.
  intros HR. unfold empty. rewrite (size_Rep q l HR), Z.eqb_eq.
  destruct l; cbn [length]; split; (done || lia).
Qed.

Lemma ring_image_nil Q C :
  ring_image ([] : list DataType) Q C = replicate (Z.to_nat C) None.
Proof.
  apply list_eq. intros j.
  destruct (Z.ltb_spec (Z.of_nat j) C).
  - rewrite ring_image_lookup by done. rewrite lookup_replicate_2 by lia.
    by rewrite lookup_nil.
  - rewrite ring_image_lookup_ge by done. symmetry.
    apply lookup_ge_None. rewrite length_replicate. lia.
Qed.

Lemma capacity_wraps (cap : Z) :
  1 <= cap -> (cap <= Z.quot Int.INT_MAX 2 <-> 2 <= Z.quot Int.INT_MAX cap).
Proof.
  intros Hc. change (Z.quot Int.INT_MAX 2) with 1073741823.
  unfold Int.INT_MAX. rewrite Z.quot_div_nonneg by lia. split; intros H.
  - apply Z.div_le_lower_bound; lia.
  - pose proof (Z.mul_div_le 2147483647 cap ltac:(lia)). nia.
Qed.


(** An allocated queue with equal indices below [indexEnd] and a size of
    zero is an empty ring. *)
Lemma Rep_allocated_empty (P S : Z) (p : ptr) (cap : Z) :
  1 <= cap -> 2 <= Z.quot Int.INT_MAX cap ->
  0 <= P < cap * Z.quot Int.INT_MAX cap ->
  Int.in_int S -> Z.land S (Z.lnot sSizeMask) = 0 ->
  Rep (mkQueue P P S (Some p) (replicate (Z.to_nat cap) (@None DataType))
         cap (cap * Z.quot Int.INT_MAX cap)) [].
Proof.
  intros Hc HK HP HS Hsz.
  assert (Hlive : forall E, (P - P) mod E = 0).
  { intros E. rewrite Z.sub_diag. apply Zmod_0_l. }
  split.
  - split; cbn; [done | done | done | done | | done].
    apply length_replicate.
  - split; cbn; unfold live_count, size; cbn; rewrite ?Hlive;
      [lia | lia | done | lia].
  - unfold live_count; cbn. by rewrite Hlive.
  - cbn. symmetry. apply ring_image_nil.
Qed.

End ClaimFacts.

(** Proofs of closed facts about concrete states: the definitions are
    evaluated. *)
Ltac evaluate :=
  repeat split; vm_compute; try reflexivity; try discriminate;
  try (intros; discriminate).

(** ** Reachability of the states near the wrap of the indices *)

Import Examples.

(** ** Reachability of the states near the wrap of the indices *)

Lemma Reachable_fresh3 W : Reachable W fresh3.
Proof.
  apply (Reach_Allocate W Queue_default 4 4 SimpleAllocator.t _
           (SimpleAllocator.mk [Some 1%positive] []) (SimpleAllocator.mk [] [])
           3 fresh3); [apply Reach_default | reflexivity].
Qed.

Lemma Rep_cycled3 n : 0 <= n < 2147483646 -> Rep (cycled3 n) [].
Proof.
  intros Hn.
  assert (Hlive : live_count (cycled3 n) = 0).
  { unfold live_count; cbn. rewrite Z.sub_diag. apply Zmod_0_l. }
  split.
  - evaluate.
  - split; cbn; rewrite ?Hlive; [lia | lia | reflexivity | lia].
  - by rewrite Hlive.
  - cbn. rewrite ring_image_nil. reflexivity.
Qed.

Lemma cycled3_step n :
  0 <= n < 2147483645 ->
  (Pop (Emplace (cycled3 n) 0).1 0).1.1 = cycled3 (n + 1).
Proof.
  intros Hn. pose proof (Rep_cycled3 n ltac:(lia)) as HR.
  rewrite (Emplace_not_full _ _ 0 HR) by (cbn; lia). cbn [fst].
  pose proof (Emplace_post_Rep _ _ 0 HR ltac:(cbn; lia)) as HR'.
  rewrite (Pop_nonempty _ _ _ 0 HR'). cbn [fst].
  unfold Pop_post, Emplace_post, cycled3; cbn.
  rewrite !Bump_Index_eq by (cbn; unfold Int.INT_MAX; lia). cbn.
  destruct (Z.ltb_spec (n + 1) 2147483646); [|lia].
  rewrite list_insert_insert_eq.
  replace (n + 1 - 1) with n by lia.
  pose proof (Z.mod_pos_bound n 3 ltac:(lia)) as Hm.
  assert (n mod 3 = 0 \/ n mod 3 = 1 \/ n mod 3 = 2) as [-> | [-> | ->]]
    by lia; reflexivity.
Qed.

Lemma Is_Allocated_Emplace {DataType} (q : @Queue DataType) v :
  Is_Allocated (Emplace q v).1 = Is_Allocated q.
Proof. unfold Emplace. by destruct (_ || _). Qed.

Lemma Reachable_cycled3 W n : 0 <= n <= 2147483645 -> Reachable W (cycled3 n).
Proof.
  intros [Hn0 Hn]. revert Hn. pattern n. apply natlike_ind; [| |exact Hn0].
  - intros _. apply Reachable_fresh3.
  - intros x Hx IH Hle. unfold Z.succ. rewrite <- cycled3_step by lia.
    apply Reach_Pop; [|by rewrite Is_Allocated_Emplace].
    apply Reach_Emplace; [|reflexivity]. apply IH. lia.
Qed.

Lemma Reachable_near_wrap_empty W : Reachable W near_wrap_empty.
Proof. apply Reachable_cycled3. lia. Qed.

Lemma Reachable_near_wrap_one W : Reachable W near_wrap_one.
Proof.
  change near_wrap_one with (Emplace near_wrap_empty 9).1.
  apply Reach_Emplace; [apply Reachable_near_wrap_empty | reflexivity].
Qed.

Lemma Reachable_near_wrap_full W : Reachable W near_wrap_full.
Proof.
  change near_wrap_full
    with (Emplace (Emplace (Emplace near_wrap_empty 1).1 2).1 3).1.
  repeat (apply Reach_Emplace; [|reflexivity]).
  apply Reachable_near_wrap_empty.
Qed.

Lemma Rep_near_wrap_one : Rep near_wrap_one [9].
Proof. evaluate. Qed.


Lemma Reachable_one_live : Reachable NoWaits one_live.
Proof.
  change one_live with (Emplace fresh3 5).1.
  apply Reach_Emplace; [apply Reachable_fresh3 | reflexivity].
Qed.

(** * The claims *)

Section Claims.
Context {DataType : Type}.
Implicit Types (q : @Queue DataType) (l : list DataType).

(** C1. A single-element push on an allocated queue returns [false] iff
    the ring is full, and full is the two-point check on
    [delta = pushIndex - popIndex]: [delta = capacity] or
    [delta = capacity - indexEnd] (which holds iff the ring holds [capacity]
    elements).  A full ring is left as it is.  Otherwise the value is
    constructed in slot [pushIndex mod capacity] (no other slot changes), the
    push index advances by one with the wrap to zero at [indexEnd], the pop
    index stays, the size goes up by one, the ring holds the new value behind
    the old ones, and the push returns [true]. *)
Theorem C1_Emplace_fails_iff_full q l (v : DataType) :
  Rep q l ->
  ((Emplace q v).2 = false <-> full_check q = true) /\
  (full_check q = true <-> Z.of_nat (length l) = mCapacity q) /\
  (full_check q = true -> Emplace q v = (q, false)) /\
  (full_check q = false ->
     let q' := (Emplace q v).1 in
     (Emplace q v).2 = true /\
     mStorage_mem q' !! Z.to_nat (mPushIndex q mod mCapacity q)
       = Some (Some v) /\
     (forall j : nat, j <> Z.to_nat (mPushIndex q mod mCapacity q) ->
        mStorage_mem q' !! j = mStorage_mem q !! j) /\
     mPushIndex q'
       = (if mPushIndex q + 1 <? mIndexEnd q then mPushIndex q + 1 else 0) /\
     mPopIndex q' = mPopIndex q /\
     mSize q' = mSize q + 1 /\
     size q' = size q + 1 /\
     Rep q' (l ++ [v])).
Proof.
  intros HR.
  pose proof (full_check_iff q l HR) as Hfull.
  pose proof (Rep_arith q l HR) as (Hn0 & HP & HQ & Hd & Hs).
  pose proof (Allocated_bounds q (rep_alloc _ _ HR)) as (HC & HE & _).
  destruct (full_check q) eqn:Hf.
  - assert (Hn : Z.of_nat (length l) = mCapacity q) by by apply Hfull.
    rewrite (Emplace_full q l v HR Hn). done.
  - assert (Hn : Z.of_nat (length l) < mCapacity q).
    { destruct (decide (Z.of_nat (length l) = mCapacity q)) as [He|];
        [apply Hfull in He; done | lia]. }
    rewrite (Emplace_not_full q l v HR Hn). cbn [fst snd].
    pose proof (Emplace_post_Rep q l v HR Hn) as HR'.
    split; [done|]. split; [done|]. split; [done|]. intros _.
    split; [done|].
    pose proof (Z.mod_pos_bound (mPushIndex q) (mCapacity q) ltac:(lia)).
    split; [|split; [|split; [|split; [|split; [|split]]]]]; try done.
    + cbn. apply list_lookup_insert_eq.
      rewrite (al_mem _ (rep_alloc _ _ HR)). lia.
    + intros j Hj. cbn. by apply list_lookup_insert_ne.
    + cbn. apply Bump_Index_eq; lia.
    + rewrite (size_Rep _ _ HR'), (size_Rep _ _ HR), length_app. cbn. lia.
Qed.

(** C2. From an allocated queue, any sequence of single-element pushes and
    pops, the producer's and the consumer's calls taken one at a time, is
    observed as on a FIFO list bounded by the capacity: at every step a push
    fails iff [capacity] elements are held, a pop fails iff none is, and a pop
    returns the oldest element; the state reached again represents the list.
    In particular, on an empty queue, [k * capacity + r] push/pop cycles
    with [r < capacity] all succeed, the value popped at each position is the
    value pushed there, and the queue is empty again; the indices of the
    start state are arbitrary, so the cycles may cross the wrap of the
    indices at [indexEnd] and of the slots at [capacity]. *)
Theorem C2_fifo_across_wrap_around q l (a : DataType) (ops : list Op) :
  Rep q l ->
  (run q a ops).2 = (fifo_run (mCapacity q) l ops).2 /\
  Rep (run q a ops).1 (fifo_run (mCapacity q) l ops).1 /\
  (forall (k r : Z) (vs : list DataType),
     l = [] -> ops = cycles vs ->
     Z.of_nat (length vs) = k * mCapacity q + r -> 0 <= r < mCapacity q ->
     (run q a ops).2 = cycles_obs vs /\ Rep (run q a ops).1 []).
Proof.
  intros HR. destruct (run_refines ops q l a HR) as [Hobs HR'].
  split; [done|]. split; [done|].
  intros k r vs -> -> _ _.
  pose proof (Allocated_bounds q (rep_alloc _ _ HR)) as (HC & _).
  rewrite fifo_run_cycles in Hobs, HR' by lia. done.
Qed.

(** C5. [Pop_Await] returns [false] iff the pop side is closed (the terminal
    flag is set in the size counter) and the ring is empty, both when called
    and when woken from its wait.  On a non-empty ring it returns [true] with
    the oldest element, whether closed or not, and the flag stays as it was;
    on an empty ring that is not closed it neither returns [true] nor [false]
    but waits.  After [End_PopWaiting] on a ring holding [l], successive calls
    return the elements of [l] in FIFO order, each with [true], and the next
    call returns [false]. *)
Theorem C5_Pop_Await_false_iff_closed_and_empty
    (Waiting : WaitPolicy) (requires : sPopAwait Waiting = true)
    (fuel : nat) q l (a : DataType) :
  Rep q l ->
  ((exists s, Pop_Await Waiting requires (S fuel) q a = Some (Finished s false))
   <-> terminal_flag q = true /\ l = []) /\
  ((exists s,
      Pop_Await_wake Waiting requires (S fuel) q a = Some (Finished s false))
   <-> terminal_flag q = true /\ l = []) /\
  (forall x l', l = x :: l' ->
     Pop_Await Waiting requires (S fuel) q a
       = Some (Finished (Pop_post q, x) true) /\
     Pop_Await_wake Waiting requires (S fuel) q a
       = Some (Finished (Pop_post q, x) true) /\
     Rep (Pop_post q) l' /\
     terminal_flag (Pop_post q) = terminal_flag q) /\
  (l = [] -> terminal_flag q = false ->
     Pop_Await Waiting requires (S fuel) q a = Some (Waits (q, a))) /\
  (exists q',
     Pop_Await_calls Waiting requires (S (length l))
       (End_PopWaiting Waiting requires q) a
     = (l, Some (Finished (q', default a (last l)) false)) /\
     Rep q' []).
Proof.
  intros HR.
  assert (Hlast : exists q',
     Pop_Await_calls Waiting requires (S (length l))
       (End_PopWaiting Waiting requires q) a
     = (l, Some (Finished (q', default a (last l)) false)) /\
     Rep q' []).
  { destruct (Pop_Await_calls_closed Waiting requires l
                (End_PopWaiting Waiting requires q) a) as (q' & Hc & HR' & _).
    - by apply End_PopWaiting_Rep.
    - apply testbit31_lor_mask.
    - by exists q'. }
  destruct l as [|x l'].
  - rewrite (Pop_Await_empty Waiting requires fuel q a HR).
    rewrite (Pop_Await_wake_empty Waiting requires fuel q a HR).
    destruct (terminal_flag q).
    + split; [|split; [|split; [|split]]].
      * split; [done | intros _; by eexists].
      * split; [done | intros _; by eexists].
      * intros x l' H. discriminate H.
      * intros _ Hf. discriminate Hf.
      * exact Hlast.
    + split; [|split; [|split; [|split]]].
      * split; [intros [s Hs]; discriminate Hs | intros [Hf _]; discriminate Hf].
      * split; [intros [s Hs]; discriminate Hs | intros [Hf _]; discriminate Hf].
      * intros x l' H. discriminate H.
      * reflexivity.
      * exact Hlast.
  - rewrite (Pop_Await_nonempty Waiting requires fuel q x l' a HR).
    rewrite (Pop_Await_wake_nonempty Waiting requires fuel q x l' a HR).
    split; [|split; [|split; [|split]]].
    + split; [intros [s Hs]; discriminate Hs | intros [_ H]; discriminate H].
    + split; [intros [s Hs]; discriminate Hs | intros [_ H]; discriminate H].
    + intros x0 l0 H. injection H as <- <-.
      split; [done|]. split; [done|]. split.
      * by eapply Pop_post_Rep.
      * by eapply terminal_flag_Pop_post.
    + intros H. discriminate H.
    + exact Hlast.
Qed.

(** C9. [End_PopWaiting] and [Reset_PopWaiting] only set and clear the high
    bit of the size counter: [size()], [empty()], the two indices, the
    storage and its contents, the capacity and [indexEnd] are the same before
    and after either call, for every state; afterwards the terminal flag is
    set, respectively clear; and a ring that holds [l] still holds [l]. *)
Theorem C9_wait_control_frame
    (Waiting : WaitPolicy) (requires : sPopAwait Waiting = true) q :
  let qe := End_PopWaiting Waiting requires q in
  let qr := Reset_PopWaiting Waiting requires q in
  (size qe = size q /\ empty qe = empty q /\
   mPushIndex qe = mPushIndex q /\ mPopIndex qe = mPopIndex q /\
   mStorage qe = mStorage q /\ mStorage_mem qe = mStorage_mem q /\
   mCapacity qe = mCapacity q /\ mIndexEnd qe = mIndexEnd q /\
   terminal_flag qe = true) /\
  (size qr = size q /\ empty qr = empty q /\
   mPushIndex qr = mPushIndex q /\ mPopIndex qr = mPopIndex q /\
   mStorage qr = mStorage q /\ mStorage_mem qr = mStorage_mem q /\
   mCapacity qr = mCapacity q /\ mIndexEnd qr = mIndexEnd q /\
   terminal_flag qr = false) /\
  (forall l, Rep q l -> Rep qe l /\ Rep qr l).
Proof.
  cbv zeta. split; [|split].
  - pose proof (size_End_PopWaiting Waiting requires q) as Hs.
    unfold empty. rewrite Hs. repeat split.
    apply testbit31_lor_mask.
  - pose proof (size_Reset_PopWaiting Waiting requires q) as Hs.
    unfold empty. rewrite Hs. repeat split.
    apply testbit31_land_mask.
  - intros l HR. split.
    + by apply End_PopWaiting_Rep.
    + by apply Reset_PopWaiting_Rep.
Qed.

(** C8. [Free] needs an allocated and empty queue.  On an unallocated queue
    it aborts with "No memory to free!", on an allocated queue that is not
    empty with "Can't free until empty!", and it aborts in no other case.
    A successful [Free] hands the storage pointer to the allocator's [Free]
    and leaves the queue unallocated: [Is_Allocated] is false, the pointer is
    null and the capacity is 0 (the indices and the size counter stay).
    [empty()] is true exactly when the ring holds no element. *)
Theorem C8_Free_requires_allocated_and_empty
    {A} `{Allocator A} q (aAllocator : A) :
  (Is_Allocated q = false -> Free q aAllocator = Abort "No memory to free!") /\
  (Is_Allocated q = true -> empty q = false ->
     Free q aAllocator = Abort "Can't free until empty!") /\
  ((exists message, Free q aAllocator = Abort message)
   <-> ~ (Is_Allocated q = true /\ empty q = true)) /\
  (Is_Allocated q = true -> empty q = true ->
     exists q',
       Free q aAllocator = Ok (q', alloc_Free aAllocator (mStorage q)) /\
       Is_Allocated q' = false /\ mStorage q' = None /\
       mStorage_mem q' = [] /\ mCapacity q' = 0 /\
       mPushIndex q' = mPushIndex q /\ mPopIndex q' = mPopIndex q /\
       mSize q' = mSize q) /\
  (forall l, Rep q l -> (empty q = true <-> l = [])).
Proof.
  unfold Free, Assert.
  destruct (Is_Allocated q) eqn:Ha, (empty q) eqn:He.
  - split; [done|]. split; [done|]. split; [|split].
    + split; [intros [m Hm]; discriminate Hm | intros Hn; destruct Hn; done].
    + intros _ _. eexists. split; [reflexivity|]. done.
    + intros l HR. rewrite <- (empty_Rep q l HR), He. done.
  - split; [done|]. split; [done|]. split; [|split].
    + split; [intros _ [_ Hn]; discriminate Hn | intros _; by eexists].
    + intros _ Hn. discriminate Hn.
    + intros l HR. rewrite <- (empty_Rep q l HR), He. done.
  - split; [done|]. split; [done|]. split; [|split].
    + split; [intros _ [Hn _]; discriminate Hn | intros _; by eexists].
    + intros Hn. discriminate Hn.
    + intros l HR. rewrite <- (empty_Rep q l HR), He. done.
  - split; [done|]. split; [done|]. split; [|split].
    + split; [intros _ [Hn _]; discriminate Hn | intros _; by eexists].
    + intros Hn. discriminate Hn.
    + intros l HR. rewrite <- (empty_Rep q l HR), He. done.
Qed.

(** C6, as amended.  When the allocator returns the null sentinel,
    [Allocate] does not return: its assertion aborts the program with
    "Memory allocation failed!", so a null result is a fatal contract
    violation like the others.  Only a failure that the allocator raises
    itself reaches the caller, with the queue as it was before the call. *)
Theorem C6_null_allocation_aborts
    (sizeof_DataType alignof_DataType : Z) {A} `{Allocator A}
    q (aAllocator a' : A) (aCapacity : Z) :
  Is_Allocated q = false -> 0 < aCapacity ->
  (alloc_Allocate aAllocator (aCapacity * sizeof_DataType)
     (Z.max sAlign alignof_DataType) = (a', Returned None) ->
   Allocate sizeof_DataType alignof_DataType q aAllocator aCapacity
   = Abort "Memory allocation failed!") /\
  (forall what,
     alloc_Allocate aAllocator (aCapacity * sizeof_DataType)
       (Z.max sAlign alignof_DataType) = (a', Raised what) ->
     Allocate sizeof_DataType alignof_DataType q aAllocator aCapacity
     = Throw what (q, a')).
Proof.
  intros Ha Hc. unfold Allocate, Assert. rewrite Ha. cbn [negb].
  destruct (Z.ltb_spec 0 aCapacity); [|lia].
  split.
  - intros ->. reflexivity.
  - intros what ->. reflexivity.
Qed.


(** C10, as amended.  With an output container whose spare capacity
    [capacity() - size()] fits in an [int], [Pop_Multiple] on a ring holding
    [l] takes [k = min(spare capacity, length l)] elements: the container
    gets the [k] oldest elements appended in order and keeps its capacity,
    the size goes down by [k], and the storage is that of the ring holding
    the remaining elements.  In particular with no spare capacity nothing is
    appended and the queue is unchanged, even when it is not empty.  When
    [popIndex + k] does not leave the [int] range the queue reached
    represents the remaining elements. *)
Theorem C10_Pop_Multiple_takes_min q l (aPopped : @Container DataType) :
  Rep q l ->
  0 <= capacity aPopped - Container_size aPopped <= Int.INT_MAX ->
  let k := Z.min (capacity aPopped - Container_size aPopped)
             (Z.of_nat (length l)) in
  let q' := (Pop_Multiple q aPopped).1 in
  let aPopped' := (Pop_Multiple q aPopped).2 in
  items aPopped' = items aPopped ++ take (Z.to_nat k) l /\
  capacity aPopped' = capacity aPopped /\
  Container_size aPopped' = Container_size aPopped + k /\
  Container_size aPopped' <= capacity aPopped /\
  mSize q' = mSize q - k /\
  size q' = size q - k /\
  mStorage_mem q'
    = ring_image (drop (Z.to_nat k) l) (mPopIndex q + k) (mCapacity q) /\
  mPushIndex q' = mPushIndex q /\
  (capacity aPopped = Container_size aPopped ->
   Pop_Multiple q aPopped = (q, aPopped)) /\
  (mPopIndex q + k <= Int.INT_MAX -> Rep q' (drop (Z.to_nat k) l)).
Proof.
  intros HR Hs k q' aPopped'.
  pose proof (Pop_Multiple_eval q l aPopped HR Hs) as He. fold k in He.
  pose proof (Rep_arith q l HR) as (Hn0 & HP & HQ & Hd & Hsz).
  pose proof (Allocated_bounds q (rep_alloc _ _ HR)) as (HC & HE & _).
  subst q' aPopped'. rewrite He. cbn [fst snd items capacity].
  assert (Hlen : Z.of_nat (length (take (Z.to_nat k) l)) = k).
  { rewrite length_take. lia. }
  split; [done|]. split; [done|]. split; [|split; [|split; [|split]]].
  - unfold Container_size. cbn [items]. rewrite length_app. lia.
  - unfold Container_size in *. cbn [items]. rewrite length_app. lia.
  - done.
  - unfold size. cbn [Pop_Multiple_post mSize]. rewrite !land_low31.
    pose proof (size_Rep q l HR) as Hsq. unfold size in Hsq.
    rewrite land_low31 in Hsq. rewrite Hsq.
    apply mod_pm; [unfold Int.INT_MAX in *; lia|].
    unfold Int.INT_MAX in *. lia.
  - split; [done|]. split; [done|]. split.
    + intros Hz. assert (k = 0) as Hk by lia. clearbody k. subst k.
      change (Z.to_nat 0) with 0%nat. rewrite take_0, app_nil_r.
      f_equal; [|by destruct aPopped].
      unfold Pop_Multiple_post. change (Z.to_nat 0) with 0%nat.
      rewrite drop_0, Z.add_0_r, Z.sub_0_r, <- (rep_mem _ _ HR).
      rewrite Increase_Index_eq by int_range. rewrite Z.add_0_r.
      destruct (Z.geb_spec (mPopIndex q) (mIndexEnd q)); [lia|].
      rewrite Z.sub_0_r, wrap32_id by int_range. by destruct q.
    + intros Hmax. apply Pop_Multiple_post_Rep; [done | lia | done].
Qed.

End Claims.

(** ** The claims at concrete states *)

Lemma C1_Emplace_fails_iff_full_witness :
  Rep fresh3 [] /\
  (Emplace fresh3 42).2 = true.
Proof.
  split; [evaluate|].
  apply (C1_Emplace_fails_iff_full fresh3 [] 42); evaluate.
Defined.

Lemma C2_fifo_across_wrap_around_witness :
  Rep near_wrap_empty [] /\
  (run near_wrap_empty 0 (cycles [10; 20; 30; 40])).2
  = cycles_obs [10; 20; 30; 40].
Proof.
  split; [evaluate|].
  refine (proj1 (proj2 (proj2
            (C2_fifo_across_wrap_around near_wrap_empty [] 0
               (cycles [10; 20; 30; 40]) _))
            1 1 [10; 20; 30; 40] eq_refl eq_refl _ _)); evaluate.
Defined.

Lemma C5_Pop_Await_false_iff_closed_and_empty_witness :
  Rep one_live [5] /\
  exists q',
    Pop_Await_calls PopAwait eq_refl 2
      (End_PopWaiting PopAwait eq_refl one_live) 0
    = ([5], Some (Finished (q', 5) false)) /\ Rep q' [].
Proof.
  split; [evaluate|].
  refine (proj2 (proj2 (proj2 (proj2
            (C5_Pop_Await_false_iff_closed_and_empty PopAwait eq_refl 0
               one_live [5] 0 _))))); evaluate.
Defined.

Lemma C9_wait_control_frame_witness :
  sPopAwait BothAwait = true /\
  size (End_PopWaiting BothAwait eq_refl one_live)
  = size one_live.
Proof.
  split; [reflexivity|].
  exact (proj1 (proj1 (C9_wait_control_frame BothAwait eq_refl
                         one_live))).
Defined.

(** C3.  The scenario holds: on a new queue of capacity 3,
    [Emplace_Multiple] of [1,2,3,4,5] moves three elements inside the span
    and the buffer and returns the remainder [4,5], [size()] is 3, and
    [Pop_Multiple] into an empty container with room then yields [1,2,3].
    The general statement fails near the wrap of the indices: in the
    reachable state with [popIndex = indexEnd - 1], [pushIndex = 0] and one
    element, two slots are free, and for the span [4,5] the sum
    [popIndex + capacity] leaves the [int] range.  The count to push comes
    out as [INT_MIN], not 2, and the two moves that follow ask for 3
    elements of the 2-element span and then for 2147483645 elements, from
    past the end of the span, into the 3 slots of the buffer: the call is
    undefined and returns no remainder. *)
Theorem C3_Emplace_Multiple_scenario_and_near_wrap :
  (Emplace_Multiple_defined fresh3 [1; 2; 3; 4; 5] = true /\
   Emplace_Multiple fresh3 [1; 2; 3; 4; 5]
   = (mkQueue 3 0 3 (Some 1%positive) [Some 1; Some 2; Some 3] 3 2147483646,
      [4; 5]) /\
   size (Emplace_Multiple fresh3 [1; 2; 3; 4; 5]).1 = 3 /\
   (Pop_Multiple (Emplace_Multiple fresh3 [1; 2; 3; 4; 5]).1
      (mkContainer [] 3)).2 = mkContainer [1; 2; 3] 3) /\
  (Reachable NoWaits near_wrap_one /\
   Rep near_wrap_one [9] /\
   Z.min (Z.of_nat (length [4; 5]))
     (mCapacity near_wrap_one - size near_wrap_one) = 2 /\
   mPopIndex near_wrap_one + mCapacity near_wrap_one = Int.INT_MAX + 1 /\
   Emplace_Multiple_cNumToPush near_wrap_one [4; 5] = Int.INT_MIN /\
   Emplace_Multiple_moves near_wrap_one [4; 5]
   = [mkMoveCall 0 3 0; mkMoveCall 3 2147483645 0] /\
   move_defined 2 3 (mkMoveCall 0 3 0) = false /\
   move_defined 2 3 (mkMoveCall 3 2147483645 0) = false /\
   Emplace_Multiple_defined near_wrap_one [4; 5] = false).
Proof.
  split.
  - evaluate.
  - split; [apply Reachable_near_wrap_one|].
    split; [apply Rep_near_wrap_one|].
    repeat split; reflexivity.
Qed.

(** C4.  The batch operations do not keep the invariants near the wrap of
    the indices.  In the reachable empty state with both indices at
    [indexEnd - 1] (capacity 3) the invariants hold, and [Emplace_Multiple]
    of three elements leaves the push index at [INT_MIN]: [Increase_Index]
    adds the count to the index before it subtracts [indexEnd], and the sum
    leaves the [int] range.  In the reachable full state with the pop index
    at [indexEnd - 1], [Pop_Multiple] of three elements leaves the pop index at
    [INT_MIN] in the same way. *)
Theorem C4_batch_operations_break_invariants_near_wrap :
  (Reachable NoWaits near_wrap_empty /\
   Allocated near_wrap_empty /\ IndexInv near_wrap_empty /\
   mPushIndex near_wrap_empty + 3 = Int.INT_MAX + 1 /\
   mPushIndex (Emplace_Multiple near_wrap_empty [1; 2; 3]).1 = Int.INT_MIN /\
   ~ IndexInv (Emplace_Multiple near_wrap_empty [1; 2; 3]).1) /\
  (Reachable NoWaits near_wrap_full /\
   Allocated near_wrap_full /\ IndexInv near_wrap_full /\
   mPopIndex near_wrap_full + 3 = Int.INT_MAX + 1 /\
   mPopIndex (Pop_Multiple near_wrap_full (mkContainer [] 3)).1
     = Int.INT_MIN /\
   ~ IndexInv (Pop_Multiple near_wrap_full (mkContainer [] 3)).1).
Proof.
  split.
  - split; [apply Reachable_near_wrap_empty|].
    split; [evaluate|]. split; [evaluate|]. split; [reflexivity|].
    split; [reflexivity|].
    intros [Hp _ _ _]. vm_compute in Hp. by destruct Hp as [Hp _].
  - split; [apply Reachable_near_wrap_full|].
    split; [evaluate|]. split; [evaluate|]. split; [reflexivity|].
    split; [reflexivity|].
    intros [_ Hp _ _]. vm_compute in Hp. by destruct Hp as [Hp _].
Qed.

(** Counterexample to C6: the README's allocator returns null and [Allocate]
    aborts; nothing is handed to the caller. *)
Lemma C6_counterexample :
  Allocate 4 4 (@Queue_default Z) failing_allocator 3
  = Abort "Memory allocation failed!" /\
  (forall what s,
     Allocate 4 4 (@Queue_default Z) failing_allocator 3 <> Throw what s) /\
  (forall s, Allocate 4 4 (@Queue_default Z) failing_allocator 3 <> Ok s).
Proof. split; [reflexivity|]. split; intros; discriminate. Qed.

Lemma C6_null_allocation_aborts_witness :
  Is_Allocated (@Queue_default Z) = false /\ 0 < 3 /\
  Allocate 4 4 (@Queue_default Z) failing_allocator 3
  = Abort "Memory allocation failed!" /\
  Allocate 4 4 (@Queue_default Z) (TestAllocator.mk [] [None]) 3
  = Throw "std::bad_alloc" (Queue_default, TestAllocator.mk [] []).
Proof.
  split; [reflexivity|]. split; [lia|]. split.
  - apply (proj1 (C6_null_allocation_aborts 4 4 Queue_default failing_allocator
                    (SimpleAllocator.mk [] []) 3 eq_refl ltac:(lia))).
    reflexivity.
  - apply (proj2 (C6_null_allocation_aborts 4 4 Queue_default
                    (TestAllocator.mk [] [None]) (TestAllocator.mk [] []) 3
                    eq_refl ltac:(lia))).
    reflexivity.
Defined.



Lemma C8_Free_requires_allocated_and_empty_witness :
  Is_Allocated fresh3 = true /\ empty fresh3 = true /\
  exists q',
    Free fresh3 (SimpleAllocator.mk [] [])
    = Ok (q', SimpleAllocator.mk [] [Some 1%positive]) /\
    Is_Allocated q' = false /\ mCapacity q' = 0.
Proof.
  split; [reflexivity|]. split; [reflexivity|].
  destruct (proj1 (proj2 (proj2 (proj2
              (C8_Free_requires_allocated_and_empty fresh3
                 (SimpleAllocator.mk [] [])))))
              eq_refl eq_refl) as (q' & H1 & H2 & _ & _ & H3 & _).
  exists q'. split; [exact H1|]. split; [exact H2 | exact H3].
Defined.

(** Counterexample to C10: the ring holds one element and the container has
    spare capacity 4294967296, so the minimum of the two is 1; the spare
    capacity converted to [int] is 0 and nothing is popped. *)
Lemma C10_counterexample :
  Reachable NoWaits one_live /\
  Rep one_live [5] /\
  Z.min (Z.of_nat (length [5]))
    (capacity huge_container - Container_size huge_container) = 1 /\
  Pop_Multiple one_live huge_container = (one_live, huge_container).
Proof. split; [apply Reachable_one_live | evaluate]. Qed.

Lemma C10_Pop_Multiple_takes_min_witness :
  Rep near_wrap_full [1; 2; 3] /\
  0 <= 2 - 0 <= Int.INT_MAX /\
  items (Pop_Multiple near_wrap_full (mkContainer [] 2)).2 = [1; 2] /\
  Rep (Pop_Multiple near_wrap_full (mkContainer [] 2)).1 [3].
Proof.
  split; [evaluate|]. split; [evaluate|].
  pose proof (C10_Pop_Multiple_takes_min near_wrap_full [1; 2; 3]
                (mkContainer [] 2) ltac:(evaluate) ltac:(evaluate)) as H.
  cbv zeta in H. split.
  - exact (proj1 H).
  - apply (proj2 (proj2 (proj2 (proj2 (proj2 (proj2 (proj2 (proj2
             (proj2 H))))))))). evaluate.
Defined.

(** * Further properties of the queue and of the test allocator *)

Section MoreQueueFacts.
Context {DataType : Type}.
Implicit Types (q : @Queue DataType) (l : list DataType).

(** X1. A single-element pop on an allocated queue returns [false] iff the
    ring is empty, and then changes neither the queue nor [aPopped].
    Otherwise it returns [true] with the oldest element in [aPopped], the
    slot [popIndex mod capacity] is raw bytes again and no other slot
    changes, the pop index advances by one with the wrap to zero at
    [indexEnd], the push index stays, the size goes down by one and the ring
    holds the remaining elements. *)
Theorem Pop_fails_iff_empty q l (aPopped : DataType) :
  Rep q l ->
  ((Pop q aPopped).2 = false <-> l = []) /\
  (l = [] -> Pop q aPopped = (q, aPopped, false)) /\
  (forall x l', l = x :: l' ->
     let q' := (Pop q aPopped).1.1 in
     Pop q aPopped = (q', x, true) /\
     mStorage_mem q' !! Z.to_nat (mPopIndex q mod mCapacity q) = Some None /\
     (forall j : nat, j <> Z.to_nat (mPopIndex q mod mCapacity q) ->
        mStorage_mem q' !! j = mStorage_mem q !! j) /\
     mPopIndex q'
       = (if mPopIndex q + 1 <? mIndexEnd q then mPopIndex q + 1 else 0) /\
     mPushIndex q' = mPushIndex q /\
     mSize q' = mSize q - 1 /\
     size q' = size q - 1 /\
     Rep q' l').
Proof.
  intros HR.
  pose proof (Rep_arith q l HR) as (Hn0 & HP & HQ & Hd & Hs).
  pose proof (Allocated_bounds q (rep_alloc _ _ HR)) as (HC & HE & _).
  destruct l as [|x l'].
  - rewrite (Pop_empty q aPopped HR). split; [done|]. split; [done|].
    intros x l' H. discriminate H.
  - rewrite (Pop_nonempty q x l' aPopped HR). cbn [fst snd].
    split; [split; intros H; discriminate H|].
    split; [intros H; discriminate H|].
    intros x0 l0 H. injection H as <- <-.
    pose proof (Pop_post_Rep q x l' HR) as HR'.
    pose proof (Z.mod_pos_bound (mPopIndex q) (mCapacity q) ltac:(lia)).
    split; [done|].
    split; [|split; [|split; [|split; [|split; [|split]]]]]; try done.
    + cbn. apply list_lookup_insert_eq.
      rewrite (al_mem _ (rep_alloc _ _ HR)). lia.
    + intros j Hj. cbn. by apply list_lookup_insert_ne.
    + cbn. apply Bump_Index_eq; lia.
    + rewrite (size_Rep _ _ HR'), (size_Rep _ _ HR). cbn [length]. lia.
Qed.

End MoreQueueFacts.

Section BatchMore.
Context {DataType : Type}.
Implicit Types (q : @Queue DataType) (l : list DataType).

(** [Emplace_Multiple] when the index sums stay in the [int] range. *)
Lemma Emplace_Multiple_in_range q l (aSpan : list DataType) :
  Rep q l ->
  Z.of_nat (length aSpan) <= Int.INT_MAX ->
  mPushIndex q <= Int.INT_MAX - mCapacity q ->
  mPopIndex q <= Int.INT_MAX - mCapacity q ->
  let k := Z.to_nat (Z.min (Z.of_nat (length aSpan))
                       (mCapacity q - Z.of_nat (length l))) in
  Emplace_Multiple q aSpan
  = (Emplace_Multiple_post q l (take k aSpan), drop k aSpan) /\
  Rep (Emplace_Multiple_post q l (take k aSpan)) (l ++ take k aSpan) /\
  length (take k aSpan) = k.
Proof.
  intros HR Hs HP HQ k.
  pose proof (Rep_arith q l HR) as (Hn0 & HP' & HQ' & Hd & Hsz).
  pose proof (Allocated_bounds q (rep_alloc _ _ HR)) as (HC & HE & _).
  pose proof (Emplace_Multiple_eval q l aSpan HR Hs ltac:(lia)) as He.
  cbv zeta in He. fold k in He.
  assert (Hlen : length (take k aSpan) = k) by (rewrite length_take; lia).
  split; [done|]. split; [|done].
  apply Emplace_Multiple_post_Rep; [done | lia | lia].
Qed.

(** X2. Away from the wrap of the indices (both at most
    [INT_MAX - capacity]) and for a span whose length fits in an [int],
    [Emplace_Multiple] pushes [k = min(span length, free slots)] elements:
    it returns the rest of the span, the size goes up by [k], and the ring
    holds the first [k] elements of the span behind the old ones, in the
    order of the span.  In particular a full ring and an empty span leave
    the queue as it is and give the span back. *)
Theorem Emplace_Multiple_away_from_wrap q l (aSpan : list DataType) :
  Rep q l ->
  Z.of_nat (length aSpan) <= Int.INT_MAX ->
  mPushIndex q <= Int.INT_MAX - mCapacity q ->
  mPopIndex q <= Int.INT_MAX - mCapacity q ->
  let k := Z.to_nat (Z.min (Z.of_nat (length aSpan))
                       (mCapacity q - Z.of_nat (length l))) in
  let q' := (Emplace_Multiple q aSpan).1 in
  (Emplace_Multiple q aSpan).2 = drop k aSpan /\
  Rep q' (l ++ take k aSpan) /\
  size q' = size q + Z.of_nat k /\
  mPopIndex q' = mPopIndex q /\
  (k = 0%nat -> Emplace_Multiple q aSpan = (q, aSpan)).
Proof.
  intros HR Hs HP HQ k q'.
  destruct (Emplace_Multiple_in_range q l aSpan HR Hs HP HQ)
    as (He & HR' & Hlen).
  fold k in He, HR', Hlen. subst q'. rewrite He. cbn [fst snd].
  split; [done|]. split; [done|]. split; [|split; [done|]].
  - rewrite (size_Rep _ _ HR'), (size_Rep _ _ HR), length_app. lia.
  - intros Hk. rewrite Hk in *. rewrite take_0, drop_0. f_equal.
    rewrite take_0, app_nil_r in HR'.
    pose proof (Rep_arith q l HR) as (Hn0 & HP' & HQ' & Hd & Hsz).
    pose proof (Allocated_bounds q (rep_alloc _ _ HR)) as (HC & HE & _).
    unfold Emplace_Multiple_post. cbn [length Z.of_nat].
    rewrite app_nil_r, Z.add_0_r, <- (rep_mem _ _ HR).
    rewrite Increase_Index_eq by int_range. rewrite Z.add_0_r.
    destruct (Z.geb_spec (mPushIndex q) (mIndexEnd q)); [lia|].
    rewrite Z.sub_0_r, wrap32_id by int_range. by destruct q.
Qed.

(** X3. Batch round trip.  On an empty ring away from the wrap of the
    indices, [Emplace_Multiple] of a span followed by [Pop_Multiple] into a
    container with spare capacity for [capacity] elements moves the first
    [min(span length, capacity)] elements of the span to the end of the
    container, in order, and leaves the ring empty; the rest of the span is
    what [Emplace_Multiple] returned.  A span of at most [capacity] elements
    arrives whole. *)
Theorem Emplace_Multiple_Pop_Multiple_round_trip
    q (aSpan : list DataType) (c : @Container DataType) :
  Rep q [] ->
  Z.of_nat (length aSpan) <= Int.INT_MAX ->
  mPushIndex q <= Int.INT_MAX - mCapacity q ->
  mCapacity q <= capacity c - Container_size c <= Int.INT_MAX ->
  let k := Z.to_nat (Z.min (Z.of_nat (length aSpan)) (mCapacity q)) in
  let pushed := Emplace_Multiple q aSpan in
  let popped := Pop_Multiple pushed.1 c in
  pushed.2 = drop k aSpan /\
  popped.2 = mkContainer (items c ++ take k aSpan) (capacity c) /\
  Rep popped.1 [] /\
  (Z.of_nat (length aSpan) <= mCapacity q ->
   pushed.2 = [] /\ items popped.2 = items c ++ aSpan).
Proof.
  intros HR Hs HP Hc k pushed popped.
  pose proof (Rep_arith q [] HR) as (Hn0 & HP' & HQ' & Hd & Hsz).
  pose proof (Allocated_bounds q (rep_alloc _ _ HR)) as (HC & HE & _).
  cbn [length Z.of_nat] in *.
  assert (HQ : mPopIndex q = mPushIndex q) by lia.
  destruct (Emplace_Multiple_in_range q [] aSpan HR Hs HP ltac:(lia))
    as (Hpush & HR1 & _).
  cbn [length Z.of_nat] in *. rewrite Z.sub_0_r in *. fold k in Hpush, HR1.
  fold pushed in Hpush. cbn [app] in HR1.
  assert (Hrest : pushed.2 = drop k aSpan) by (by rewrite Hpush).
  assert (Hpop : mPopIndex pushed.1 = mPopIndex q) by (by rewrite Hpush).
  replace (Emplace_Multiple_post q [] (take k aSpan)) with pushed.1 in HR1
    by (by rewrite Hpush).
  assert (Hlen : Z.of_nat (length (take k aSpan)) = Z.of_nat k)
    by (rewrite length_take; lia).
  pose proof (Pop_Multiple_eval pushed.1 (take k aSpan) c HR1 ltac:(lia))
    as He.
  cbv zeta in He. rewrite Hlen in He.
  replace (Z.min (capacity c - Container_size c) (Z.of_nat k))
    with (Z.of_nat k) in He by lia.
  rewrite Nat2Z.id in He.
  rewrite (take_ge (take k aSpan)) in He by (rewrite length_take; lia).
  fold popped in He.
  split; [done|]. split; [by rewrite He|]. split.
  - rewrite He. cbn [fst].
    pose proof (Pop_Multiple_post_Rep pushed.1 (take k aSpan) (Z.of_nat k)
                  HR1 ltac:(lia) ltac:(rewrite Hpop; lia)) as HR2.
    rewrite Nat2Z.id, drop_ge in HR2 by (rewrite length_take; lia). done.
  - intros Hfit. rewrite Hrest, He. cbn [snd items].
    replace k with (length aSpan) by lia.
    rewrite drop_all, firstn_all. done.
Qed.

End BatchMore.

Section BatchRunFacts.
Context {DataType : Type}.
Implicit Types (q : @Queue DataType) (l : list DataType).

Lemma pushes_of_nonneg (op : @BatchOp DataType) : 0 <= pushes_of op.
Proof. destruct op; cbn; lia. Qed.

Lemma total_pushes_nonneg (ops : list (@BatchOp DataType)) :
  0 <= total_pushes ops.
Proof.
  induction ops as [|op ops IH]; cbn; [lia|].
  pose proof (pushes_of_nonneg op). lia.
Qed.

(** One call of the code against one step of the bounded FIFO, while the
    push index has not wrapped. *)
Lemma batch_step_refines q l (a : DataType) (op : BatchOp) :
  Rep q l ->
  mPopIndex q <= mPushIndex q ->
  mPushIndex q + pushes_of op < mIndexEnd q ->
  container_fits op ->
  let r := batch_step q a op in
  let s := fifo_batch_step (mCapacity q) l op in
  r.2 = s.2 /\ Rep r.1.1 s.1 /\
  mPopIndex r.1.1 <= mPushIndex r.1.1 /\
  mPushIndex r.1.1 <= mPushIndex q + pushes_of op /\
  mCapacity r.1.1 = mCapacity q /\ mIndexEnd r.1.1 = mIndexEnd q.
Proof.
  intros HR Hnw Hb Hfit.
  pose proof (Rep_arith q l HR) as (Hn0 & HP & HQ & Hd & Hsz).
  pose proof (Allocated_bounds q (rep_alloc _ _ HR)) as (HC & HE & _).
  unfold Int.INT_MAX in *.
  assert (Hn : mPushIndex q - mPopIndex q = Z.of_nat (length l)) by lia.
  clear Hd. destruct op as [v| |aSpan|c]; cbn [pushes_of] in *; cbv zeta;
    cbn [batch_step fifo_batch_step].
  - destruct (Z.ltb_spec (Z.of_nat (length l)) (mCapacity q)) as [Hlt | Hge].
    + rewrite (Emplace_not_full q l v HR Hlt). cbn [fst snd].
      pose proof (Emplace_post_Rep q l v HR Hlt) as HR'.
      split; [done|]. split; [done|]. cbn.
      rewrite Bump_Index_eq by (unfold Int.INT_MAX; lia).
      destruct (Z.ltb_spec (mPushIndex q + 1) (mIndexEnd q));
        repeat split; (done || lia).
    + rewrite (Emplace_full q l v HR) by lia. cbn [fst snd].
      split; [done|]. split; [done|]. repeat split; (done || lia).
  - destruct l as [|x l'].
    + rewrite (Pop_empty q a HR). cbn [fst snd].
      split; [done|]. split; [done|]. repeat split; (done || lia).
    + rewrite (Pop_nonempty q x l' a HR). cbn [fst snd].
      pose proof (Pop_post_Rep q x l' HR) as HR'. cbn [length] in *.
      split; [done|]. split; [done|]. cbn.
      rewrite Bump_Index_eq by (unfold Int.INT_MAX; lia).
      destruct (Z.ltb_spec (mPopIndex q + 1) (mIndexEnd q));
        repeat split; (done || lia).
  - rewrite (Emplace_Multiple_eval q l aSpan HR) by (unfold Int.INT_MAX; lia).
    cbn [fst snd].
    set (k := Z.to_nat (Z.min (Z.of_nat (length aSpan))
                          (mCapacity q - Z.of_nat (length l)))).
    assert (Hlen : Z.of_nat (length (take k aSpan)) = Z.of_nat k)
      by (rewrite length_take; lia).
    split; [done|]. split.
    { apply Emplace_Multiple_post_Rep; [done | lia | unfold Int.INT_MAX; lia]. }
    cbn.
    destruct (Increase_Index_cases q (mPushIndex q)
                (Z.of_nat (length (take k aSpan))))
      as [[_ ->] | [Hge _]]; unfold Int.INT_MAX;
      repeat split; (done || lia).
  - cbn in Hfit.
    rewrite (Pop_Multiple_eval q l c HR) by done. cbn [fst snd].
    set (kz := Z.min (capacity c - Container_size c) (Z.of_nat (length l))).
    split; [done|]. split.
    { apply Pop_Multiple_post_Rep; [done | lia | unfold Int.INT_MAX; lia]. }
    cbn.
    destruct (Increase_Index_cases q (mPopIndex q) kz)
      as [[_ ->] | [Hge _]]; unfold Int.INT_MAX;
      repeat split; (done || lia).
Qed.

(** X4. From a state whose push index has not wrapped, and as long as the
    push index cannot reach [indexEnd] (it grows by at most the number of
    elements offered), any sequence of [Emplace], [Pop], [Emplace_Multiple]
    and [Pop_Multiple] calls is observed as on a FIFO list bounded by the
    capacity: single and batch calls see one order, a batch push takes
    [min(span length, free slots)] elements and returns the rest, and a batch
    pop moves [min(spare capacity, elements held)] of the oldest elements.
    In particular this holds from a newly allocated queue for every sequence
    that offers fewer than [indexEnd] elements.  (With the pop index near
    [indexEnd] the sum [popIndex + capacity] of [Emplace_Multiple] leaves the
    [int] range; the subtraction of the push index that follows wraps back,
    and the count is the one stated.) *)
Theorem run_batch_refines (ops : list BatchOp) : forall q l (a : DataType),
  Rep q l ->
  mPopIndex q <= mPushIndex q ->
  mPushIndex q + total_pushes ops < mIndexEnd q ->
  Forall container_fits ops ->
  (run_batch q a ops).2 = (fifo_batch_run (mCapacity q) l ops).2 /\
  Rep (run_batch q a ops).1 (fifo_batch_run (mCapacity q) l ops).1.
Proof.
  induction ops as [|op ops IH]; intros q l a HR Hnw Hb Hfit; [done|].
  cbn [total_pushes] in Hb.
  pose proof (total_pushes_nonneg ops) as Ht.
  pose proof (pushes_of_nonneg op) as Hp.
  inversion Hfit as [|? ? Hfit1 Hfit2]; subst.
  destruct (batch_step_refines q l a op HR Hnw ltac:(lia) Hfit1)
    as (Hobs & HR' & Hnw' & Hb' & HC & HE).
  cbn [run_batch fifo_batch_run].
  destruct (batch_step q a op) as [[q' a'] o].
  destruct (fifo_batch_step (mCapacity q) l op) as [l' o'].
  cbn [fst snd] in *.
  destruct (IH q' l' a' HR' Hnw' ltac:(lia) Hfit2) as [IH1 IH2].
  rewrite HC in IH1, IH2.
  destruct (run_batch q' a' ops) as [q'' obs].
  destruct (fifo_batch_run (mCapacity q) l' ops) as [l'' obs'].
  cbn [fst snd] in *. split; [congruence | done].
Qed.

End BatchRunFacts.

Section Conservation.
Context {DataType : Type}.
Implicit Types (q : @Queue DataType) (l : list DataType).

Lemma popped_values_push (ok : bool) (obs : list (@Obs DataType)) :
  popped_values (ObsPush ok :: obs) = popped_values obs.
Proof. reflexivity. Qed.

Lemma popped_values_pop (r : option DataType) (obs : list (@Obs DataType)) :
  popped_values (ObsPop r :: obs)
  = match r with Some x => x :: popped_values obs | None => popped_values obs end.
Proof. by destruct r. Qed.

Lemma fifo_run_conserves (cap : Z) (ops : list Op) : forall l,
  l ++ pushed_values ops (fifo_run cap l ops).2
  = popped_values (fifo_run cap l ops).2 ++ (fifo_run cap l ops).1.
Proof.
  induction ops as [|op ops IH]; intros l.
  - cbn. by rewrite app_nil_r.
  - cbn [fifo_run]. destruct op as [v|]; cbn [fifo_step].
    + destruct (Z.of_nat (length l) <? cap).
      * specialize (IH (l ++ [v])).
        destruct (fifo_run cap (l ++ [v]) ops) as [l'' obs].
        cbn [fst snd pushed_values] in *. rewrite popped_values_push.
        rewrite <- IH, <- app_assoc. done.
      * specialize (IH l). destruct (fifo_run cap l ops) as [l'' obs].
        cbn [fst snd pushed_values] in *. by rewrite popped_values_push.
    + destruct l as [|x l'].
      * specialize (IH []). destruct (fifo_run cap [] ops) as [l'' obs].
        cbn [fst snd pushed_values] in *. by rewrite popped_values_pop.
      * specialize (IH l'). destruct (fifo_run cap l' ops) as [l'' obs].
        cbn [fst snd pushed_values] in *. rewrite popped_values_pop.
        cbn [app]. by rewrite IH.
Qed.

(** X5. Nothing is lost, duplicated or reordered.  After any sequence of
    [Emplace] and [Pop] calls on an allocated queue, the elements held at
    the start followed by the values of the pushes that returned [true] are
    the values that the pops returned followed by the elements held at the
    end, in this order; and [size()] has grown by the number of successful
    pushes minus the number of successful pops. *)
Theorem run_conserves_elements q l (a : DataType) (ops : list Op) :
  Rep q l ->
  let obs := (run q a ops).2 in
  exists l',
    Rep (run q a ops).1 l' /\
    l ++ pushed_values ops obs = popped_values obs ++ l' /\
    size (run q a ops).1
    = size q + Z.of_nat (length (pushed_values ops obs))
      - Z.of_nat (length (popped_values obs)).
Proof.
  intros HR obs. destruct (run_refines ops q l a HR) as [Hobs HR'].
  exists (fifo_run (mCapacity q) l ops).1.
  pose proof (fifo_run_conserves (mCapacity q) ops l) as Hc.
  subst obs. rewrite Hobs. split; [done|]. split; [done|].
  rewrite (size_Rep _ _ HR'), (size_Rep _ _ HR).
  apply (f_equal length) in Hc. rewrite !length_app in Hc. lia.
Qed.

End Conservation.

Section AwaitFacts.
Context {DataType : Type}.
Variable Waiting : WaitPolicy.
Implicit Types (q : @Queue DataType) (l : list DataType).

Lemma terminal_flag_Emplace_post q l (v : DataType) :
  Rep q l -> Z.of_nat (length l) < mCapacity q ->
  terminal_flag (Emplace_post q v) = terminal_flag q.
Proof.
  intros HR Hn. pose proof (Rep_mSize q _ HR) as Hs.
  pose proof (Rep_mSize _ _ (Emplace_post_Rep q l v HR Hn)) as Hs'.
  cbn [mSize Emplace_post] in *. rewrite length_app in Hs'. cbn [length] in *.
  pose proof (Rep_arith q _ HR) as (Hn0 & _).
  pose proof (Allocated_bounds q (rep_alloc _ _ HR)) as (HC & _).
  destruct (terminal_flag q), (terminal_flag (Emplace_post q v)); try done; lia.
Qed.

(** [Emplace_Await] retrying in a state that does not change. *)
Lemma Emplace_Await_spins (requires : sPushAwait Waiting = true)
    q (v : DataType) :
  Emplace q v = (q, false) -> mSize q <> mCapacity q ->
  forall fuel, Emplace_Await Waiting requires fuel q v = None.
Proof.
  intros He Hs fuel. induction fuel as [|fuel IH]; [done|].
  cbn [Emplace_Await]. rewrite He.
  destruct (Z.eqb_spec (mSize q) (mCapacity q)); [done | exact IH].
Qed.

(** X6. [Emplace_Await] on an allocated queue.  With a free slot it pushes
    and returns.  On a full ring whose terminal flag is clear the counter
    equals the capacity and the call sleeps in [wait].  On a full ring whose
    terminal flag is set the counter differs from the capacity by the flag
    bit, so [wait] returns at once: the call neither sleeps nor returns but
    retries for as long as nothing is popped. *)
Theorem Emplace_Await_behaviour (requires : sPushAwait Waiting = true)
    (fuel : nat) q l (v : DataType) :
  Rep q l ->
  (Z.of_nat (length l) < mCapacity q ->
   Emplace_Await Waiting requires (S fuel) q v
   = Some (Finished (Emplace_post q v) tt) /\
   Rep (Emplace_post q v) (l ++ [v])) /\
  (Z.of_nat (length l) = mCapacity q -> terminal_flag q = false ->
   Emplace_Await Waiting requires (S fuel) q v = Some (Waits q)) /\
  (Z.of_nat (length l) = mCapacity q -> terminal_flag q = true ->
   forall fuel', Emplace_Await Waiting requires fuel' q v = None).
Proof.
  intros HR.
  pose proof (Rep_mSize q l HR) as Hs.
  pose proof (Allocated_bounds q (rep_alloc _ _ HR)) as (HC & _).
  split; [|split].
  - intros Hn. cbn [Emplace_Await]. rewrite (Emplace_not_full q l v HR Hn).
    split; [done|]. by apply Emplace_post_Rep.
  - intros Hn Hf. cbn [Emplace_Await]. rewrite (Emplace_full q l v HR Hn).
    rewrite Hf in Hs. rewrite Hs, Hn, Z.eqb_refl. done.
  - intros Hn Hf. apply Emplace_Await_spins.
    + by apply (Emplace_full q l v HR).
    + rewrite Hf in Hs. lia.
Qed.

Lemma Pop_Multiple_post_zero q l : Rep q l -> Pop_Multiple_post q l 0 = q.
Proof.
  intros HR.
  pose proof (Rep_arith q l HR) as (Hn0 & HP & HQ & Hd & Hsz).
  pose proof (Allocated_bounds q (rep_alloc _ _ HR)) as (HC & HE & _).
  unfold Pop_Multiple_post. change (Z.to_nat 0) with 0%nat.
  rewrite drop_0, Z.add_0_r, Z.sub_0_r, <- (rep_mem _ _ HR).
  rewrite Increase_Index_eq by int_range. rewrite Z.add_0_r.
  destruct (Z.geb_spec (mPopIndex q) (mIndexEnd q)); [lia|].
  rewrite Z.sub_0_r, wrap32_id by int_range. by destruct q.
Qed.

Lemma Pop_Multiple_Await_spins (requires : sPopAwait Waiting = true)
    q (c : @Container DataType) :
  Pop_Multiple q c = (q, c) -> items c = [] ->
  mSize q <> 0 -> mSize q <> sSizeMask ->
  forall fuel, Pop_Multiple_Await Waiting requires fuel q c = None.
Proof.
  intros He Hi H0 Hm fuel. induction fuel as [|fuel IH]; [done|].
  cbn [Pop_Multiple_Await]. rewrite He, Hi.
  destruct (Z.eqb_spec (mSize q) 0); [done|].
  destruct (Z.eqb_spec (mSize q) sSizeMask); [done | exact IH].
Qed.

(** X7. [Pop_Multiple_Await] on an allocated queue, with a container whose
    spare capacity fits in an [int].  It returns after one [Pop_Multiple]
    whenever the container is not empty afterwards, also when nothing was
    popped because the container had elements before.  With an empty
    container and an empty ring it sleeps in [wait] if the terminal flag is
    clear and returns with nothing if it is set.  With an empty container
    without spare capacity and a ring that is not empty it pops nothing,
    [wait] returns at once, and the call retries without end. *)
Theorem Pop_Multiple_Await_behaviour (requires : sPopAwait Waiting = true)
    (fuel : nat) q l (c : @Container DataType) :
  Rep q l ->
  0 <= capacity c - Container_size c <= Int.INT_MAX ->
  let k := Z.min (capacity c - Container_size c) (Z.of_nat (length l)) in
  (items c ++ take (Z.to_nat k) l <> [] ->
   Pop_Multiple_Await Waiting requires (S fuel) q c
   = Some (Finished
             (Pop_Multiple_post q l k,
              mkContainer (items c ++ take (Z.to_nat k) l) (capacity c)) tt)) /\
  (items c = [] -> l = [] -> terminal_flag q = false ->
   Pop_Multiple_Await Waiting requires (S fuel) q c = Some (Waits (q, c))) /\
  (items c = [] -> l = [] -> terminal_flag q = true ->
   Pop_Multiple_Await Waiting requires (S fuel) q c
   = Some (Finished (q, c) tt)) /\
  (items c = [] -> capacity c = 0 -> l <> [] ->
   forall fuel', Pop_Multiple_Await Waiting requires fuel' q c = None).
Proof.
  intros HR Hs k.
  pose proof (Pop_Multiple_eval q l c HR Hs) as He. cbv zeta in He.
  fold k in He.
  pose proof (Rep_mSize q l HR) as Hsz.
  pose proof (Rep_arith q l HR) as (Hn0 & _). cbv zeta in Hn0.
  pose proof (Allocated_bounds q (rep_alloc _ _ HR)) as (HC & _).
  assert (Hzero : k = 0 -> items c = [] -> Pop_Multiple q c = (q, c)).
  { intros Hk Hi. rewrite He, Hk. change (Z.to_nat 0) with 0%nat.
    rewrite take_0, app_nil_r, (Pop_Multiple_post_zero q l HR).
    by destruct c. }
  split; [|split; [|split]].
  - intros Hne. cbn [Pop_Multiple_Await]. rewrite He. cbn [items].
    destruct (items c ++ take (Z.to_nat k) l); done.
  - intros Hi -> Hf. subst k. cbn [length Z.of_nat] in *.
    cbn [Pop_Multiple_Await]. rewrite Hzero by (done || lia).
    rewrite Hi, Hsz, Hf. done.
  - intros Hi -> Hf. subst k. cbn [length Z.of_nat] in *.
    cbn [Pop_Multiple_Await]. rewrite Hzero by (done || lia).
    rewrite Hi, Hsz, Hf. done.
  - intros Hi Hcap Hl. subst k. unfold Container_size in *. rewrite Hi in *.
    cbn [length Z.of_nat] in *.
    assert (0 < Z.of_nat (length l)) by (destruct l; [done | cbn; lia]).
    apply Pop_Multiple_Await_spins; [apply Hzero; (done || lia) | done | |].
    + destruct (terminal_flag q); lia.
    + rewrite sSizeMask_eq. unfold Int.INT_MIN.
      destruct (terminal_flag q); lia.
Qed.

End AwaitFacts.

Section AwaitMore.
Context {DataType : Type}.
Variable Waiting : WaitPolicy.
Implicit Types (q : @Queue DataType) (l : list DataType).

Lemma Emplace_Multiple_post_nil q l : Rep q l -> Emplace_Multiple_post q l [] = q.
Proof.
  intros HR.
  pose proof (Rep_arith q l HR) as (Hn0 & HP & HQ & Hd & Hsz).
  pose proof (Allocated_bounds q (rep_alloc _ _ HR)) as (HC & HE & _).
  unfold Emplace_Multiple_post. cbn [length Z.of_nat].
  rewrite app_nil_r, Z.add_0_r, <- (rep_mem _ _ HR).
  rewrite Increase_Index_eq by int_range. rewrite Z.add_0_r.
  destruct (Z.geb_spec (mPushIndex q) (mIndexEnd q)); [lia|].
  rewrite Z.sub_0_r, wrap32_id by int_range. by destruct q.
Qed.

(** On a full ring [Emplace_Multiple] changes nothing and gives the span
    back, wherever the indices are. *)
Lemma Emplace_Multiple_full q l (aSpan : list DataType) :
  Rep q l -> Z.of_nat (length l) = mCapacity q ->
  Z.of_nat (length aSpan) <= Int.INT_MAX ->
  Emplace_Multiple q aSpan = (q, aSpan).
Proof.
  intros HR Hn Hs.
  pose proof (Rep_arith q l HR) as (Hn0 & HP & HQ & Hd & Hsz).
  pose proof (Allocated_bounds q (rep_alloc _ _ HR)) as (HC & HE & _).
  cbv zeta in *.
  rewrite (Emplace_Multiple_eval q l aSpan HR Hs) by lia. cbv zeta.
  replace (Z.min _ _) with 0 by lia. change (Z.to_nat 0) with 0%nat.
  by rewrite take_0, drop_0, Emplace_Multiple_post_nil.
Qed.

Lemma Emplace_Multiple_Await_spins (requires : sPushAwait Waiting = true)
    q (aSpan : list DataType) :
  Emplace_Multiple q aSpan = (q, aSpan) -> aSpan <> [] ->
  mSize q <> mCapacity q ->
  forall fuel, Emplace_Multiple_Await Waiting requires fuel q aSpan = None.
Proof.
  intros He Hne Hs fuel. induction fuel as [|fuel IH]; [done|].
  cbn [Emplace_Multiple_Await]. rewrite He.
  destruct aSpan; [done|].
  destruct (Z.eqb_spec (mSize q) (mCapacity q)); [done | exact IH].
Qed.

(** X8. [Emplace_Multiple_Await] away from the wrap of the indices.  A span
    that fits in the free slots is pushed whole and the call returns.  A
    longer span fills the ring with its first elements; then, if the terminal
    flag is clear, the call sleeps in [wait] with the rest of the span, and if
    it is set the call retries without sleeping for as long as nothing is
    popped. *)
Theorem Emplace_Multiple_Await_behaviour
    (requires : sPushAwait Waiting = true) (fuel : nat)
    q l (aSpan : list DataType) :
  Rep q l ->
  Z.of_nat (length aSpan) <= Int.INT_MAX ->
  mPushIndex q <= Int.INT_MAX - mCapacity q ->
  mPopIndex q <= Int.INT_MAX - mCapacity q ->
  let free := mCapacity q - Z.of_nat (length l) in
  let q' := Emplace_Multiple_post q l (take (Z.to_nat free) aSpan) in
  (Z.of_nat (length aSpan) <= free ->
   Emplace_Multiple_Await Waiting requires (S fuel) q aSpan
   = Some (Finished (Emplace_Multiple_post q l aSpan, []) tt) /\
   Rep (Emplace_Multiple_post q l aSpan) (l ++ aSpan)) /\
  (free < Z.of_nat (length aSpan) ->
   Rep q' (l ++ take (Z.to_nat free) aSpan) /\
   size q' = mCapacity q /\
   (terminal_flag q = false ->
    Emplace_Multiple_Await Waiting requires (S fuel) q aSpan
    = Some (Waits (q', drop (Z.to_nat free) aSpan))) /\
   (terminal_flag q = true ->
    forall fuel', Emplace_Multiple_Await Waiting requires fuel' q aSpan
                  = None)).
Proof.
  intros HR Hs HP HQ free q'.
  pose proof (Rep_arith q l HR) as (Hn0 & HP' & HQ' & Hd & Hsz).
  pose proof (Allocated_bounds q (rep_alloc _ _ HR)) as (HC & HE & _).
  cbv zeta in *.
  pose proof (Emplace_Multiple_eval q l aSpan HR Hs ltac:(lia)) as He.
  cbv zeta in He. fold free in He.
  split.
  - intros Hfit. replace (Z.min _ _) with (Z.of_nat (length aSpan)) in He by lia.
    rewrite Nat2Z.id, firstn_all, drop_all in He.
    cbn [Emplace_Multiple_Await]. rewrite He. split; [done|].
    apply Emplace_Multiple_post_Rep; [done | lia | lia].
  - intros Hmore. replace (Z.min _ _) with free in He by lia.
    assert (Hlen : Z.of_nat (length (take (Z.to_nat free) aSpan)) = free).
    { rewrite length_take. lia. }
    assert (HR' : Rep q' (l ++ take (Z.to_nat free) aSpan)).
    { apply Emplace_Multiple_post_Rep; [done | lia | lia]. }
    assert (Hfull : Z.of_nat (length (l ++ take (Z.to_nat free) aSpan))
                    = mCapacity q').
    { rewrite length_app, Nat2Z.inj_add, Hlen. subst free q'. cbn. lia. }
    assert (Hrest : drop (Z.to_nat free) aSpan <> []).
    { intros Hnil. apply (f_equal length) in Hnil.
      rewrite length_drop in Hnil. cbn in Hnil. lia. }
    assert (Hflag : terminal_flag q' = terminal_flag q).
    { pose proof (Rep_mSize q l HR) as H1. pose proof (Rep_mSize q' _ HR') as H2.
      rewrite Hfull in H2. subst q'. cbn [mSize mCapacity Emplace_Multiple_post] in *.
      rewrite Hlen in H2.
      destruct (terminal_flag q),
        (terminal_flag (Emplace_Multiple_post q l (take (Z.to_nat free) aSpan)));
        try done; lia. }
    pose proof (Rep_mSize q' _ HR') as Hs'. rewrite Hfull, Hflag in Hs'.
    split; [done|]. split.
    { rewrite (size_Rep _ _ HR'), Hfull. done. }
    split.
    + intros Hf. cbn [Emplace_Multiple_Await]. rewrite He.
      destruct (drop (Z.to_nat free) aSpan) eqn:Hd'; [done|].
      fold q'. rewrite Hs', Hf, Z.eqb_refl. done.
    + intros Hf [|fuel']; [done|].
      cbn [Emplace_Multiple_Await]. rewrite He.
      destruct (drop (Z.to_nat free) aSpan) eqn:Hd'; [done|].
      fold q'. rewrite Hf in Hs'.
      destruct (Z.eqb_spec (mSize q') (mCapacity q')); [lia|].
      apply Emplace_Multiple_Await_spins; [|done|done].
      apply Emplace_Multiple_full with (l ++ take (Z.to_nat free) aSpan);
        [done | done |].
      rewrite <- Hd', length_drop. lia.
Qed.

End AwaitMore.

Section WakeUps.
Context {DataType : Type}.
Variable Waiting : WaitPolicy.
Implicit Types (q : @Queue DataType) (l : list DataType).

(** X9. No lost wake-up for the consumer.  If [Pop_Await] goes to sleep, the
    ring is empty, the terminal flag is clear and nothing was changed; the
    producer's next [Emplace] then succeeds and calls [notify_all], and the
    woken call returns [true] with the value just pushed; likewise
    [End_PopWaiting] calls [notify_all] and the woken call returns [false]. *)
Theorem sleeping_consumer_is_woken (requires : sPopAwait Waiting = true)
    (fuel : nat) q l (a : DataType) s :
  Rep q l ->
  Pop_Await Waiting requires (S fuel) q a = Some (Waits s) ->
  s = (q, a) /\ l = [] /\ terminal_flag q = false /\
  (forall v,
     Emplace_notifies Waiting q v = true /\
     exists q', Rep q' [] /\
     Pop_Await_wake Waiting requires (S fuel) (Emplace q v).1 a
     = Some (Finished (q', v) true)) /\
  End_PopWaiting_notifies q = true /\
  Pop_Await_wake Waiting requires (S fuel) (End_PopWaiting Waiting requires q) a
  = Some (Finished (End_PopWaiting Waiting requires q, a) false).
Proof.
  intros HR Hw.
  pose proof (Allocated_bounds q (rep_alloc _ _ HR)) as (HC & _).
  destruct l as [|x l].
  2:{ rewrite (Pop_Await_nonempty Waiting requires fuel q x l a HR) in Hw. done. }
  rewrite (Pop_Await_empty Waiting requires fuel q a HR) in Hw.
  destruct (terminal_flag q) eqn:Hf; [done|].
  pose proof (Rep_mSize q [] HR) as Hs. rewrite Hf in Hs. cbn in Hs.
  split; [congruence|]. split; [done|]. split; [done|]. split; [|split].
  - intros v.
    assert (He : Emplace q v = (Emplace_post q v, true)).
    { apply Emplace_not_full with []; [done | cbn; lia]. }
    assert (HR' : Rep (Emplace_post q v) [v]).
    { apply (Emplace_post_Rep q [] v HR). cbn; lia. }
    split.
    + unfold Emplace_notifies, Increase_Size_notifies. rewrite He, requires, Hs.
      done.
    + exists (Pop_post (Emplace_post q v)). split.
      * by apply Pop_post_Rep with v.
      * rewrite He. cbn [fst].
        apply (Pop_Await_wake_nonempty Waiting requires fuel _ v [] a HR').
  - unfold End_PopWaiting_notifies. by rewrite Hs.
  - pose proof (End_PopWaiting_Rep Waiting requires q [] HR) as HR'.
    rewrite (Pop_Await_wake_empty Waiting requires fuel _ a HR').
    assert (terminal_flag (End_PopWaiting Waiting requires q) = true) as ->;
      [|done].
    unfold terminal_flag, End_PopWaiting. cbn. apply testbit31_lor_mask.
Qed.

(** X10. No lost wake-up for the producer.  If [Emplace_Await] goes to sleep,
    the ring is full, the terminal flag is clear and nothing was changed; the
    consumer's next [Pop] then succeeds and calls [notify_all], and the woken
    producer pushes its value and returns. *)
Theorem sleeping_producer_is_woken (requires : sPushAwait Waiting = true)
    (fuel : nat) q l (v : DataType) s :
  Rep q l ->
  Emplace_Await Waiting requires (S fuel) q v = Some (Waits s) ->
  s = q /\ Z.of_nat (length l) = mCapacity q /\ terminal_flag q = false /\
  forall a,
    Pop_notifies Waiting q a = true /\
    exists q', Rep q' (tail l ++ [v]) /\
    Emplace_Await Waiting requires (S fuel) (Pop q a).1.1 v
    = Some (Finished q' tt).
Proof.
  intros HR Hw.
  pose proof (Allocated_bounds q (rep_alloc _ _ HR)) as (HC & _).
  pose proof (Rep_arith q l HR) as (Hn0 & _). cbv zeta in Hn0.
  pose proof (Rep_mSize q l HR) as Hs.
  assert (Hfull : Z.of_nat (length l) = mCapacity q).
  { destruct (Z.eq_dec (Z.of_nat (length l)) (mCapacity q)) as [|Hne]; [done|].
    cbn [Emplace_Await] in Hw.
    rewrite (Emplace_not_full q l v HR) in Hw by lia. done. }
  cbn [Emplace_Await] in Hw. rewrite (Emplace_full q l v HR Hfull) in Hw.
  destruct (Z.eqb_spec (mSize q) (mCapacity q)) as [Heq|Hne].
  2:{ rewrite (Emplace_Await_spins Waiting requires q v) in Hw; [done| |done].
      by apply (Emplace_full q l v HR). }
  assert (Hf : terminal_flag q = false).
  { destruct (terminal_flag q); [lia | done]. }
  split; [congruence|]. split; [done|]. split; [done|].
  intros a. destruct l as [|x l]; [cbn in Hfull; lia|].
  pose proof (Pop_nonempty q x l a HR) as Hp.
  pose proof (Pop_post_Rep q x l HR) as HR'.
  split.
  - unfold Pop_notifies, Decrease_Size_notifies. rewrite Hp, requires.
    cbn [snd andb]. rewrite land_low31, Heq, Z.mod_small by lia.
    apply Z.eqb_refl.
  - rewrite Hp. cbn [fst tail].
    exists (Emplace_post (Pop_post q) v).
    assert (Hlt : Z.of_nat (length l) < mCapacity (Pop_post q)).
    { cbn in *. lia. }
    split; [by apply Emplace_post_Rep|].
    cbn [Emplace_Await]. by rewrite (Emplace_not_full _ l v HR' Hlt).
Qed.

(** X11. [End_PopWaiting] and [Reset_PopWaiting] are idempotent and the later
    call wins; on a queue whose counter is a size (terminal flag clear)
    [Reset_PopWaiting] changes nothing, so it undoes [End_PopWaiting]
    exactly. *)
Theorem End_Reset_PopWaiting_round_trip (requires : sPopAwait Waiting = true)
    q :
  let End := End_PopWaiting Waiting requires in
  let Reset := Reset_PopWaiting Waiting requires in
  End (End q) = End q /\
  Reset (Reset q) = Reset q /\
  End (Reset q) = End q /\
  Reset (End q) = Reset q /\
  (0 <= mSize q <= Int.INT_MAX -> Reset (End q) = q).
Proof.
  cbv zeta. unfold End_PopWaiting, Reset_PopWaiting, set_mSize.
  destruct q as [P Q S st mem C E].
  cbn [mSize mPushIndex mPopIndex mStorage mStorage_mem mCapacity mIndexEnd].
  repeat split.
  - f_equal. by rewrite <- Z.lor_assoc, Z.lor_diag.
  - f_equal. apply low31_land_mask.
  - f_equal. rewrite Z.lor_land_distr_l, Z.lor_comm with (a := Z.lnot _).
    by rewrite Z.lor_lnot_diag, Z.land_m1_r.
  - f_equal. apply low31_lor_mask.
  - intros H. f_equal. rewrite low31_lor_mask, land_low31.
    apply Z.mod_small. unfold Int.INT_MAX in H. lia.
Qed.

End WakeUps.

Section NotifyFacts.
Context {DataType : Type}.
Variable Waiting : WaitPolicy.
Implicit Types (q : @Queue DataType) (l : list DataType).

(** X12. When [notify_all] is called.  [Emplace] notifies exactly when the
    queue waits on pops and the value went into an empty ring whose terminal
    flag is clear, that is, when the consumer may sleep in [wait(0)].  [Pop]
    notifies exactly when the queue waits on pushes and the ring was full,
    whether the terminal flag is set or not. *)
Theorem notify_all_conditions q l (v a : DataType) :
  Rep q l ->
  (Emplace_notifies Waiting q v = true <->
   sPopAwait Waiting = true /\ l = [] /\ terminal_flag q = false) /\
  (Pop_notifies Waiting q a = true <->
   sPushAwait Waiting = true /\ Z.of_nat (length l) = mCapacity q).
Proof.
  intros HR.
  pose proof (Rep_arith q l HR) as (Hn0 & _). cbv zeta in Hn0.
  pose proof (Allocated_bounds q (rep_alloc _ _ HR)) as (HC & _).
  pose proof (Rep_mSize q l HR) as Hs.
  split.
  - unfold Emplace_notifies, Increase_Size_notifies. cbv zeta.
    rewrite !andb_true_iff, Z.eqb_eq. split.
    + intros (_ & Hp & H0). split; [done|].
      destruct (terminal_flag q); [lia|]. split; [|done].
      destruct l; [done | cbn in *; lia].
    + intros (Hp & -> & Hf). rewrite Hf in Hs. cbn in Hs.
      rewrite (Emplace_not_full q [] v HR) by (cbn; lia). done.
  - unfold Pop_notifies, Decrease_Size_notifies. cbv zeta.
    pose proof (size_Rep q l HR) as Hsz. unfold size in Hsz. cbv zeta in Hsz.
    rewrite Hsz, !andb_true_iff, Z.eqb_eq. split.
    + intros (_ & Hp & Hn). done.
    + intros (Hp & Hn). split; [|done].
      destruct l as [|x l]; [cbn in *; lia|].
      by rewrite (Pop_nonempty q x l a HR).
Qed.

End NotifyFacts.

Section TestAllocatorFacts.
Import TestAllocator.

Lemma erase_first_not_in p l : p ∉ l -> erase_first p l = l.
Proof.
  induction l as [|x l IH]; [done|]. intros Hn. cbn.
  destruct (Pos.eqb_spec x p) as [->|Hne].
  - exfalso. apply Hn. left.
  - f_equal. apply IH. intros Hin. apply Hn. by right.
Qed.


Lemma erase_first_length_in p l :
  p ∈ l -> S (length (erase_first p l)) = length l.
Proof.
  induction l as [|x l IH]; intros Hin; [by apply elem_of_nil in Hin|].
  cbn. destruct (Pos.eqb_spec x p) as [->|Hne]; [done|].
  cbn. f_equal. apply IH. apply elem_of_cons in Hin as [->|Hin]; done.
Qed.

Lemma erase_first_other p p' l :
  p' <> p -> p' ∈ erase_first p l <-> p' ∈ l.
Proof.
  intros Hne. induction l as [|x l IH]; [done|]. cbn.
  destruct (Pos.eqb_spec x p) as [->|Hx].
  - rewrite elem_of_cons. split; [by right | by intros [?|?]].
  - rewrite !elem_of_cons, IH. done.
Qed.


(** X14. [TestAllocator::Free] removes at most one record.  A null pointer
    and an address that is not recorded (a second [Free] of a buffer, for
    instance) leave the allocator as it is; a recorded address lowers
    [allocated_count] by one; the other addresses stay recorded. *)
Theorem TestAllocator_Free_removes_one (a : t) (p : ptr) :
  Free a None = a /\
  (p ∉ allocated_ptrs_ a -> Free a (Some p) = a) /\
  (p ∈ allocated_ptrs_ a ->
   S (allocated_count (Free a (Some p))) = allocated_count a) /\
  (NoDup (allocated_ptrs_ a) -> Free (Free a (Some p)) (Some p) = Free a (Some p)) /\
  (forall p', p' <> p ->
     p' ∈ allocated_ptrs_ (Free a (Some p)) <-> p' ∈ allocated_ptrs_ a).
Proof.
  split; [done|]. split; [|split; [|split]].
  - intros Hn. unfold Free. rewrite erase_first_not_in by done. by destruct a.
  - intros Hin. unfold allocated_count, Free. cbn.
    by apply erase_first_length_in.
  - intros Hnd. unfold Free. cbn. f_equal.
    apply erase_first_not_in.
    induction Hnd as [|x l Hx Hnd IH]; cbn; [by intros ?%elem_of_nil|].
    destruct (Pos.eqb_spec x p) as [->|Hne]; [done|].
    rewrite elem_of_cons. intros [?|?]; [done | by apply IH].
  - intros p' Hne. unfold Free. cbn. by apply erase_first_other.
Qed.

End TestAllocatorFacts.

Section Lifecycle.
Context {DataType : Type}.
Variables sizeof_DataType alignof_DataType : Z.
Implicit Types (q : @Queue DataType) (l : list DataType).

Lemma Allocate_returns {A} `{Allocator A} q (aAllocator a' : A) cap p :
  Is_Allocated q = false ->
  1 <= cap <= Z.quot Int.INT_MAX 2 ->
  alloc_Allocate aAllocator (cap * sizeof_DataType)
    (Z.max sAlign alignof_DataType) = (a', Returned (Some p)) ->
  Allocate sizeof_DataType alignof_DataType q aAllocator cap
  = Ok (mkQueue (mPushIndex q) (mPopIndex q) (mSize q) (Some p)
          (replicate (Z.to_nat cap) None) cap
          (cap * Z.quot Int.INT_MAX cap), a').
Proof.
  intros Ha Hc Hp. unfold Allocate, Assert. rewrite Ha, Hp. cbn [negb].
  cbn [Is_Allocated set_mStorage mStorage set_mCapacity mCapacity].
  destruct (Z.ltb_spec 0 cap); [|lia].
  pose proof (proj1 (capacity_wraps cap ltac:(lia)) ltac:(lia)) as HK.
  assert (Hm : 0 <= cap * Z.quot Int.INT_MAX cap <= Int.INT_MAX).
  { unfold Int.INT_MAX in *. rewrite Z.quot_div_nonneg in * by lia.
    pose proof (Z.mul_div_le 2147483647 cap ltac:(lia)). nia. }
  assert (Hq : Z.quot Int.INT_MAX cap <= Int.INT_MAX).
  { unfold Int.INT_MAX. rewrite Z.quot_div_nonneg by lia.
    apply Z.div_le_upper_bound; nia. }
  rewrite div_id by int_range.
  destruct (Z.leb_spec 2 (Z.quot Int.INT_MAX cap)); [|lia].
  rewrite mul_id by int_range. reflexivity.
Qed.

(** X15. The life cycle of the buffer with [TestAllocator].  On an
    unallocated, empty queue, [Allocate] with a capacity in
    [1, INT_MAX/2] takes one buffer from the allocator
    ([allocated_count] goes up by one); [Free] right after it returns, hands
    the buffer back ([allocated_count] is as before) and leaves the queue
    unallocated and empty, so that the cycle can be repeated. *)
Theorem Allocate_Free_balance
    q (a : TestAllocator.t) (cap : Z) (p : ptr) rest :
  Is_Allocated q = false -> empty q = true ->
  1 <= cap <= Z.quot Int.INT_MAX 2 ->
  TestAllocator.aligned_alloc_results a = Some p :: rest ->
  exists q1 a1 q2 a2,
    Allocate sizeof_DataType alignof_DataType q a cap = Ok (q1, a1) /\
    Is_Allocated q1 = true /\ mCapacity q1 = cap /\
    TestAllocator.allocated_count a1 = S (TestAllocator.allocated_count a) /\
    Free q1 a1 = Ok (q2, a2) /\
    TestAllocator.allocated_count a2 = TestAllocator.allocated_count a /\
    Is_Allocated q2 = false /\ empty q2 = true /\ mCapacity q2 = 0 /\
    mPushIndex q2 = mPushIndex q /\ mPopIndex q2 = mPopIndex q /\
    mSize q2 = mSize q.
Proof.
  intros Ha He Hc Hr.
  eexists _, _, _, _. split.
  { apply Allocate_returns; [done | done |].
    cbn. unfold TestAllocator.Allocate. rewrite Hr. reflexivity. }
  split; [done|]. split; [done|]. split.
  { unfold TestAllocator.allocated_count. cbn. rewrite length_app. cbn. lia. }
  split.
  { unfold Free, Assert. cbn [Is_Allocated mStorage].
    assert (empty (mkQueue (mPushIndex q) (mPopIndex q) (mSize q) (Some p)
               (replicate (Z.to_nat cap) (@None DataType)) cap
               (cap * Z.quot Int.INT_MAX cap)) = true) as ->; [exact He|].
    reflexivity. }
  split.
  { unfold TestAllocator.allocated_count. cbn.
    assert (Hin : p ∈ TestAllocator.allocated_ptrs_ a ++ [p]).
    { apply elem_of_app. right. left. }
    pose proof (erase_first_length_in p _ Hin) as Hl.
    rewrite length_app in Hl. cbn in Hl. lia. }
  split; [done|]. split; [exact He|]. done.
Qed.

(** X16. The outcomes of [Allocate].  On a queue that owns a buffer it
    aborts with "Can't allocate while still owning memory!" whatever the
    capacity, and on an unallocated queue a capacity below 1 aborts with
    "Invalid capacity {}!"; in both cases the allocator is not called.  It
    returns only on an unallocated queue, for a capacity in [1, INT_MAX/2]
    and a buffer that the allocator returned for [capacity * sizeof] bytes
    aligned to the larger of [sAlign] and [alignof]; the queue then owns that
    buffer and has the capacity, the [indexEnd] and the raw storage of an
    allocated queue.  When the allocator throws, the queue is as before. *)
Theorem Allocate_outcomes {A} `{Allocator A} q (aAllocator : A) (cap : Z) :
  let r := Allocate sizeof_DataType alignof_DataType q aAllocator cap in
  let request := alloc_Allocate aAllocator (cap * sizeof_DataType)
                   (Z.max sAlign alignof_DataType) in
  (Is_Allocated q = true ->
   r = Abort "Can't allocate while still owning memory!") /\
  (Is_Allocated q = false -> cap <= 0 -> r = Abort "Invalid capacity {}!") /\
  (forall q' a', r = Ok (q', a') ->
     Is_Allocated q = false /\ 1 <= cap <= Z.quot Int.INT_MAX 2 /\
     (exists p, request = (a', Returned (Some p)) /\ mStorage q' = Some p) /\
     (Int.in_int (mSize q) -> Allocated q')) /\
  (forall what s, r = Throw what s ->
     s.1 = q /\ request = (s.2, Raised what)).
Proof.
  cbv zeta. unfold Allocate, Assert.
  destruct (Is_Allocated q) eqn:Ha; cbn [negb].
  { split; [done|]. split; [done|]. split; intros; done. }
  split; [done|].
  destruct (Z.ltb_spec 0 cap) as [Hc|Hc].
  2:{ split; [done|]. split; intros; done. }
  split; [lia|].
  destruct (alloc_Allocate aAllocator (cap * sizeof_DataType)
              (Z.max sAlign alignof_DataType)) as [a1 [[p|]|what]].
  - cbn [Is_Allocated set_mStorage mStorage set_mCapacity mCapacity].
    assert (Hq : 0 <= Z.quot Int.INT_MAX cap <= Int.INT_MAX).
    { unfold Int.INT_MAX. rewrite Z.quot_div_nonneg by lia. split.
      - apply Z.div_pos; lia.
      - apply Z.div_le_upper_bound; nia. }
    rewrite div_id by int_range.
    destruct (Z.leb_spec 2 (Z.quot Int.INT_MAX cap)) as [HK|HK].
    2:{ split; intros; done. }
    pose proof (proj2 (capacity_wraps cap ltac:(lia)) HK) as Hhalf.
    assert (Hm : 0 <= cap * Z.quot Int.INT_MAX cap <= Int.INT_MAX).
    { unfold Int.INT_MAX in *. rewrite Z.quot_div_nonneg in * by lia.
      pose proof (Z.mul_div_le 2147483647 cap ltac:(lia)). nia. }
    rewrite mul_id by int_range.
    split; [|intros; done].
    intros q' a' [= <- <-]. split; [done|]. split; [lia|]. split.
    + by exists p.
    + intros Hs. split; cbn; try done; [lia | apply length_replicate].
  - cbn [Is_Allocated set_mStorage mStorage]. split; intros; done.
  - split; [intros; done|]. intros what' s [= <- <-]. done.
Qed.

(** X17. A queue that is freed can be allocated again, with the same or
    another capacity, provided that the index at which it stopped lies below
    the new [indexEnd]: [Free] and [Allocate] both return and the queue is an
    empty ring of the new capacity.  Neither call touches the size counter,
    so the terminal flag is as before: a queue that was closed with
    [End_PopWaiting] is still closed, and [Pop_Await] on it returns [false]
    at once. *)
Theorem Free_then_Allocate_again {A} `{Allocator A}
    q (aAllocator a2 : A) (cap : Z) (p : ptr) :
  Rep q [] ->
  1 <= cap <= Z.quot Int.INT_MAX 2 ->
  mPushIndex q < cap * Z.quot Int.INT_MAX cap ->
  alloc_Allocate (alloc_Free aAllocator (mStorage q)) (cap * sizeof_DataType)
    (Z.max sAlign alignof_DataType) = (a2, Returned (Some p)) ->
  exists q1 q2,
    Free q aAllocator = Ok (q1, alloc_Free aAllocator (mStorage q)) /\
    Allocate sizeof_DataType alignof_DataType q1
      (alloc_Free aAllocator (mStorage q)) cap = Ok (q2, a2) /\
    Rep q2 [] /\ mCapacity q2 = cap /\
    mPushIndex q2 = mPushIndex q /\ mPopIndex q2 = mPopIndex q /\
    terminal_flag q2 = terminal_flag q /\
    forall Waiting (requires : sPopAwait Waiting = true) fuel (a : DataType),
      terminal_flag q = true ->
      Pop_Await Waiting requires (S fuel) q2 a = Some (Finished (q2, a) false).
Proof.
  intros HR Hc HP Hp.
  pose proof (Rep_arith q [] HR) as (_ & HP' & HQ' & Hd & _).
  pose proof (Allocated_bounds q (rep_alloc _ _ HR)) as (HC & HE & _).
  cbn [length Z.of_nat] in Hd.
  assert (HPQ : mPopIndex q = mPushIndex q) by lia.
  pose proof (proj2 (empty_Rep q [] HR) eq_refl) as He.
  pose proof (proj1 (capacity_wraps cap ltac:(lia)) ltac:(lia)) as HK.
  assert (Hf : Free q aAllocator
               = Ok (set_mCapacity 0 (set_mStorage None [] q),
                     alloc_Free aAllocator (mStorage q))).
  { unfold Free, Assert.
    by rewrite (al_storage _ (rep_alloc _ _ HR)), He. }
  eexists _, _. split; [exact Hf|]. split.
  { apply Allocate_returns; [done | done | exact Hp]. }
  cbn [mPushIndex mPopIndex mSize set_mCapacity set_mStorage mCapacity].
  assert (HR2 : Rep (mkQueue (mPushIndex q) (mPopIndex q) (mSize q) (Some p)
                       (replicate (Z.to_nat cap) (@None DataType)) cap
                       (cap * Z.quot Int.INT_MAX cap)) []).
  { rewrite HPQ. apply Rep_allocated_empty; [lia | done | lia | |].
    - apply (al_size _ (rep_alloc _ _ HR)).
    - unfold empty, size in He. cbv zeta in He. by apply Z.eqb_eq in He. }
  split; [exact HR2|]. split; [done|]. split; [done|]. split; [done|].
  split; [done|].
  intros Waiting requires fuel a Hflag.
  rewrite (Pop_Await_empty Waiting requires fuel _ a HR2).
  unfold terminal_flag in *. cbn [mSize]. by rewrite Hflag.
Qed.

End Lifecycle.

Section MoveFacts.
Context {DataType : Type}.
Implicit Types (q : @Queue DataType) (l : list DataType).

(** [Emplace_Multiple] is its count and its moves: the storage it leaves is
    the storage after the recorded calls, one after the other. *)
Lemma Emplace_Multiple_by_moves q (aSpan : list DataType) :
  Emplace_Multiple q aSpan
  = let cNumToPush := Emplace_Multiple_cNumToPush q aSpan in
    if cNumToPush =? 0 then (q, aSpan)
    else
      let q1 :=
        set_mem (foldl (move_run aSpan) (mStorage_mem q)
                   (Emplace_Multiple_moves q aSpan)) q in
      let q2 :=
        set_mPushIndex (Increase_Index q1 (mPushIndex q) cNumToPush) q1 in
      (Increase_Size cNumToPush q2,
       take (Z.to_nat (Int.sub (Int.of_size_t (Z.of_nat (length aSpan)))
                         cNumToPush))
         (drop (Z.to_nat cNumToPush) aSpan)).
Proof.
  unfold Emplace_Multiple, Emplace_Multiple_moves, Emplace_Multiple_cNumToPush.
  cbv zeta. destruct (_ =? 0); [done|].
  destruct (_ <=? 0); reflexivity.
Qed.

Lemma Emplace_Multiple_cNumToPush_eq q l (aSpan : list DataType) :
  Rep q l ->
  Z.of_nat (length aSpan) <= Int.INT_MAX ->
  mPopIndex q + mCapacity q - mPushIndex q <= Int.INT_MAX ->
  Emplace_Multiple_cNumToPush q aSpan
  = Z.min (Z.of_nat (length aSpan)) (mCapacity q - Z.of_nat (length l)).
Proof.
  intros HR Hs Hmax.
  pose proof (Rep_arith q l HR) as (Hn0 & HP & HQ & Hd & Hsz).
  pose proof (Allocated_bounds q (rep_alloc _ _ HR)) as (HC & HE & _).
  unfold Int.INT_MAX in *. cbv zeta in *.
  unfold Emplace_Multiple_cNumToPush. cbv zeta.
  assert (H0 : Int.sub (Int.add (mPopIndex q) (mCapacity q)) (mPushIndex q)
               = mPopIndex q + mCapacity q - mPushIndex q).
  { unfold Int.sub, Int.add. rewrite wrap32_sub_l. apply wrap32_id. int_range. }
  rewrite H0.
  assert (Havail :
    Int.sub (mPopIndex q + mCapacity q - mPushIndex q)
      (if mPopIndex q + mCapacity q - mPushIndex q >=? mIndexEnd q
       then mIndexEnd q else 0)
    = mCapacity q - Z.of_nat (length l)).
  { rewrite sub_id;
      destruct (Z.geb_spec (mPopIndex q + mCapacity q - mPushIndex q)
                  (mIndexEnd q)); int_range. }
  rewrite Havail. unfold Int.of_size_t. by rewrite wrap32_id by int_range.
Qed.

(** X18. [Emplace_Multiple] stays inside the span and the buffer.  On an
    allocated queue, for a span whose length fits in an [int] and
    [popIndex + capacity - pushIndex] in the [int] range, the count to push
    is [k = min(span length, free slots)] and the elements are moved by no
    call when [k = 0], by one call of [k] elements to the slot
    [pushIndex mod capacity] when they fit before the end of the buffer, and
    otherwise by a call that fills the buffer to its end and a second call
    that puts the remaining elements at slot 0; every call reads inside the
    span and writes inside the buffer. *)
Theorem Emplace_Multiple_moves_stay_inside q l (aSpan : list DataType) :
  Rep q l ->
  Z.of_nat (length aSpan) <= Int.INT_MAX ->
  mPopIndex q + mCapacity q - mPushIndex q <= Int.INT_MAX ->
  let k := Z.min (Z.of_nat (length aSpan))
             (mCapacity q - Z.of_nat (length l)) in
  let slot := mPushIndex q mod mCapacity q in
  Emplace_Multiple_cNumToPush q aSpan = k /\
  Emplace_Multiple_moves q aSpan
  = (if k =? 0 then []
     else if slot + k <=? mCapacity q then [mkMoveCall 0 k slot]
     else [mkMoveCall 0 (mCapacity q - slot) slot;
           mkMoveCall (mCapacity q - slot) (slot + k - mCapacity q) 0]) /\
  Emplace_Multiple_defined q aSpan = true.
Proof.
  intros HR Hs Hmax k slot.
  pose proof (Rep_arith q l HR) as (Hn0 & HP & HQ & Hd & Hsz).
  pose proof (Allocated_bounds q (rep_alloc _ _ HR)) as (HC & HE & _).
  pose proof (Emplace_Multiple_cNumToPush_eq q l aSpan HR Hs Hmax) as Hk.
  fold k in Hk. cbv zeta in Hn0.
  pose proof (Z.mod_pos_bound (mPushIndex q) (mCapacity q) ltac:(lia)) as Hslot.
  fold slot in Hslot.
  assert (Hmem : Z.of_nat (length (mStorage_mem q)) = mCapacity q).
  { rewrite (al_mem _ (rep_alloc _ _ HR)). lia. }
  assert (Hmoves :
    Emplace_Multiple_moves q aSpan
    = (if k =? 0 then []
       else if slot + k <=? mCapacity q then [mkMoveCall 0 k slot]
       else [mkMoveCall 0 (mCapacity q - slot) slot;
             mkMoveCall (mCapacity q - slot) (slot + k - mCapacity q) 0])).
  { unfold Emplace_Multiple_moves. cbv zeta. rewrite Hk.
    destruct (Z.eqb_spec k 0); [done|].
    rewrite rem_nonneg by lia. fold slot.
    unfold Int.INT_MAX in *.
    rewrite add_id by int_range. rewrite sub_id by int_range.
    destruct (Z.leb_spec (slot + k - mCapacity q) 0),
      (Z.leb_spec (slot + k) (mCapacity q)); try lia; [done|].
    rewrite sub_id by int_range.
    by replace (k - (slot + k - mCapacity q)) with (mCapacity q - slot)
      by lia. }
  split; [done|]. split; [done|].
  unfold Emplace_Multiple_defined. rewrite Hmoves, Hmem.
  unfold Int.INT_MAX in *.
  destruct (Z.eqb_spec k 0); [done|].
  destruct (Z.leb_spec (slot + k) (mCapacity q)); cbn [forallb];
    unfold move_defined; cbn [move_first move_count move_d_first];
    rewrite ?andb_true_r; rewrite ?andb_true_iff, ?orb_true_iff, ?Z.leb_le.
  - right. lia.
  - split; right; lia.
Qed.

End MoveFacts.

Section StaleIndex.
Context {DataType : Type}.
Variables sizeof_DataType alignof_DataType : Z.
Implicit Types (q : @Queue DataType) (l : list DataType).

(** One [Emplace] on a queue whose pop index [i] is at or above [indexEnd],
    after [m] pushes: the push index is [i] before the first push and
    [m - 1] after it. *)
Lemma Emplace_stale_index q (v : DataType) (i m : Z) :
  1 <= mCapacity q -> 2 * mCapacity q <= mIndexEnd q <= Int.INT_MAX ->
  mIndexEnd q <= i < Int.INT_MAX ->
  mPopIndex q = i ->
  mPushIndex q = (if m =? 0 then i else m - 1) ->
  mSize q = m -> 0 <= m <= mCapacity q ->
  exists q',
    Emplace q v = (q', true) /\
    mPopIndex q' = i /\ mPushIndex q' = m /\ mSize q' = m + 1 /\
    mCapacity q' = mCapacity q /\ mIndexEnd q' = mIndexEnd q /\
    length (mStorage_mem q') = length (mStorage_mem q).
Proof.
  intros HC HE Hi HQ HP HS Hm. unfold Int.INT_MAX in *.
  unfold Emplace. cbv zeta. rewrite HQ, HP.
  assert (Hsub : Int.sub (mCapacity q) (mIndexEnd q)
                 = mCapacity q - mIndexEnd q) by (apply sub_id; int_range).
  rewrite Hsub.
  destruct (Z.eqb_spec m 0) as [-> | Hm0].
  - rewrite sub_id by int_range. rewrite Z.sub_diag.
    destruct (Z.eqb_spec 0 (mCapacity q)); [lia|].
    destruct (Z.eqb_spec 0 (mCapacity q - mIndexEnd q)); [lia|].
    cbn [orb]. eexists. split; [reflexivity|].
    unfold Increase_Size, Bump_Index, set_mPushIndex, set_mem, set_mStorage,
      set_mSize. cbn. rewrite HS.
    rewrite !add_id by int_range.
    destruct (Z.ltb_spec (i + 1) (mIndexEnd q)); [lia|].
    repeat split; try done. apply slot_write_length.
  - rewrite sub_id by int_range.
    destruct (Z.eqb_spec (m - 1 - i) (mCapacity q)); [lia|].
    destruct (Z.eqb_spec (m - 1 - i) (mCapacity q - mIndexEnd q)); [lia|].
    cbn [orb]. eexists. split; [reflexivity|].
    unfold Increase_Size, Bump_Index, set_mPushIndex, set_mem, set_mStorage,
      set_mSize. cbn. rewrite HS.
    rewrite !add_id by int_range.
    destruct (Z.ltb_spec (m - 1 + 1) (mIndexEnd q)); [|lia].
    repeat split; try done; [lia | apply slot_write_length].
Qed.

Lemma run_pushes_stale_index (a : DataType) (i : Z) (vs : list DataType) :
  forall q m,
    1 <= mCapacity q -> 2 * mCapacity q <= mIndexEnd q <= Int.INT_MAX ->
    mIndexEnd q <= i < Int.INT_MAX ->
    mPopIndex q = i ->
    mPushIndex q = (if m =? 0 then i else m - 1) ->
    mSize q = m -> 0 <= m ->
    m + Z.of_nat (length vs) <= mCapacity q + 1 ->
    (run q a (map OpPush vs)).2 = map (fun _ => ObsPush true) vs /\
    mSize (run q a (map OpPush vs)).1 = m + Z.of_nat (length vs) /\
    mCapacity (run q a (map OpPush vs)).1 = mCapacity q /\
    length (mStorage_mem (run q a (map OpPush vs)).1)
    = length (mStorage_mem q).
Proof.
  induction vs as [|v vs IH]; intros q m HC HE Hi HQ HP HS Hm Hlen.
  - cbn. repeat split; try done. lia.
  - cbn [length] in Hlen. rewrite Nat2Z.inj_succ in Hlen.
    destruct (Emplace_stale_index q v i m HC HE Hi HQ HP HS ltac:(lia))
      as (q' & He & HQ' & HP' & HS' & HC' & HE' & HL').
    cbn [map run]. rewrite He.
    specialize (IH q' (m + 1)).
    destruct IH as (Ho & Hsz & Hcap & Hmem); try (rewrite ?HC', ?HE'; lia).
    { rewrite HP'. destruct (Z.eqb_spec (m + 1) 0); lia. }
    destruct (run q' a (map OpPush vs)) as [q'' obs] eqn:Hr.
    cbn [fst snd] in *. rewrite Ho, Hsz, Hcap, Hmem, HC', HL'.
    cbn [length]. rewrite Nat2Z.inj_succ. repeat split; try done. lia.
Qed.

(** X19. [Allocate] does not bring stale indices back into range.  When a
    freed queue, whose two indices are equal and whose size is zero, is
    allocated again with a capacity whose [indexEnd] is at or below that
    index, [Allocate] returns and the queue does not satisfy the index
    invariant; [capacity + 1] calls of [Emplace] in a row then all return
    [true] with no pop in between, and [size()] is [capacity + 1] on a
    buffer of [capacity] slots: one of the accepted elements has been
    overwritten. *)
Theorem Allocate_keeps_stale_index {A} `{Allocator A}
    q (aAllocator a' : A) (cap : Z) (p : ptr) (a : DataType)
    (vs : list DataType) :
  Is_Allocated q = false ->
  1 <= cap <= Z.quot Int.INT_MAX 2 ->
  alloc_Allocate aAllocator (cap * sizeof_DataType)
    (Z.max sAlign alignof_DataType) = (a', Returned (Some p)) ->
  mPopIndex q = mPushIndex q ->
  cap * Z.quot Int.INT_MAX cap <= mPushIndex q < Int.INT_MAX ->
  mSize q = 0 ->
  Z.of_nat (length vs) = cap + 1 ->
  exists q',
    Allocate sizeof_DataType alignof_DataType q aAllocator cap = Ok (q', a') /\
    mPushIndex q' = mPushIndex q /\ mIndexEnd q' <= mPushIndex q' /\
    ~ IndexInv q' /\
    (run q' a (map OpPush vs)).2 = map (fun _ => ObsPush true) vs /\
    size (run q' a (map OpPush vs)).1 = cap + 1 /\
    Z.of_nat (length (mStorage_mem (run q' a (map OpPush vs)).1)) = cap.
Proof.
  intros Ha Hc Hp HPQ Hi Hs Hlen.
  pose proof (proj1 (capacity_wraps cap ltac:(lia)) ltac:(lia)) as HK.
  assert (Hm : 2 * cap <= cap * Z.quot Int.INT_MAX cap <= Int.INT_MAX).
  { unfold Int.INT_MAX in *. rewrite Z.quot_div_nonneg in * by lia.
    pose proof (Z.mul_div_le 2147483647 cap ltac:(lia)). nia. }
  eexists. split; [by apply Allocate_returns|].
  cbn [mPushIndex mIndexEnd]. split; [done|]. split; [lia|]. split.
  { intros [HP _ _ _]. cbn in HP. lia. }
  match goal with |- context [run ?q0 _ _] => set (q' := q0) end.
  destruct (run_pushes_stale_index a (mPushIndex q) vs q' 0)
    as (Ho & Hsz & Hcap & Hmem); subst q'; cbn; try done; try lia.
  split; [done|]. split.
  - unfold size. cbv zeta. rewrite Hsz, land_low31.
    cbn in Hlen. rewrite Z.add_0_l, Hlen. apply Z.mod_small.
    unfold Int.INT_MAX in *. rewrite Z.quot_div_nonneg in * by lia.
    assert (2147483647 / 2 = 1073741823) by reflexivity. lia.
  - rewrite Hmem. cbn. rewrite length_replicate. lia.
Qed.

End StaleIndex.

(** ** The further properties at concrete states *)

Lemma Pop_fails_iff_empty_witness :
  Rep one_live [5] /\
  Pop one_live 0 = ((Pop one_live 0).1.1, 5, true).
Proof.
  split; [evaluate|].
  pose proof (Pop_fails_iff_empty one_live [5] 0 ltac:(evaluate)) as H.
  pose proof (proj2 (proj2 H) 5 [] eq_refl) as H'. cbv zeta in H'.
  exact (proj1 H').
Defined.

Lemma Emplace_Multiple_away_from_wrap_witness :
  Rep fresh3 [] /\
  Z.of_nat (length [1; 2; 3; 4; 5]) <= Int.INT_MAX /\
  mPushIndex fresh3 <= Int.INT_MAX - mCapacity fresh3 /\
  mPopIndex fresh3 <= Int.INT_MAX - mCapacity fresh3 /\
  (Emplace_Multiple fresh3 [1; 2; 3; 4; 5]).2 = [4; 5].
Proof.
  split; [evaluate|]. split; [evaluate|]. split; [evaluate|].
  split; [evaluate|].
  pose proof (Emplace_Multiple_away_from_wrap fresh3 [] [1; 2; 3; 4; 5]
                ltac:(evaluate) ltac:(evaluate) ltac:(evaluate)
                ltac:(evaluate)) as H.
  cbv zeta in H. exact (proj1 H).
Defined.

Lemma Emplace_Multiple_Pop_Multiple_round_trip_witness :
  Rep fresh3 [] /\
  Z.of_nat (length [1; 2]) <= Int.INT_MAX /\
  mPushIndex fresh3 <= Int.INT_MAX - mCapacity fresh3 /\
  mCapacity fresh3 <= 3 - 0 <= Int.INT_MAX /\
  (Pop_Multiple (Emplace_Multiple fresh3 [1; 2]).1 (mkContainer [] 3)).2
  = mkContainer [1; 2] 3.
Proof.
  split; [evaluate|]. split; [evaluate|]. split; [evaluate|].
  split; [evaluate|].
  pose proof (Emplace_Multiple_Pop_Multiple_round_trip fresh3 [1; 2]
                (mkContainer [] 3) ltac:(evaluate) ltac:(evaluate)
                ltac:(evaluate) ltac:(evaluate)) as H.
  cbv zeta in H. exact (proj1 (proj2 H)).
Defined.

Lemma run_batch_refines_witness :
  Rep fresh3 [] /\
  mPopIndex fresh3 <= mPushIndex fresh3 /\
  mPushIndex fresh3
  + total_pushes [BPushMany [1; 2; 3; 4]; BPop; BPopMany (mkContainer [] 5)]
  < mIndexEnd fresh3 /\
  (run_batch fresh3 0
     [BPushMany [1; 2; 3; 4]; BPop; BPopMany (mkContainer [] 5)]).2
  = [BObsPushMany [4]; BObsPop (Some 1); BObsPopMany (mkContainer [2; 3] 5)].
Proof.
  split; [evaluate|]. split; [evaluate|]. split; [evaluate|].
  refine (proj1 (run_batch_refines
                   [BPushMany [1; 2; 3; 4]; BPop; BPopMany (mkContainer [] 5)]
                   fresh3 [] 0 _ _ _ _)).
  - evaluate.
  - evaluate.
  - evaluate.
  - repeat constructor; evaluate.
Defined.

Lemma run_conserves_elements_witness :
  Rep one_live [5] /\
  exists l',
    Rep (run one_live 0 [OpPush 6; OpPop; OpPop; OpPop; OpPush 7]).1 l' /\
    [5] ++ [6; 7] = [5; 6] ++ l'.
Proof.
  split; [evaluate|].
  destruct (run_conserves_elements one_live [5] 0
              [OpPush 6; OpPop; OpPop; OpPop; OpPush 7] ltac:(evaluate))
    as (l' & HR & Hl & _).
  exists l'. split; [exact HR | exact Hl].
Defined.

Lemma Emplace_Await_behaviour_witness :
  sPushAwait BothAwait = true /\
  Rep near_wrap_full [1; 2; 3] /\
  Emplace_Await BothAwait eq_refl 1 near_wrap_full 4
  = Some (Waits near_wrap_full).
Proof.
  split; [reflexivity|]. split; [evaluate|].
  refine (proj1 (proj2 (Emplace_Await_behaviour BothAwait eq_refl 0
                          near_wrap_full [1; 2; 3] 4 _)) _ _); evaluate.
Defined.

Lemma Pop_Multiple_Await_behaviour_witness :
  sPopAwait BothAwait = true /\
  Rep one_live [5] /\
  0 <= 0 - 0 <= Int.INT_MAX /\
  forall fuel,
    Pop_Multiple_Await BothAwait eq_refl fuel one_live (mkContainer [] 0)
    = None.
Proof.
  split; [reflexivity|]. split; [evaluate|]. split; [evaluate|].
  pose proof (Pop_Multiple_Await_behaviour BothAwait eq_refl 0 one_live [5]
                (mkContainer [] 0) ltac:(evaluate) ltac:(evaluate)) as H.
  cbv zeta in H.
  refine (proj2 (proj2 (proj2 H)) eq_refl eq_refl _). discriminate.
Defined.

Lemma Emplace_Multiple_Await_behaviour_witness :
  sPushAwait BothAwait = true /\
  Rep fresh3 [] /\
  Z.of_nat (length [1; 2; 3; 4; 5]) <= Int.INT_MAX /\
  mPushIndex fresh3 <= Int.INT_MAX - mCapacity fresh3 /\
  mPopIndex fresh3 <= Int.INT_MAX - mCapacity fresh3 /\
  Emplace_Multiple_Await BothAwait eq_refl 1 fresh3 [1; 2; 3; 4; 5]
  = Some (Waits (Emplace_Multiple_post fresh3 [] [1; 2; 3], [4; 5])).
Proof.
  split; [reflexivity|]. split; [evaluate|]. split; [evaluate|].
  split; [evaluate|]. split; [evaluate|].
  pose proof (Emplace_Multiple_Await_behaviour BothAwait eq_refl 0 fresh3 []
                [1; 2; 3; 4; 5] ltac:(evaluate) ltac:(evaluate)
                ltac:(evaluate) ltac:(evaluate)) as H.
  cbv zeta in H.
  refine (proj1 (proj2 (proj2 (proj2 H _))) _); evaluate.
Defined.

Lemma sleeping_consumer_is_woken_witness :
  sPopAwait PopAwait = true /\
  Rep fresh3 [] /\
  Pop_Await PopAwait eq_refl 1 fresh3 0 = Some (Waits (fresh3, 0)) /\
  Emplace_notifies PopAwait fresh3 8 = true.
Proof.
  split; [reflexivity|]. split; [evaluate|]. split; [reflexivity|].
  pose proof (sleeping_consumer_is_woken PopAwait eq_refl 0 fresh3 [] 0
                (fresh3, 0) ltac:(evaluate) ltac:(reflexivity)) as H.
  exact (proj1 (proj1 (proj2 (proj2 (proj2 H))) 8)).
Defined.

Lemma sleeping_producer_is_woken_witness :
  sPushAwait BothAwait = true /\
  Rep near_wrap_full [1; 2; 3] /\
  Emplace_Await BothAwait eq_refl 1 near_wrap_full 4
  = Some (Waits near_wrap_full) /\
  Pop_notifies BothAwait near_wrap_full 0 = true.
Proof.
  split; [reflexivity|]. split; [evaluate|]. split; [reflexivity|].
  pose proof (sleeping_producer_is_woken BothAwait eq_refl 0 near_wrap_full
                [1; 2; 3] 4 near_wrap_full ltac:(evaluate)
                ltac:(reflexivity)) as H.
  exact (proj1 (proj2 (proj2 (proj2 H)) 0)).
Defined.

Lemma End_Reset_PopWaiting_round_trip_witness :
  sPopAwait BothAwait = true /\
  0 <= mSize one_live <= Int.INT_MAX /\
  Reset_PopWaiting BothAwait eq_refl
    (End_PopWaiting BothAwait eq_refl one_live) = one_live.
Proof.
  split; [reflexivity|]. split; [evaluate|].
  pose proof (End_Reset_PopWaiting_round_trip BothAwait eq_refl one_live)
    as H.
  cbv zeta in H. apply (proj2 (proj2 (proj2 (proj2 H)))). evaluate.
Defined.

Lemma notify_all_conditions_witness :
  Rep near_wrap_full [1; 2; 3] /\
  Pop_notifies BothAwait near_wrap_full 0 = true.
Proof.
  split; [evaluate|].
  pose proof (notify_all_conditions BothAwait near_wrap_full [1; 2; 3] 4 0
                ltac:(evaluate)) as H.
  apply (proj2 (proj2 H)). evaluate.
Defined.


Lemma TestAllocator_Free_removes_one_witness :
  (7%positive ∈ [3%positive; 7%positive]) /\
  S (TestAllocator.allocated_count
       (TestAllocator.Free (TestAllocator.mk [3%positive; 7%positive] [])
          (Some 7%positive)))
  = 2%nat.
Proof.
  assert (Hin : 7%positive ∈ [3%positive; 7%positive]) by (right; left).
  split; [exact Hin|].
  exact (proj1 (proj2 (proj2
           (TestAllocator_Free_removes_one
              (TestAllocator.mk [3%positive; 7%positive] []) 7%positive)))
           Hin).
Defined.

Lemma Allocate_Free_balance_witness :
  Is_Allocated (@Queue_default Z) = false /\
  empty (@Queue_default Z) = true /\
  1 <= 3 <= Z.quot Int.INT_MAX 2 /\
  exists q1 a1 q2 a2,
    Allocate 4 4 (@Queue_default Z)
      (TestAllocator.mk [] [Some 1%positive]) 3 = Ok (q1, a1) /\
    TestAllocator.allocated_count a1 = 1%nat /\
    Free q1 a1 = Ok (q2, a2) /\
    TestAllocator.allocated_count a2 = 0%nat.
Proof.
  split; [reflexivity|]. split; [reflexivity|]. split; [evaluate|].
  destruct (Allocate_Free_balance 4 4 (@Queue_default Z)
              (TestAllocator.mk [] [Some 1%positive]) 3 1%positive []
              ltac:(reflexivity) ltac:(reflexivity) ltac:(evaluate)
              ltac:(reflexivity))
    as (q1 & a1 & q2 & a2 & H1 & _ & _ & H2 & H3 & H4 & _).
  exists q1, a1, q2, a2. split; [exact H1|]. split; [exact H2|].
  split; [exact H3 | exact H4].
Defined.

Lemma Allocate_outcomes_witness :
  Is_Allocated fresh3 = true /\
  Allocate 4 4 fresh3 two_buffers 0
  = Abort "Can't allocate while still owning memory!".
Proof.
  split; [reflexivity|].
  pose proof (Allocate_outcomes 4 4 fresh3 two_buffers 0) as H.
  cbv zeta in H. exact (proj1 H eq_refl).
Defined.

Lemma Free_then_Allocate_again_witness :
  Rep (End_PopWaiting PopAwait eq_refl (cycled3 1)) [] /\
  1 <= 5 <= Z.quot Int.INT_MAX 2 /\
  mPushIndex (End_PopWaiting PopAwait eq_refl (cycled3 1))
  < 5 * Z.quot Int.INT_MAX 5 /\
  exists q2,
    Rep q2 [] /\ mCapacity q2 = 5 /\ mPushIndex q2 = 1 /\
    Pop_Await PopAwait eq_refl 1 q2 0 = Some (Finished (q2, 0) false).
Proof.
  split; [evaluate|]. split; [evaluate|]. split; [evaluate|].
  destruct (Free_then_Allocate_again 4 4
              (End_PopWaiting PopAwait eq_refl (cycled3 1))
              (SimpleAllocator.mk [Some 2%positive] [])
              (SimpleAllocator.mk [] [Some 1%positive]) 5 2%positive
              ltac:(evaluate) ltac:(evaluate) ltac:(evaluate)
              ltac:(reflexivity))
    as (q1 & q2 & _ & _ & HR & HC & HP & _ & _ & Hw).
  exists q2. split; [exact HR|]. split; [exact HC|]. split; [exact HP|].
  apply Hw. reflexivity.
Defined.

Lemma Emplace_Multiple_moves_stay_inside_witness :
  Rep one_live [5] /\
  Z.of_nat (length [6; 7; 8]) <= Int.INT_MAX /\
  mPopIndex one_live + mCapacity one_live - mPushIndex one_live
  <= Int.INT_MAX /\
  Emplace_Multiple_cNumToPush one_live [6; 7; 8] = 2 /\
  Emplace_Multiple_defined one_live [6; 7; 8] = true.
Proof.
  split; [evaluate|]. split; [evaluate|]. split; [evaluate|].
  pose proof (Emplace_Multiple_moves_stay_inside one_live [5] [6; 7; 8]
                ltac:(evaluate) ltac:(evaluate) ltac:(evaluate)) as H.
  cbv zeta in H. split; [exact (proj1 H) | exact (proj2 (proj2 H))].
Defined.

Lemma Allocate_keeps_stale_index_witness :
  Reachable NoWaits Reallocation.freed_near_wrap.1 /\
  Is_Allocated Reallocation.freed_near_wrap.1 = false /\
  1 <= 4 <= Z.quot Int.INT_MAX 2 /\
  mPopIndex Reallocation.freed_near_wrap.1
  = mPushIndex Reallocation.freed_near_wrap.1 /\
  4 * Z.quot Int.INT_MAX 4 <= mPushIndex Reallocation.freed_near_wrap.1
  < Int.INT_MAX /\
  mSize Reallocation.freed_near_wrap.1 = 0 /\
  exists q',
    Allocate 4 4 Reallocation.freed_near_wrap.1
      Reallocation.freed_near_wrap.2 4
    = Ok (q', SimpleAllocator.mk [] [Some 1%positive]) /\
    (run q' 0 (map OpPush [1; 2; 3; 4; 5])).2
    = [ObsPush true; ObsPush true; ObsPush true; ObsPush true; ObsPush true] /\
    size (run q' 0 (map OpPush [1; 2; 3; 4; 5])).1 = 5.
Proof.
  split.
  { apply (Reach_Free NoWaits near_wrap_empty SimpleAllocator.t _
             (SimpleAllocator.mk [Some 2%positive] [])
             Reallocation.freed_near_wrap.2 Reallocation.freed_near_wrap.1);
      [apply Reachable_near_wrap_empty | reflexivity]. }
  split; [reflexivity|]. split; [evaluate|]. split; [reflexivity|].
  split; [evaluate|]. split; [reflexivity|].
  destruct (Allocate_keeps_stale_index 4 4 Reallocation.freed_near_wrap.1
              Reallocation.freed_near_wrap.2
              (SimpleAllocator.mk [] [Some 1%positive]) 4 2%positive 0
              [1; 2; 3; 4; 5]
              ltac:(reflexivity) ltac:(evaluate) ltac:(reflexivity)
              ltac:(reflexivity) ltac:(evaluate) ltac:(reflexivity)
              ltac:(reflexivity))
    as (q' & H1 & _ & _ & _ & H2 & H3 & _).
  exists q'. split; [exact H1|]. split; [exact H2 | exact H3].
Defined.
